(** * Gapless streaming playback: validator, sequence buffer and scheduler

    A shallow embedding of three classes of the playground:

    - [ChunkValidator]        (src/lib/chunkValidator.ts)
    - [StreamingAudioBuffer]  (the sequence buffer, src/unnamed/part_005)
    - [WebAudioStreamer]      (the playback scheduler, src/unnamed/part_002)

    and of the function [splitTextIntoChunks] of the text chunker
    (src/unnamed/part_004).

    Conventions of the embedding.

    - A JavaScript string is the list of its UTF-16 code units.
    - Sequence indices, counters and byte values are integers ([Z], [N],
      [nat]); times and durations (seconds of the audio clock) are exact
      rationals ([Qc]), so rounding of IEEE doubles is outside the model.
    - A method of a class is a function from the object's state (a record of
      its private fields) to the new state together with the list of effects
      it performed, in program order: callbacks invoked, log lines, calls
      made on audio nodes.
    - The audio clock and the state of the audio context are read from an
      explicit environment passed to every method that consults them. *)

From Stdlib Require Import ZArith NArith QArith Qcanon Qround List Ascii String Lia Lqa.
From stdpp Require Import base decidable option list sets gmap sorting.

Local Open Scope Z_scope.

(** ** JavaScript strings *)

Module JS.

(** A string value: its UTF-16 code units. *)
Definition jsstring : Type := list N.

(** The code units of an ASCII literal. *)
Definition lit (s : string) : jsstring :=
  map N_of_ascii (list_ascii_of_string s).

(** ECMAScript [WhiteSpace] and [LineTerminator] code points, the
    characters that [String.prototype.trim] removes. *)
Definition is_white_space (c : N) : bool :=
  ((0x09 <=? c) && (c <=? 0x0D))%N     (* TAB, LF, VT, FF, CR *)
  || (c =? 0x20)%N                      (* SPACE *)
  || (c =? 0xA0)%N                      (* NO-BREAK SPACE *)
  || (c =? 0x1680)%N
  || ((0x2000 <=? c) && (c <=? 0x200A))%N
  || (c =? 0x2028)%N || (c =? 0x2029)%N (* LINE / PARAGRAPH SEPARATOR *)
  || (c =? 0x202F)%N || (c =? 0x205F)%N
  || (c =? 0x3000)%N
  || (c =? 0xFEFF)%N.                   (* ZERO WIDTH NO-BREAK SPACE *)

Fixpoint trimStart (s : jsstring) : jsstring :=
  match s with
  | c :: s' => if is_white_space c then trimStart s' else s
  | [] => []
  end.

Definition trimEnd (s : jsstring) : jsstring := rev (trimStart (rev s)).

(** [s.trim()] *)
Definition trim (s : jsstring) : jsstring := trimEnd (trimStart s).

(** [s.substring(0, n)] *)
Definition prefix (n : nat) (s : jsstring) : jsstring := firstn n s.

(** Truthiness of a string: every string but the empty one. *)
Definition truthy (s : jsstring) : bool :=
  match s with [] => false | _ :: _ => true end.

(** [a === b] on strings. *)
Definition eqb (a b : jsstring) : bool := bool_decide (a = b).

(** [segments.join('')] *)
Definition join (segments : list jsstring) : jsstring := concat segments.

(** No white space at the start. *)
Definition startsClean (s : jsstring) : Prop :=
  match s with
  | [] => True
  | c :: _ => is_white_space c = false
  end.

(** The characters of [s] that are not white space. *)
Definition visible (s : jsstring) : jsstring :=
  List.filter (fun c => negb (is_white_space c)) s.

End JS.

(** ** ChunkValidator  (src/lib/chunkValidator.ts) *)

Module ChunkValidator.
Import JS.

(** The [reason] template strings, by the branch that builds them, with
    the substrings they quote. *)
Inductive Reason : Type :=
| NoExpectedText
| EmptyChunk
| MatchesBatch (expected50 : jsstring)
| BatchMismatch (expected30 got30 : jsstring).

Record ChunkValidationResult : Type := {
  isValid : bool;
  newPosition : Z;
  reason : Reason
}.

(** The private field of the class. *)
Record t : Type := { expectedText : jsstring }.

(** [private expectedText: string = ''] *)
Definition create : t := {| expectedText := [] |}.

Definition setExpectedText (v : t) (text : jsstring) : t :=
  {| expectedText := trim text |}.

Definition reset (v : t) : t := {| expectedText := [] |}.

Definition validateChunk (v : t) (incomingText : jsstring)
  : ChunkValidationResult :=
  if negb (truthy (expectedText v)) then
    {| isValid := false; newPosition := 0; reason := NoExpectedText |}
  else
    let cleanIncomingText := trim incomingText in
    if negb (truthy cleanIncomingText) then
      {| isValid := false; newPosition := 0; reason := EmptyChunk |}
    else if eqb cleanIncomingText (expectedText v) then
      {| isValid := true; newPosition := 0;
         reason := MatchesBatch (prefix 50 (expectedText v)) |}
    else
      {| isValid := false; newPosition := 0;
         reason := BatchMismatch (prefix 30 (expectedText v))
                                 (prefix 30 cleanIncomingText) |}.

(** [this.expectedText !== ''] *)
Definition isActive (v : t) : bool := negb (eqb (expectedText v) []).

Definition getExpectedText (v : t) : jsstring := expectedText v.

(** [applyValidation(result)]: the body is empty. *)
Definition applyValidation (v : t) (result : ChunkValidationResult) : t := v.

Record State : Type := {
  stateExpectedText : jsstring;
  stateIsActive : bool
}.

Definition getState (v : t) : State :=
  {| stateExpectedText := expectedText v;
     stateIsActive := negb (eqb (expectedText v) []) |}.

(** The calls that can change a validator, and their runs from a new
    object. *)
Inductive Call : Type :=
| SetExpectedText (text : jsstring)
| Reset
| ApplyValidation (result : ChunkValidationResult).

Definition step (v : t) (c : Call) : t :=
  match c with
  | SetExpectedText text => setExpectedText v text
  | Reset => reset v
  | ApplyValidation result => applyValidation v result
  end.

Definition run (calls : list Call) : t := fold_left step calls create.

(** The watermark in force, if any: the class takes the empty
    [expectedText] for "no expected text set" ([validateChunk], [isActive],
    [getState]). *)
Definition watermark (v : t) : option jsstring :=
  if isActive v then Some (getExpectedText v) else None.

End ChunkValidator.

(** ** StreamingAudioBuffer, the sequence buffer  (src/unnamed/part_005) *)

Module StreamingAudioBuffer.
Import JS.

Record BufferedAudioChunk : Type := {
  audioData : list jsstring;   (* base64 segments of this chunk *)
  chunkIndex : Z;
  timestamp : Z;
  isComplete : bool
}.

(** Calls made on the two registered callbacks.  The [console.log] lines
    of the class are not part of the model. *)
Inductive Effect : Type :=
| AudioReady (combinedAudio : jsstring) (chunkIndex : Z)
| BufferStatus (queuedChunks : nat) (nextExpected : Z).

(** The private fields of the class. *)
Record t : Type := {
  audioQueue : list BufferedAudioChunk;
  nextExpectedIndex : Z;
  processedChunks : gset Z
}.

Definition create : t :=
  {| audioQueue := []; nextExpectedIndex := 0; processedChunks := ∅ |}.

(** [this.audioQueue.find(c => c.chunkIndex === chunkIndex)] *)
Definition findChunk (q : list BufferedAudioChunk) (i : Z)
  : option BufferedAudioChunk :=
  List.find (fun c => chunkIndex c =? i) q.

(** [this.audioQueue.findIndex(c => c.chunkIndex === i)], [-1] when no
    entry matches. *)
Fixpoint findIndex (q : list BufferedAudioChunk) (i : Z) : Z :=
  match q with
  | [] => -1
  | c :: q' =>
      if chunkIndex c =? i then 0
      else let r := findIndex q' i in if r <? 0 then -1 else r + 1
  end.

(** The two assignments made through the reference that [find] returned:
    [existingChunk.audioData.push(audioData)] and
    [existingChunk.isComplete = isComplete].  The object found is the first
    entry with that index, and it is updated in place in the queue. *)
Fixpoint pushSegment (q : list BufferedAudioChunk) (i : Z)
    (segment : jsstring) (complete : bool) : list BufferedAudioChunk :=
  match q with
  | [] => []
  | c :: q' =>
      if chunkIndex c =? i then
        {| audioData := audioData c ++ [segment];
           chunkIndex := chunkIndex c;
           timestamp := timestamp c;
           isComplete := complete |} :: q'
      else c :: pushSegment q' i segment complete
  end.

(** The [while] loop of [insertChunkInOrder]: the first position whose
    entry does not have a smaller index. *)
Fixpoint insertIndex (q : list BufferedAudioChunk) (i : Z) : nat :=
  match q with
  | [] => 0
  | c :: q' => if chunkIndex c <? i then S (insertIndex q' i) else 0
  end.

(** [q.splice(n, 0, x)] *)
Definition splice (n : nat) (x : BufferedAudioChunk)
    (q : list BufferedAudioChunk) : list BufferedAudioChunk :=
  firstn n q ++ x :: skipn n q.

Definition insertChunkInOrder (s : t) (newChunk : BufferedAudioChunk) : t :=
  if 0 <=? findIndex (audioQueue s) (chunkIndex newChunk) then s
  else
    {| audioQueue :=
         splice (insertIndex (audioQueue s) (chunkIndex newChunk))
                newChunk (audioQueue s);
       nextExpectedIndex := nextExpectedIndex s;
       processedChunks := processedChunks s |}.

(** The [while] loop of [processReadyChunks], by recursion on the queue:
    every iteration shifts the head off. *)
Fixpoint releaseReady (q : list BufferedAudioChunk) (next : Z)
    (processed : gset Z)
  : list BufferedAudioChunk * Z * gset Z * list Effect :=
  match q with
  | readyChunk :: q' =>
      if (chunkIndex readyChunk =? next) && isComplete readyChunk then
        let '(q'', next', processed', effs) :=
          releaseReady q' (next + 1)
                       ({[ chunkIndex readyChunk ]} ∪ processed) in
        (q'', next', processed',
         AudioReady (join (audioData readyChunk)) (chunkIndex readyChunk)
           :: effs)
      else (q, next, processed, [])
  | [] => ([], next, processed, [])
  end.

Definition processReadyChunks (s : t) : t * list Effect :=
  let '(q, next, processed, effs) :=
    releaseReady (audioQueue s) (nextExpectedIndex s) (processedChunks s) in
  ({| audioQueue := q; nextExpectedIndex := next;
      processedChunks := processed |}, effs).

(** The state handed to [processReadyChunks] by [addAudioChunk], for an
    index that was not released yet: the segment is appended to the
    existing entry, or a new entry is inserted in index order. *)
Definition storeSegment (s : t) (segment : jsstring) (i : Z)
    (complete : bool) (now : Z) : t :=
  match findChunk (audioQueue s) i with
  | Some _ =>
      {| audioQueue := pushSegment (audioQueue s) i segment complete;
         nextExpectedIndex := nextExpectedIndex s;
         processedChunks := processedChunks s |}
  | None =>
      insertChunkInOrder s
        {| audioData := [segment]; chunkIndex := i;
           timestamp := now; isComplete := complete |}
  end.

(** [addAudioChunk(audioData, chunkIndex, isComplete)]; [now] is the value
    of [Date.now()]. *)
Definition addAudioChunk (s : t) (segment : jsstring) (i : Z)
    (complete : bool) (now : Z) : t * list Effect :=
  if bool_decide (i ∈ processedChunks s) then (s, [])
  else
    let '(s', effs) := processReadyChunks (storeSegment s segment i complete now) in
    (s', effs ++ [BufferStatus (length (audioQueue s')) (nextExpectedIndex s')]).

Definition reset (s : t) : t :=
  {| audioQueue := []; nextExpectedIndex := 0; processedChunks := ∅ |}.

Record BufferStatusInfo : Type := {
  queuedChunks : nat;
  statusNextExpectedIndex : Z;
  waitingIndexes : list Z
}.

Definition getBufferStatus (s : t) : BufferStatusInfo :=
  {| queuedChunks := length (audioQueue s);
     statusNextExpectedIndex := nextExpectedIndex s;
     waitingIndexes := map chunkIndex (audioQueue s) |}.

(** *** Runs of the buffer *)

Inductive Call : Type :=
| AddAudioChunk (segment : jsstring) (i : Z) (complete : bool) (now : Z)
| ProcessReadyChunks
| Reset.

Definition step (s : t) (c : Call) : t * list Effect :=
  match c with
  | AddAudioChunk segment i complete now =>
      addAudioChunk s segment i complete now
  | ProcessReadyChunks => processReadyChunks s
  | Reset => (reset s, [])
  end.

Fixpoint run (s : t) (calls : list Call) : t * list Effect :=
  match calls with
  | [] => (s, [])
  | c :: calls' =>
      let '(s1, effs1) := step s c in
      let '(s2, effs2) := run s1 calls' in
      (s2, effs1 ++ effs2)
  end.

(** The indices handed to [onAudioReady], in the order of the calls. *)
Fixpoint released (effs : list Effect) : list Z :=
  match effs with
  | [] => []
  | AudioReady _ i :: effs' => i :: released effs'
  | BufferStatus _ _ :: effs' => released effs'
  end.

(** The chunks handed to [onAudioReady], in the order of the calls. *)
Fixpoint emitted (effs : list Effect) : list (Z * jsstring) :=
  match effs with
  | [] => []
  | AudioReady a i :: effs' => (i, a) :: emitted effs'
  | BufferStatus _ _ :: effs' => emitted effs'
  end.

(** The sequence index a call delivers a segment for. *)
Definition callIndex (c : Call) : option Z :=
  match c with
  | AddAudioChunk _ i _ _ => Some i
  | _ => None
  end.

(** The completeness flag of the last delivery for index [i]. *)
Fixpoint lastFlag (i : Z) (calls : list Call) : option bool :=
  match calls with
  | [] => None
  | c :: calls' =>
      match lastFlag i calls' with
      | Some b => Some b
      | None =>
          match c with
          | AddAudioChunk _ j complete _ =>
              if j =? i then Some complete else None
          | _ => None
          end
      end
  end.

(** The segments delivered for index [i], in the order of arrival. *)
Fixpoint segmentsFor (i : Z) (calls : list Call) : list jsstring :=
  match calls with
  | [] => []
  | AddAudioChunk segment j _ _ :: calls' =>
      if j =? i then segment :: segmentsFor i calls' else segmentsFor i calls'
  | _ :: calls' => segmentsFor i calls'
  end.

(** No segment is delivered for an index after the delivery that marks it
    complete. *)
Fixpoint closingIsLast (calls : list Call) : Prop :=
  match calls with
  | [] => True
  | c :: calls' =>
      match c with
      | AddAudioChunk _ i true _ => lastFlag i calls' = None
      | _ => True
      end
      /\ closingIsLast calls'
  end.

(** [lo; lo+1; ...; lo+n-1] *)
Fixpoint countFrom (lo : Z) (n : nat) : list Z :=
  match n with
  | O => []
  | S n' => lo :: countFrom (lo + 1) n'
  end.

(** [0; 1; ...; n-1] *)
Definition upto (n : nat) : list Z := countFrom 0 n.

(** A call that delivers a segment for a sequence index in [0..n]. *)
Definition delivers (n : Z) (c : Call) : Prop :=
  match callIndex c with
  | Some i => 0 <= i <= n
  | None => False
  end.

(** Every sequence index a call mentions is a natural number. *)
Definition naturalIndex (c : Call) : Prop :=
  match callIndex c with
  | Some i => 0 <= i
  | None => True
  end.

(** *** Invariants *)

(** The released indices are exactly [0 .. nextExpectedIndex - 1]. *)
Definition releasedPrefix (s : t) : Prop :=
  forall i : Z, i ∈ processedChunks s <-> 0 <= i < nextExpectedIndex s.

(** Every entry still queued is at or after the next expected index. *)
Definition pendingAhead (s : t) : Prop :=
  Forall (fun c => nextExpectedIndex s <= chunkIndex c) (audioQueue s).

(** Indices in strictly ascending order, none below [lo]. *)
Fixpoint ascendingFrom (lo : Z) (l : list Z) : Prop :=
  match l with
  | [] => True
  | i :: l' => lo <= i /\ ascendingFrom (i + 1) l'
  end.

(** The head of the queue is not releasable: [processReadyChunks] ran to
    the end of its loop. *)
Definition drained (s : t) : Prop :=
  match audioQueue s with
  | [] => True
  | c :: _ =>
      (chunkIndex c =? nextExpectedIndex s) && isComplete c = false
  end.

(** The inductive invariant of the class. *)
Definition wellFormed (s : t) : Prop :=
  0 <= nextExpectedIndex s
  /\ releasedPrefix s
  /\ ascendingFrom (nextExpectedIndex s) (map chunkIndex (audioQueue s)).

(** The queue reflects the deliveries made so far: an index that was not
    released has an entry exactly when a segment was delivered for it, and
    the entry carries the flag of the last delivery; a released index was
    delivered. *)
Definition tracked (s : t) (history : list Call) : Prop :=
  (forall i : Z,
      i ∉ processedChunks s ->
      match lastFlag i history with
      | Some b =>
          exists e, findChunk (audioQueue s) i = Some e /\ isComplete e = b
      | None => findChunk (audioQueue s) i = None
      end)
  /\ (forall i : Z, i ∈ processedChunks s -> lastFlag i history <> None).




(** Every queued entry holds the segments delivered for its index so far,
    and every released index was closed by its last delivery. *)
Definition accumulated (s : t) (history : list Call) : Prop :=
  (forall (i : Z) (e : BufferedAudioChunk),
      i ∉ processedChunks s ->
      findChunk (audioQueue s) i = Some e ->
      audioData e = segmentsFor i history)
  /\ (forall i : Z, i ∈ processedChunks s -> lastFlag i history = Some true).

End StreamingAudioBuffer.

(** ** WebAudioStreamer, the playback scheduler  (src/unnamed/part_002) *)

Module WebAudioStreamer.
Import JS.

(** *** The platform objects the class works with *)

(** An [AudioBuffer]: the attributes the class reads, and channel 0. *)
Record AudioBuffer : Type := {
  numberOfChannels : N;
  frames : N;               (* the [length] attribute, in sample-frames *)
  sampleRate : positive;
  channelData : list Q
}.

(** The [duration] attribute: [length / sampleRate] seconds. *)
Definition duration (b : AudioBuffer) : Qc :=
  Q2Qc (Z.of_N (frames b) # sampleRate b).

(** An [AudioBufferSourceNode] after [source.buffer = audioBuffer] and
    [source.start(startTime)].  [nodeId] stands for the identity of the
    object, which [indexOf] compares. *)
Record AudioBufferSourceNode : Type := {
  nodeId : nat;
  buffer : AudioBuffer;
  startTime : Qc
}.

Inductive AudioContextState : Type := suspended | running | closed.

(** What a method reads from [this.audioContext] when it runs. *)
Record Env : Type := {
  currentTime : Qc;
  contextState : AudioContextState
}.

Inductive Error : Type :=
| InvalidCharacterError     (* atob *)
| NotSupportedError         (* createBuffer *)
| RangeError                (* DataView.getInt16 *)
| EncodingError.            (* decodeAudioData *)

Inductive LogLine : Type :=
| LogInitialized
| LogChunkReceived (chars : nat) (isPCM : bool)
| LogPCMConverted (b : AudioBuffer)
| LogMP3Decoded (b : AudioBuffer)
| LogBufferFull
| LogQueueSize (queued total : nat)
| LogStarting
| LogContextResumed
| LogScheduled (number : nat) (start length : Qc)
| LogChunkCompleted (at_time : Qc)
| LogAllCompleted
| LogSummary (scheduled : nat) (bufferTimeMs : Qc)
| LogStopping
| LogSessionReset
| LogDecodeError (e : Error).

(** What a method does to the outside, in program order. *)
Inductive Effect : Type :=
| Log (l : LogLine)                     (* this.log(...) *)
| ConsoleError (e : Error)              (* console.error(...) *)
| PlaybackStateChange (playing : bool)  (* this.onPlaybackStateChange?.(...) *)
| SourceStart (source : AudioBufferSourceNode)   (* source.start(startTime) *)
| SourceStop (source : AudioBufferSourceNode)    (* source.stop() *)
| ResumeContext.                        (* this.audioContext.resume() *)

(** *** The state of the class *)

Record t : Type := {
  bufferQueue : list AudioBuffer;
  isPlaying : bool;
  nextStartTime : Qc;
  scheduledSources : list AudioBufferSourceNode;
  totalChunksReceived : nat;
  totalChunksPlayed : nat;
  audioDataChunks : list (list N);
  nodesCreated : nat     (* source nodes created so far: the next [nodeId] *)
}.

Definition BUFFER_AHEAD_TIME : Qc := Q2Qc (1 # 10).
Definition MAX_BUFFER_SIZE : nat := 10.

(** The constructor. *)
Definition create (env : Env) : t * list Effect :=
  ({| bufferQueue := []; isPlaying := false;
      nextStartTime := currentTime env + BUFFER_AHEAD_TIME;
      scheduledSources := [];
      totalChunksReceived := 0; totalChunksPlayed := 0;
      audioDataChunks := []; nodesCreated := 0 |},
   [Log LogInitialized]).

(** *** Decoding *)

(** [new Uint8Array] filled with [binaryString.charCodeAt(i)]. *)
Definition toBytes (binaryString : jsstring) : list N :=
  map (fun c => (c mod 256)%N) binaryString.

(** The 16-bit little-endian signed integer made of two bytes. *)
Definition int16 (lo hi : N) : Z :=
  let u := Z.of_N lo + 256 * Z.of_N hi in
  if u <? 32768 then u else u - 65536.

(** [this.audioContext.createBuffer(1, numSamples, sampleRate)]: the length
    argument is converted to an unsigned integer by truncation, and a
    length of zero frames is refused. *)
Definition createBuffer (channels : N) (numSamples : Q) (rate : positive)
  : Error + AudioBuffer :=
  let len := Z.to_N (Qnum numSamples / Z.pos (Qden numSamples)) in
  if (len =? 0)%N then inl NotSupportedError
  else inr {| numberOfChannels := channels; frames := len;
              sampleRate := rate;
              channelData := repeat 0%Q (N.to_nat len) |}.

(** The conversion loop [for (i = 0; i < numSamples; i++)], on the bytes
    from offset [2 * i] on.  [i < bytes.length / 2] holds as long as a byte
    remains; [getInt16(i * 2, true)] raises a [RangeError] when fewer than
    two remain; a store past the end of the [Float32Array] is ignored, as is
    an out-of-range list insert. *)
Fixpoint convertPCM (rest : list N) (i : nat) (data : list Q)
  : Error + list Q :=
  match rest with
  | [] => inr data
  | [_] => inl RangeError
  | lo :: hi :: rest' =>
      convertPCM rest' (S i) (<[ i := (int16 lo hi # 32768)%Q ]> data)
  end.

(** The PCM branch of [enqueue]: 48 kHz, mono, 16-bit. *)
Definition decodePCM (bytes : list N) : Error + AudioBuffer :=
  let numSamples : Q := (Z.of_nat (length bytes) # 2)%Q in
  match createBuffer 1 numSamples 48000 with
  | inl e => inl e
  | inr audioBuffer =>
      match convertPCM bytes 0 (channelData audioBuffer) with
      | inl e => inl e
      | inr data =>
          inr {| numberOfChannels := numberOfChannels audioBuffer;
                 frames := frames audioBuffer;
                 sampleRate := sampleRate audioBuffer;
                 channelData := data |}
      end
  end.

(** *** Scheduling *)

(** The body of the [while] loop of [scheduleChunks], once per queued
    buffer, by recursion on the queue. *)
Fixpoint scheduleQueue (q : list AudioBuffer) (s : t) : t * list Effect :=
  match q with
  | [] =>
      ({| bufferQueue := []; isPlaying := isPlaying s;
          nextStartTime := nextStartTime s;
          scheduledSources := scheduledSources s;
          totalChunksReceived := totalChunksReceived s;
          totalChunksPlayed := totalChunksPlayed s;
          audioDataChunks := audioDataChunks s;
          nodesCreated := nodesCreated s |}, [])
  | audioBuffer :: q' =>
      let source := {| nodeId := nodesCreated s; buffer := audioBuffer;
                       startTime := nextStartTime s |} in
      let '(s', effs) :=
        scheduleQueue q'
          {| bufferQueue := q'; isPlaying := isPlaying s;
             nextStartTime := startTime source + duration audioBuffer;
             scheduledSources := scheduledSources s ++ [source];
             totalChunksReceived := totalChunksReceived s;
             totalChunksPlayed := S (totalChunksPlayed s);
             audioDataChunks := audioDataChunks s;
             nodesCreated := S (nodesCreated s) |} in
      (s', SourceStart source
             :: Log (LogScheduled (S (totalChunksPlayed s))
                                  (startTime source) (duration audioBuffer))
             :: effs)
  end.

Definition scheduleChunks (s : t) (env : Env) : t * list Effect :=
  let now := currentTime env in
  let '(s', effs) := scheduleQueue (bufferQueue s) s in
  (s', effs ++
       match scheduledSources s' with
       | [] => []
       | _ :: _ =>
           [Log (LogSummary (length (scheduledSources s'))
                            ((nextStartTime s' - now) * Q2Qc 1000))]
       end).

Definition continuePlayback (s : t) (env : Env) : t * list Effect :=
  let now := currentTime env in
  let s1 :=
    {| bufferQueue := bufferQueue s; isPlaying := true;
       nextStartTime :=
         if bool_decide (nextStartTime s <= now)%Qc
         then now + BUFFER_AHEAD_TIME else nextStartTime s;
       scheduledSources := scheduledSources s;
       totalChunksReceived := totalChunksReceived s;
       totalChunksPlayed := totalChunksPlayed s;
       audioDataChunks := audioDataChunks s;
       nodesCreated := nodesCreated s |} in
  let '(s2, effs) := scheduleChunks s1 env in
  (s2, PlaybackStateChange true :: effs).

(** [startPlayback]; on a suspended context the playback continues in the
    callback of [resume().then(...)], see [onContextResumed]. *)
Definition startPlayback (s : t) (env : Env) : t * list Effect :=
  match bufferQueue s with
  | [] => (s, [])
  | _ :: _ =>
      match contextState env with
      | suspended => (s, [ResumeContext])
      | _ => continuePlayback s env
      end
  end.

(** The callback given to [this.audioContext.resume().then]. *)
Definition onContextResumed (s : t) (env : Env) : t * list Effect :=
  let '(s', effs) := continuePlayback s env in
  (s', Log LogContextResumed :: effs).

(** *** Taking in a decoded buffer: the rest of the [try] block *)

(** [if (this.bufferQueue.length >= this.MAX_BUFFER_SIZE) { ... }] *)
Definition dropOldestIfFull (s : t) : t * list Effect :=
  if (MAX_BUFFER_SIZE <=? length (bufferQueue s))%nat then
    ({| bufferQueue := tail (bufferQueue s);       (* shift() *)
        isPlaying := isPlaying s;
        nextStartTime := nextStartTime s;
        scheduledSources := scheduledSources s;
        totalChunksReceived := totalChunksReceived s;
        totalChunksPlayed := totalChunksPlayed s;
        audioDataChunks :=
          if (MAX_BUFFER_SIZE <? length (audioDataChunks s))%nat
          then tail (audioDataChunks s) else audioDataChunks s;
        nodesCreated := nodesCreated s |},
     [Log LogBufferFull])
  else (s, []).

(** From "Drop oldest if buffer full" to the end of the [try] block. *)
Definition acceptBuffer (s : t) (audioBuffer : AudioBuffer) (env : Env)
  : t * list Effect :=
  let '(s1, effs1) := dropOldestIfFull s in
  let s2 :=
    {| bufferQueue := bufferQueue s1 ++ [audioBuffer];   (* push *)
       isPlaying := isPlaying s1;
       nextStartTime := nextStartTime s1;
       scheduledSources := scheduledSources s1;
       totalChunksReceived := S (totalChunksReceived s1);
       totalChunksPlayed := totalChunksPlayed s1;
       audioDataChunks := audioDataChunks s1;
       nodesCreated := nodesCreated s1 |} in
  let effs2 :=
    [Log (LogQueueSize (length (bufferQueue s2)) (totalChunksReceived s2))] in
  let '(s3, effs3) :=
    if negb (isPlaying s2) then
      let '(s3, effs) := startPlayback s2 env in (s3, Log LogStarting :: effs)
    else scheduleChunks s2 env in
  (s3, effs1 ++ effs2 ++ effs3).

(** *** enqueue *)

(** How a run of the [async] method [enqueue] stands when it gives control
    back: returned normally, raised an error, or suspended at
    [await this.audioContext.decodeAudioData(bytes)]. *)
Inductive Completion : Type :=
| Returned (s : t) (effs : list Effect)
| Thrown (e : Error) (s : t) (effs : list Effect)
| Awaiting (bytes : list N) (s : t) (effs : list Effect).

Definition stateOf (c : Completion) : t :=
  match c with
  | Returned s _ | Thrown _ s _ | Awaiting _ s _ => s
  end.

Definition effectsOf (c : Completion) : list Effect :=
  match c with
  | Returned _ effs | Thrown _ _ effs | Awaiting _ _ effs => effs
  end.

(** [catch (error) { this.log(...); console.error(...); }] *)
Definition catchDecodeError (c : Completion) : Completion :=
  match c with
  | Thrown e s effs =>
      Returned s (effs ++ [Log (LogDecodeError e); ConsoleError e])
  | _ => c
  end.

(** The [try] block from the point where the awaited [decodeAudioData]
    settles, with a buffer or with a rejection. *)
Definition decodedTry (s : t) (decoded : Error + AudioBuffer) (env : Env)
  : Completion :=
  match decoded with
  | inl e => Thrown e s []
  | inr audioBuffer =>
      let '(s', effs) := acceptBuffer s audioBuffer env in
      Returned s' (Log (LogMP3Decoded audioBuffer) :: effs)
  end.

(** The continuation of an [enqueue] suspended at the [await]. *)
Definition enqueueResumed (s : t) (decoded : Error + AudioBuffer)
    (env : Env) : Completion :=
  catchDecodeError (decodedTry s decoded env).

Section Enqueue.

(** The platform's [atob]: the binary string, or [None] when it raises an
    [InvalidCharacterError]. *)
Variable atob : jsstring -> option jsstring.

(** The [try] block of [enqueue] up to the first point where it returns,
    raises or awaits. *)
Definition enqueueTry (s : t) (base64Data : jsstring) (isPCM : bool)
    (env : Env) : Completion :=
  let effs0 := [Log (LogChunkReceived (length base64Data) isPCM)] in
  match atob base64Data with
  | None => Thrown InvalidCharacterError s effs0
  | Some binaryString =>
      let bytes := toBytes binaryString in
      let s1 :=
        {| bufferQueue := bufferQueue s; isPlaying := isPlaying s;
           nextStartTime := nextStartTime s;
           scheduledSources := scheduledSources s;
           totalChunksReceived := totalChunksReceived s;
           totalChunksPlayed := totalChunksPlayed s;
           audioDataChunks := audioDataChunks s ++ [bytes];
           nodesCreated := nodesCreated s |} in
      if isPCM then
        match decodePCM bytes with
        | inl e => Thrown e s1 effs0
        | inr audioBuffer =>
            let '(s2, effs) := acceptBuffer s1 audioBuffer env in
            Returned s2
              (effs0 ++ Log (LogPCMConverted audioBuffer) :: effs)
        end
      else Awaiting bytes s1 effs0
  end.

(** [enqueue(base64Data, isPCM)] *)
Definition enqueue (s : t) (base64Data : jsstring) (isPCM : bool)
    (env : Env) : Completion :=
  if negb (truthy base64Data) then Returned s []
  else catchDecodeError (enqueueTry s base64Data isPCM env).

End Enqueue.

(** *** Completion of a source, stop, reset, status *)

(** [this.scheduledSources.indexOf(source)] *)
Fixpoint indexOf (l : list AudioBufferSourceNode)
    (source : AudioBufferSourceNode) : option nat :=
  match l with
  | [] => None
  | x :: l' =>
      if (nodeId x =? nodeId source)%nat then Some O
      else option_map S (indexOf l' source)
  end.

(** [l.splice(index, 1)] *)
Definition removeAt (index : nat) (l : list AudioBufferSourceNode)
  : list AudioBufferSourceNode :=
  firstn index l ++ skipn (S index) l.

(** The [source.onended] handler installed by [scheduleChunks]. *)
Definition onended (s : t) (source : AudioBufferSourceNode) (env : Env)
  : t * list Effect :=
  let sources :=
    match indexOf (scheduledSources s) source with
    | Some index => removeAt index (scheduledSources s)
    | None => scheduledSources s
    end in
  let finished :=
    match sources, bufferQueue s with
    | [], [] => true
    | _, _ => false
    end in
  ({| bufferQueue := bufferQueue s;
      isPlaying := if finished then false else isPlaying s;
      nextStartTime := nextStartTime s;
      scheduledSources := sources;
      totalChunksReceived := totalChunksReceived s;
      totalChunksPlayed := totalChunksPlayed s;
      audioDataChunks := audioDataChunks s;
      nodesCreated := nodesCreated s |},
   Log (LogChunkCompleted (currentTime env))
     :: (if finished
         then [Log LogAllCompleted; PlaybackStateChange false] else [])).

Definition stop (s : t) (env : Env) : t * list Effect :=
  ({| bufferQueue := [];
      isPlaying := false;
      nextStartTime := currentTime env + BUFFER_AHEAD_TIME;
      scheduledSources := [];
      totalChunksReceived := totalChunksReceived s;
      totalChunksPlayed := totalChunksPlayed s;
      audioDataChunks := audioDataChunks s;
      nodesCreated := nodesCreated s |},
   Log LogStopping
     :: map SourceStop (scheduledSources s) ++ [PlaybackStateChange false]).

Definition resetSession (s : t) (env : Env) : t * list Effect :=
  let '(s', effs) := stop s env in
  ({| bufferQueue := bufferQueue s'; isPlaying := isPlaying s';
      nextStartTime := nextStartTime s';
      scheduledSources := scheduledSources s';
      totalChunksReceived := 0;
      totalChunksPlayed := 0;
      audioDataChunks := [];
      nodesCreated := nodesCreated s' |},
   effs ++ [Log LogSessionReset]).

Record Analytics : Type := {
  statTotalChunksReceived : nat;
  statTotalChunksPlayed : nat;
  bufferUnderruns : nat;
  bufferOverflows : nat;
  averageChunkDuration : nat;
  minQueueSize : nat;
  maxQueueSize : nat;
  totalPlaybackTime : nat;
  bufferStarvationTime : nat;
  consecutiveUnderruns : nat;
  isBuffering : bool
}.

Inductive Issue : Type := NoScheduledAudioSources | LowSchedulingBuffer.

Record BufferHealth : Type := {
  isHealthy : bool;
  healthScore : Qc;
  issues : list Issue
}.

(** The object built by [getStatus], without the formatted strings of
    [webAudioStats]. *)
Record Status : Type := {
  statusIsPlaying : bool;
  queueSize : nat;
  analytics : Analytics;
  bufferHealth : BufferHealth
}.

Definition Qcmax (a b : Qc) : Qc := if bool_decide (a <= b)%Qc then b else a.
Definition Qcmin (a b : Qc) : Qc := if bool_decide (a <= b)%Qc then a else b.

Definition getStatus (s : t) (env : Env) : Status :=
  let now := currentTime env in
  let bufferedTime := Qcmax 0 ((nextStartTime s - now) * Q2Qc 1000) in
  let scheduled := length (scheduledSources s) in
  let queued := length (bufferQueue s) in
  {| statusIsPlaying := isPlaying s;
     queueSize := queued + scheduled;
     analytics :=
       {| statTotalChunksReceived := totalChunksReceived s;
          statTotalChunksPlayed := totalChunksPlayed s;
          bufferUnderruns := 0;
          bufferOverflows := 0;
          averageChunkDuration := 0;
          minQueueSize := 0;
          maxQueueSize := 0;
          totalPlaybackTime := 0;
          bufferStarvationTime := 0;
          consecutiveUnderruns := 0;
          isBuffering := (scheduled =? 0)%nat && (0 <? queued)%nat |};
     bufferHealth :=
       {| isHealthy :=
            bool_decide (Q2Qc 100 < bufferedTime)%Qc || (0 <? scheduled)%nat;
          healthScore :=
            Qcmin (Q2Qc 100)
              (Qcmax 0 (if (0 <? scheduled)%nat then Q2Qc 100
                        else bufferedTime / Q2Qc 5));
          issues :=
            if (scheduled =? 0)%nat && (queued =? 0)%nat && isPlaying s
            then [NoScheduledAudioSources]
            else if bool_decide (bufferedTime < Q2Qc 50)%Qc
                    && (queued =? 0)%nat
            then [LowSchedulingBuffer] else [] |} |}.

(** *** Runs of the scheduler *)

(** The entry points through which the state changes: the public methods,
    and the three continuations the class hands to the platform. *)
Inductive Call : Type :=
| Enqueue (base64Data : jsstring) (isPCM : bool)
| DecodeSettled (decoded : Error + AudioBuffer)
| ContextResumed
| SourceEnded (source : AudioBufferSourceNode)
| Stop
| ResetSession.

Section Run.

Variable atob : jsstring -> option jsstring.

Definition step (s : t) (c : Call) (env : Env) : t * list Effect :=
  match c with
  | Enqueue base64Data isPCM =>
      let r := enqueue atob s base64Data isPCM env in
      (stateOf r, effectsOf r)
  | DecodeSettled decoded =>
      let r := enqueueResumed s decoded env in
      (stateOf r, effectsOf r)
  | ContextResumed => onContextResumed s env
  | SourceEnded source => onended s source env
  | Stop => stop s env
  | ResetSession => resetSession s env
  end.

Fixpoint run (s : t) (calls : list (Call * Env)) : t * list Effect :=
  match calls with
  | [] => (s, [])
  | (c, env) :: calls' =>
      let '(s1, effs1) := step s c env in
      let '(s2, effs2) := run s1 calls' in
      (s2, effs1 ++ effs2)
  end.

(** A call that does not reset the timeline. *)
Definition keepsTimeline (c : Call) : bool :=
  match c with
  | Stop | ResetSession => false
  | _ => true
  end.

(** Every call of the run is made before the audio clock reaches the
    cursor [nextStartTime], and none of them resets the timeline. *)
Fixpoint onTime (s : t) (calls : list (Call * Env)) : Prop :=
  match calls with
  | [] => True
  | (c, env) :: calls' =>
      keepsTimeline c = true
      /\ (currentTime env < nextStartTime s)%Qc
      /\ onTime (fst (step s c env)) calls'
  end.

End Run.

(** The start time and length of every buffer handed to [source.start],
    in the order of the calls. *)
Fixpoint starts (effs : list Effect) : list (Qc * Qc) :=
  match effs with
  | [] => []
  | SourceStart source :: effs' =>
      (startTime source, duration (buffer source)) :: starts effs'
  | _ :: effs' => starts effs'
  end.

(** Every buffer starts exactly where the one before it ends. *)
Definition gapless (l : list (Qc * Qc)) : Prop :=
  forall (i : nat) (s d s' d' : Qc),
    l !! i = Some (s, d) -> l !! S i = Some (s', d') -> s' = (s + d)%Qc.

(** The buffers of [l] lie end to end on the timeline, the first at
    [t0]. *)
Fixpoint chainFrom (t0 : Qc) (l : list (Qc * Qc)) : Prop :=
  match l with
  | [] => True
  | (s, d) :: l' => s = t0 /\ chainFrom (s + d)%Qc l'
  end.

(** Where the last buffer of [l] ends; [t0] when there is none. *)
Fixpoint endOf (t0 : Qc) (l : list (Qc * Qc)) : Qc :=
  match l with
  | [] => t0
  | (s, d) :: l' => endOf (s + d)%Qc l'
  end.

(** What [setVolume] does to the outside:
    [this.masterGain.gain.setValueAtTime(value, time)] and the percentage it
    logs. *)
Record VolumeChange : Type := {
  gainValue : Qc;
  gainTime : Qc;
  loggedPercent : Z
}.

(** [Math.round]: the nearest integer, halves upwards. *)
Definition round (x : Qc) : Z := Qfloor (x + Q2Qc (1 # 2))%Qc.

(** [setVolume(volume)] *)
Definition setVolume (s : t) (volume : Qc) (env : Env) : t * VolumeChange :=
  let clampedVolume := Qcmax 0 (Qcmin 1 volume) in
  (s, {| gainValue := clampedVolume;
         gainTime := currentTime env;
         loggedPercent := round (clampedVolume * Q2Qc 100) |}).

(** [getAudioDataChunks()]: a copy of the array. *)
Definition getAudioDataChunks (s : t) : list (list N) := audioDataChunks s.

(** The buffers of [q] laid end to end from [t0] on: the start time and
    the length of each. *)
Fixpoint timeline (t0 : Qc) (q : list AudioBuffer) : list (Qc * Qc) :=
  match q with
  | [] => []
  | b :: q' => (t0, duration b) :: timeline (t0 + duration b)%Qc q'
  end.

(** The samples of 16-bit little-endian PCM, two bytes each. *)
Fixpoint samplesOf (bytes : list N) : list Q :=
  match bytes with
  | lo :: hi :: bytes' => (int16 lo hi # 32768)%Q :: samplesOf bytes'
  | _ => []
  end.

(** [s'] is [s] after every queued buffer was given a new source node, in
    the order of the queue. *)
Definition scheduledAll (s s' : t) : Prop :=
  bufferQueue s' = []
  /\ isPlaying s' = isPlaying s
  /\ totalChunksReceived s' = totalChunksReceived s
  /\ totalChunksPlayed s'
     = (totalChunksPlayed s + length (bufferQueue s))%nat
  /\ audioDataChunks s' = audioDataChunks s
  /\ nodesCreated s' = (nodesCreated s + length (bufferQueue s))%nat
  /\ exists new : list AudioBufferSourceNode,
      scheduledSources s' = scheduledSources s ++ new
      /\ map buffer new = bufferQueue s
      /\ map nodeId new = seq (nodesCreated s) (length (bufferQueue s)).

(** The counters and the source nodes agree: no more buffers were played or
    are waiting than were received, every scheduled source was counted as
    played, and the scheduled sources are different nodes. *)
Definition accounted (s : t) : Prop :=
  (totalChunksPlayed s + length (bufferQueue s) <= totalChunksReceived s)%nat
  /\ (length (scheduledSources s) <= totalChunksPlayed s)%nat
  /\ NoDup (map nodeId (scheduledSources s))
  /\ Forall (fun x => (nodeId x < nodesCreated s)%nat) (scheduledSources s).

(** Buffers wait in the queue only while playback has not started, and
    sources are scheduled only while the streamer counts as playing. *)
Definition steady (s : t) : Prop :=
  (scheduledSources s <> [] -> isPlaying s = true)
  /\ (isPlaying s = true -> bufferQueue s = []).

(** What a call may do to the timeline: the buffers it starts lie end to
    end from some time [t0] on, the cursor is left where the last of them
    ends, and [t0] is the cursor found when the call is made before the
    clock has reached it. *)
Definition extendsTimeline (s : t) (env : Env) (s' : t)
    (effs : list Effect) : Prop :=
  exists t0 : Qc,
    chainFrom t0 (starts effs)
    /\ nextStartTime s' = endOf t0 (starts effs)
    /\ ((currentTime env < nextStartTime s)%Qc -> t0 = nextStartTime s).

(** The schedule of [s'] is the schedule of [s]: the same cursor, the same
    queued buffers, the same scheduled sources, the same playing flag and
    counters. *)
Definition sameSchedule (s s' : t) : Prop :=
  nextStartTime s' = nextStartTime s
  /\ bufferQueue s' = bufferQueue s
  /\ scheduledSources s' = scheduledSources s
  /\ isPlaying s' = isPlaying s
  /\ totalChunksReceived s' = totalChunksReceived s
  /\ totalChunksPlayed s' = totalChunksPlayed s.

(** The buffers [dropOldestIfFull] keeps in the queue. *)
Definition keptOnOverflow (q : list AudioBuffer) : list AudioBuffer :=
  if (MAX_BUFFER_SIZE <=? length q)%nat then tail q else q.

(** The number of "buffer full, dropping oldest chunk" log lines. *)
Fixpoint dropsLogged (effs : list Effect) : nat :=
  match effs with
  | [] => 0
  | Log LogBufferFull :: effs' => S (dropsLogged effs')
  | _ :: effs' => dropsLogged effs'
  end.

End WebAudioStreamer.

(** ** A model of the platform's [atob]

    The forgiving-base64 decoding of the HTML Standard, used to run the
    scheduler on concrete payloads.  The theorems about [enqueue] hold for
    every [atob]. *)

Module Base64.
Import JS.

Definition is_ascii_whitespace (c : N) : bool :=
  ((c =? 0x09) || (c =? 0x0A) || (c =? 0x0C) || (c =? 0x0D) || (c =? 0x20))%N.

(** The value of a character of the base64 alphabet. *)
Definition sextet (c : N) : option N :=
  (if (0x41 <=? c) && (c <=? 0x5A) then Some (c - 0x41)            (* A-Z *)
   else if (0x61 <=? c) && (c <=? 0x7A) then Some (c - 0x61 + 26)  (* a-z *)
   else if (0x30 <=? c) && (c <=? 0x39) then Some (c - 0x30 + 52)  (* 0-9 *)
   else if c =? 0x2B then Some 62                                  (* + *)
   else if c =? 0x2F then Some 63                                  (* / *)
   else None)%N.

Fixpoint sextets (data : jsstring) : option (list N) :=
  match data with
  | [] => Some []
  | c :: data' =>
      match sextet c, sextets data' with
      | Some v, Some vs => Some (v :: vs)
      | _, _ => None
      end
  end.

(** Four characters give three bytes; of a final group of three, two bytes
    (the last two bits are dropped); of two, one byte. *)
Fixpoint groups (vs : list N) : list N :=
  (match vs with
   | a :: b :: c :: d :: vs' =>
       (a * 4 + b / 16) :: ((b mod 16) * 16 + c / 4)
         :: ((c mod 4) * 64 + d) :: groups vs'
   | [a; b; c] => [a * 4 + b / 16; (b mod 16) * 16 + c / 4]
   | [a; b] => [a * 4 + b / 16]
   | _ => []
   end)%N.

(** Remove one or two trailing [=], given the reversed string. *)
Definition stripPadding (reversed : jsstring) : jsstring :=
  match reversed with
  | 0x3D%N :: 0x3D%N :: r => r
  | 0x3D%N :: r => r
  | r => r
  end.

Definition atob (data : jsstring) : option jsstring :=
  let data := List.filter (fun c => negb (is_ascii_whitespace c)) data in
  let data :=
    if (length data mod 4 =? 0)%nat then rev (stripPadding (rev data))
    else data in
  if (length data mod 4 =? 1)%nat then None
  else option_map groups (sextets data).

End Base64.

(** ** The text chunker: [splitTextIntoChunks]  (src/unnamed/part_004) *)

Module TextChunker.
Import JS.

Record TextChunk : Type := {
  text : jsstring;
  index : nat;
  isComplete : bool
}.

(** The options after destructuring, the defaults filled in. *)
Record Options : Type := {
  minChunkSize : Q;
  maxChunkSize : Q;
  preferSentenceBoundaries : bool
}.

Definition defaults : Options :=
  {| minChunkSize := inject_Z 150;
     maxChunkSize := inject_Z 300;
     preferSentenceBoundaries := true |}.

(** [a < b] on numbers. *)
Definition Qltb (a b : Q) : bool := negb (Qle_bool b a).

(** [s.substring(0, n)]: an [n] below 0 counts as 0, one above the length
    as the length. *)
Definition substringTo (s : jsstring) (n : Z) : jsstring :=
  firstn (Z.to_nat n) s.

(** [s.substring(n)] *)
Definition substringFrom (s : jsstring) (n : nat) : jsstring := skipn n s.

(** [pattern] occurs in [s] at position 0. *)
Fixpoint startsWith (s pattern : jsstring) : bool :=
  match pattern, s with
  | [], _ => true
  | _ :: _, [] => false
  | p :: pattern', c :: s' => (c =? p)%N && startsWith s' pattern'
  end.

(** [s.lastIndexOf(pattern)]: the last position at which [pattern] occurs
    in [s], or -1. *)
Fixpoint lastIndexOf (s pattern : jsstring) : Z :=
  match s with
  | [] => if startsWith [] pattern then 0 else -1
  | _ :: s' =>
      let later := lastIndexOf s' pattern in
      if 0 <=? later then later + 1
      else if startsWith s pattern then 0 else -1
  end.

(** ['. ', '! ', '? ', '.\n', '!\n', '?\n'] *)
Definition sentenceEndings : list jsstring :=
  [[46; 32]; [33; 32]; [63; 32]; [46; 10]; [33; 10]; [63; 10]]%N.

(** The [for (const ending of sentenceEndings)] loop: the value of
    [bestBreak] after it. *)
Definition sentenceBreak (minChunkSize : Q) (chunkText : jsstring) : Z :=
  fold_left
    (fun bestBreak ending =>
       let lastIndex := lastIndexOf chunkText ending in
       if Qltb (minChunkSize / 2) (inject_Z lastIndex)
       then Z.max bestBreak (lastIndex + Z.of_nat (length ending))
       else bestBreak)
    sentenceEndings (-1).

(** [if (bestBreak === -1) { ... }]: the break at a word boundary. *)
Definition wordBreak (minChunkSize : Q) (chunkText : jsstring)
    (bestBreak : Z) : Z :=
  if bestBreak =? -1 then
    let lastSpace := lastIndexOf chunkText [32%N] in
    if Qltb (minChunkSize / 2) (inject_Z lastSpace) then lastSpace + 1
    else bestBreak
  else bestBreak.

(** The size of the next chunk, from the value [random] that
    [Math.random()] returned. *)
Definition chunkSizeOf (o : Options) (random : Q) (remainingText : jsstring)
  : Z :=
  let chunkSize :=
    Qfloor (minChunkSize o + random * (maxChunkSize o - minChunkSize o)) in
  if Qltb (inject_Z (Z.of_nat (length remainingText) - chunkSize))
          (minChunkSize o / 2)
  then Z.of_nat (length remainingText)
  else chunkSize.

(** The value of [chunkText] when the chunk is added. *)
Definition chunkTextOf (o : Options) (remainingText : jsstring)
    (chunkSize : Z) : jsstring :=
  let chunkText := substringTo remainingText chunkSize in
  if preferSentenceBoundaries o
     && (chunkSize <? Z.of_nat (length remainingText))
  then
    let bestBreak :=
      wordBreak (minChunkSize o) chunkText
        (sentenceBreak (minChunkSize o) chunkText) in
    if 0 <? bestBreak then substringTo remainingText bestBreak
    else chunkText
  else chunkText.

(** [chunks[chunks.length - 1].isComplete = true] *)
Fixpoint markLastComplete (chunks : list TextChunk) : list TextChunk :=
  match chunks with
  | [] => []
  | [c] => [{| text := text c; index := index c; isComplete := true |}]
  | c :: chunks' => c :: markLastComplete chunks'
  end.

Section Split.

(** The values returned by [Math.random()], in the order of the calls; the
    loop makes one call in each round. *)
Variable random : nat -> Q.

Variable o : Options.

(** The [while (remainingText.length > 0)] loop, for at most [fuel]
    rounds: [None] when the loop has not ended by then. *)
Fixpoint splitLoop (fuel : nat) (remainingText : jsstring)
    (chunkIndex : nat) (chunks : list TextChunk)
  : option (list TextChunk) :=
  match remainingText with
  | [] => Some chunks
  | _ :: _ =>
      match fuel with
      | O => None
      | S fuel' =>
          let chunkSize :=
            chunkSizeOf o (random chunkIndex) remainingText in
          let chunkText := chunkTextOf o remainingText chunkSize in
          splitLoop fuel'
            (trim (substringFrom remainingText (length chunkText)))
            (S chunkIndex)
            (chunks ++ [{| text := trim chunkText;
                           index := chunkIndex;
                           isComplete := false |}])
      end
  end.

(** [splitTextIntoChunks(text, options)] *)
Definition splitTextIntoChunks (fuel : nat) (text : jsstring)
  : option (list TextChunk) :=
  if negb (truthy (trim text)) then Some []
  else option_map markLastComplete (splitLoop fuel (trim text) 0 []).

End Split.

(** Where the text of a chunk comes from: a round of the loop that found a
    non-empty, trimmed [remainingText]. *)
Definition cutFrom (random : nat -> Q) (o : Options) (c : TextChunk)
  : Prop :=
  exists remainingText : jsstring,
    remainingText <> []
    /\ trim remainingText = remainingText
    /\ text c
       = trim (chunkTextOf o remainingText
                 (chunkSizeOf o (random (index c)) remainingText)).

(** Options of a small run: chunks of 10 to 20 characters. *)
Definition exampleOptions : Options :=
  {| minChunkSize := inject_Z 10; maxChunkSize := inject_Z 20;
     preferSentenceBoundaries := true |}.

End TextChunker.

(** * Properties *)

(** ** ChunkValidator *)

Module ChunkValidatorProofs.
Import JS ChunkValidator.

Lemma truthy_nonempty (s : jsstring) : truthy s = true <-> s <> [].
Proof. destruct s; simpl; split; congruence. Qed.

Lemma isActive_nonempty (v : t) : isActive v = true <-> expectedText v <> [].
Proof.
  unfold isActive, eqb. rewrite negb_true_iff, bool_decide_eq_false. tauto.
Qed.

Lemma validateChunk_isValid (v : t) (text : jsstring) :
  isValid (validateChunk v text) = true
  <-> expectedText v <> [] /\ trim text = expectedText v.
Proof.
  unfold validateChunk.
  destruct (expectedText v) as [|c w] eqn:Hw; simpl.
  - split; [discriminate | intros [H _]; congruence].
  - destruct (trim text) as [|c' w'] eqn:Ht; simpl.
    + split; [discriminate | intros [_ H]; discriminate].
    + unfold eqb. case_bool_decide; simpl; split; try tauto; try discriminate.
      intros _. split; [discriminate | assumption].
Qed.

(** C3.  [validateChunk(t)] is valid exactly when [t.trim()] is the
    watermark in force; after [reset()] no watermark is in force and every
    transcript is invalid; [setExpectedText(w)] puts [w.trim()] in force
    when it is not empty, and from then on exactly the transcripts that
    trim to it are valid (a [w] of white space only puts none in force).  The comparison is equality of code units, so
    ["hello"] and ["Hello."] do not match the watermark ["Hello"]. *)
Theorem validateChunk_valid_iff_watermark (v : t) (text : jsstring) :
  (isValid (validateChunk v text) = true <-> watermark v = Some (trim text))
  /\ (isValid (validateChunk v text) = true
      <-> expectedText v <> [] /\ trim text = expectedText v)
  /\ watermark (reset v) = None
  /\ isValid (validateChunk (reset v) text) = false
  /\ (forall w : jsstring,
        trim w <> [] ->
        watermark (setExpectedText v w) = Some (trim w)
        /\ (isValid (validateChunk (setExpectedText v w) text) = true
            <-> trim text = trim w))
  /\ (forall w : jsstring,
        trim w = [] ->
        watermark (setExpectedText v w) = None
        /\ isValid (validateChunk (setExpectedText v w) text) = false)
  /\ isValid (validateChunk (setExpectedText v (lit "Hello")) (lit " Hello "))
     = true
  /\ isValid (validateChunk (setExpectedText v (lit "Hello")) (lit "hello"))
     = false
  /\ isValid (validateChunk (setExpectedText v (lit "Hello")) (lit "Hello."))
     = false.
Proof.
  assert (Hreset : isValid (validateChunk (reset v) text) = false).
  { destruct (isValid (validateChunk (reset v) text)) eqn:H; [|reflexivity].
    apply validateChunk_isValid in H as [Hne _]. simpl in Hne. congruence. }
  split; [split|split; [|split; [|split; [|split; [|split; [|split; [|split]]]]]]].
  - intros H. apply validateChunk_isValid in H as [Hne Heq].
    unfold watermark. apply isActive_nonempty in Hne. rewrite Hne.
    unfold getExpectedText. congruence.
  - unfold watermark. destruct (isActive v) eqn:Ha; [|discriminate].
    intros [= H]. apply validateChunk_isValid.
    apply isActive_nonempty in Ha. unfold getExpectedText in H.
    split; congruence.
  - apply validateChunk_isValid.
  - reflexivity.
  - exact Hreset.
  - intros w Hw. split; [|split].
    + unfold watermark.
      assert (Ha : isActive (setExpectedText v w) = true)
        by (apply isActive_nonempty; assumption).
      rewrite Ha. reflexivity.
    + intros Hv. apply validateChunk_isValid in Hv as [_ Hv]. exact Hv.
    + intros Ht. apply validateChunk_isValid. simpl. split; assumption.
  - intros w Hw. unfold watermark, isActive, validateChunk. simpl.
    rewrite Hw. split; reflexivity.
  - reflexivity.
  - reflexivity.
  - reflexivity.
Qed.

Lemma validateChunk_valid_iff_watermark_witness :
  watermark (setExpectedText create (lit "  Hello world "))
    = Some (lit "Hello world")
  /\ isValid (validateChunk (setExpectedText create (lit "  Hello world "))
                            (lit "Hello world  ")) = true.
Proof.
  destruct (validateChunk_valid_iff_watermark create (lit "Hello world  "))
    as (_ & _ & _ & _ & H & _).
  destruct (H (lit "  Hello world ")) as [Hw Hv]; [discriminate|].
  split; [exact Hw | apply Hv; reflexivity].
Defined.

End ChunkValidatorProofs.

(** ** StreamingAudioBuffer *)

Module StreamingAudioBufferProofs.
Import JS StreamingAudioBuffer.

(** *** The queue operations *)

Lemma findChunk_Some q i e :
  findChunk q i = Some e -> e ∈ q /\ chunkIndex e = i.
Proof.
  unfold findChunk. intros H. apply find_some in H as [Hin Heq].
  split; [by apply list_elem_of_In | lia].
Qed.

Lemma findChunk_None q i :
  findChunk q i = None <-> i ∉ map chunkIndex q.
Proof.
  unfold findChunk. induction q as [|c q IH]; simpl.
  - split; [intros _; apply not_elem_of_nil | reflexivity].
  - destruct (Z.eqb_spec (chunkIndex c) i) as [->|Hne].
    + split; [discriminate | intros H; exfalso; apply H; left].
    + rewrite IH, not_elem_of_cons.
      split; [intros H; split; [congruence | exact H] | intros [_ H]; exact H].
Qed.

Lemma findIndex_lower q i : -1 <= findIndex q i.
Proof.
  induction q as [|c q IH]; simpl; [lia|].
  destruct (chunkIndex c =? i); [lia|].
  destruct (Z.ltb_spec (findIndex q i) 0); lia.
Qed.

Lemma findIndex_absent q i :
  findChunk q i = None -> findIndex q i = -1.
Proof.
  unfold findChunk. induction q as [|c q IH]; simpl; [reflexivity|].
  destruct (chunkIndex c =? i); [discriminate|].
  intros H. rewrite (IH H). reflexivity.
Qed.

Lemma pushSegment_indices q i seg b :
  map chunkIndex (pushSegment q i seg b) = map chunkIndex q.
Proof.
  induction q as [|c q IH]; simpl; [reflexivity|].
  destruct (chunkIndex c =? i); simpl; [reflexivity | by rewrite IH].
Qed.

Lemma pushSegment_findChunk q i seg b e :
  findChunk q i = Some e ->
  findChunk (pushSegment q i seg b) i
  = Some {| audioData := audioData e ++ [seg]; chunkIndex := chunkIndex e;
            timestamp := timestamp e; isComplete := b |}.
Proof.
  unfold findChunk. induction q as [|c q IH]; simpl; [discriminate|].
  destruct (chunkIndex c =? i) eqn:Hc; simpl.
  - intros [= ->]. by rewrite Hc.
  - rewrite Hc. exact IH.
Qed.

Lemma pushSegment_other q i seg b j :
  j <> i -> findChunk (pushSegment q i seg b) j = findChunk q j.
Proof.
  unfold findChunk. intros Hj. induction q as [|c q IH]; simpl; [reflexivity|].
  destruct (Z.eqb_spec (chunkIndex c) i) as [Hc|Hc]; simpl.
  - destruct (Z.eqb_spec (chunkIndex c) j); [lia | reflexivity].
  - destruct (chunkIndex c =? j); [reflexivity | exact IH].
Qed.

(** [splice] at [insertIndex] is insertion into the ascending queue. *)
Lemma splice_insertIndex_cons c q x :
  splice (insertIndex (c :: q) (chunkIndex x)) x (c :: q)
  = if chunkIndex c <? chunkIndex x
    then c :: splice (insertIndex q (chunkIndex x)) x q
    else x :: c :: q.
Proof.
  simpl. destruct (chunkIndex c <? chunkIndex x); reflexivity.
Qed.

Lemma ascendingFrom_weaken lo lo' l :
  lo' <= lo -> ascendingFrom lo l -> ascendingFrom lo' l.
Proof. destruct l; simpl; [tauto | intros ? [? ?]; split; [lia | assumption]]. Qed.

Lemma ascendingFrom_Forall lo l :
  ascendingFrom lo l -> Forall (fun i => lo <= i) l.
Proof.
  revert lo. induction l as [|i l IH]; intros lo; simpl; [constructor|].
  intros [Hlo Hl]. constructor; [assumption|].
  eapply Forall_impl; [apply (IH _ Hl)|]. simpl. intros; lia.
Qed.

Lemma splice_ascending lo q x :
  lo <= chunkIndex x ->
  chunkIndex x ∉ map chunkIndex q ->
  ascendingFrom lo (map chunkIndex q) ->
  ascendingFrom lo
    (map chunkIndex (splice (insertIndex q (chunkIndex x)) x q)).
Proof.
  revert lo. induction q as [|c q IH]; intros lo Hlo Hnotin Hasc.
  - simpl. split; [assumption | exact I].
  - rewrite splice_insertIndex_cons. simpl in Hnotin, Hasc.
    apply not_elem_of_cons in Hnotin as [Hne Hnotin].
    destruct Hasc as [Hc Hasc].
    destruct (Z.ltb_spec (chunkIndex c) (chunkIndex x)); simpl.
    + split; [assumption|]. apply IH; [lia | assumption | assumption].
    + split; [assumption|]. split; [lia | assumption].
Qed.

Lemma splice_findChunk q x :
  findChunk q (chunkIndex x) = None ->
  findChunk (splice (insertIndex q (chunkIndex x)) x q) (chunkIndex x)
  = Some x.
Proof.
  unfold findChunk. induction q as [|c q IH].
  - intros _. simpl. by rewrite Z.eqb_refl.
  - rewrite splice_insertIndex_cons. simpl.
    destruct (Z.eqb_spec (chunkIndex c) (chunkIndex x)) as [He|He];
      [discriminate|].
    intros Hq. destruct (chunkIndex c <? chunkIndex x); simpl.
    + destruct (Z.eqb_spec (chunkIndex c) (chunkIndex x)); [lia|]. auto.
    + by rewrite Z.eqb_refl.
Qed.

Lemma splice_other q x j :
  j <> chunkIndex x ->
  findChunk (splice (insertIndex q (chunkIndex x)) x q) j = findChunk q j.
Proof.
  unfold findChunk. intros Hj. induction q as [|c q IH].
  - simpl. destruct (Z.eqb_spec (chunkIndex x) j); [lia | reflexivity].
  - rewrite splice_insertIndex_cons.
    destruct (chunkIndex c <? chunkIndex x); simpl.
    + destruct (chunkIndex c =? j); [reflexivity | exact IH].
    + destruct (Z.eqb_spec (chunkIndex x) j); [lia | reflexivity].
Qed.

(** *** The release loop *)

Lemma released_app effs1 effs2 :
  released (effs1 ++ effs2) = released effs1 ++ released effs2.
Proof.
  induction effs1 as [|[a i|n k] effs1 IH]; simpl; [reflexivity| |assumption].
  by rewrite IH.
Qed.

Lemma emitted_app effs1 effs2 :
  emitted (effs1 ++ effs2) = emitted effs1 ++ emitted effs2.
Proof.
  induction effs1 as [|[a i|n k] effs1 IH]; simpl; [reflexivity| |assumption].
  by rewrite IH.
Qed.

Lemma released_emitted effs : released effs = map fst (emitted effs).
Proof.
  induction effs as [|[a i|n k] effs IH]; simpl; [reflexivity| |assumption].
  by rewrite IH.
Qed.

Lemma countFrom_app lo a b :
  countFrom lo (a + b) = countFrom lo a ++ countFrom (lo + Z.of_nat a) b.
Proof.
  revert lo. induction a as [|a IH]; intros lo; simpl.
  - by rewrite Z.add_0_r.
  - rewrite IH. do 3 f_equal. lia.
Qed.

Lemma countFrom_length lo n : length (countFrom lo n) = n.
Proof. revert lo. induction n; intros; simpl; [reflexivity | by f_equal]. Qed.

(** What one run of the loop of [processReadyChunks] does: it releases the
    indices [next, next+1, ..., next'-1], one per entry taken off the head
    of the queue, each of them complete, and stops at a head that is not
    releasable. *)
Lemma releaseReady_spec q next processed :
  forall q' next' processed' effs,
    releaseReady q next processed = (q', next', processed', effs) ->
    exists taken : list BufferedAudioChunk,
      q = taken ++ q'
      /\ next' = next + Z.of_nat (length taken)
      /\ map chunkIndex taken = countFrom next (length taken)
      /\ Forall (fun c => isComplete c = true) taken
      /\ emitted effs
         = map (fun c => (chunkIndex c, join (audioData c))) taken
      /\ (forall i, i ∈ processed'
                    <-> i ∈ processed \/ next <= i < next')
      /\ match q' with
         | [] => True
         | c :: _ => (chunkIndex c =? next') && isComplete c = false
         end.
Proof.
  revert next processed.
  induction q as [|c q IH]; intros next processed q' next' processed' effs.
  - simpl. intros [= <- <- <- <-]. exists []. simpl.
    split; [reflexivity|]. split; [lia|].
    split; [reflexivity|]. split; [constructor|].
    split; [reflexivity|]. split; [|exact I].
    intros i. split; [tauto | intros [?|?]; [assumption | lia]].
  - simpl. destruct ((chunkIndex c =? next) && isComplete c) eqn:Hc.
    + destruct (releaseReady q (next + 1) ({[chunkIndex c]} ∪ processed))
        as [[[q1 next1] processed1] effs1] eqn:Hr.
      intros [= <- <- <- <-].
      apply andb_true_iff in Hc as [Hidx Hcomplete].
      apply Z.eqb_eq in Hidx.
      destruct (IH _ _ _ _ _ _ Hr)
        as (taken & Hq & Hnext & Hidxs & Hcompl & Hem & Hproc & Hhead).
      exists (c :: taken). simpl.
      split; [by rewrite Hq|]. split; [lia|].
      split; [by rewrite Hidx, Hidxs|].
      split; [by constructor|].
      split; [by rewrite Hem|].
      split; [|exact Hhead].
      intros i. rewrite Hproc, elem_of_union, elem_of_singleton, Hidx.
      split.
      * intros [[->|?]|?]; [right; lia | left; assumption | right; lia].
      * intros [?|?]; [left; right; assumption|].
        destruct (decide (i = next)); [left; left; assumption | right; lia].
    + intros [= <- <- <- <-]. exists []. simpl.
      split; [reflexivity|]. split; [lia|].
      split; [reflexivity|]. split; [constructor|].
      split; [reflexivity|]. split; [|exact Hc].
      intros i. split; [tauto | intros [?|?]; [assumption | lia]].
Qed.

Lemma releaseReady_ascending q next processed q' next' processed' effs :
  releaseReady q next processed = (q', next', processed', effs) ->
  ascendingFrom next (map chunkIndex q) ->
  ascendingFrom next' (map chunkIndex q').
Proof.
  revert next processed q' next' processed' effs.
  induction q as [|c q IH]; intros next processed q' next' processed' effs.
  - simpl. intros [= <- <- <- <-] _. exact I.
  - simpl. destruct ((chunkIndex c =? next) && isComplete c) eqn:Hc.
    + destruct (releaseReady q (next + 1) ({[chunkIndex c]} ∪ processed))
        as [[[q1 next1] processed1] effs1] eqn:Hr.
      intros [= <- <- <- <-] [_ Hasc].
      apply andb_true_iff in Hc as [Hidx _]. apply Z.eqb_eq in Hidx.
      rewrite Hidx in Hasc. exact (IH _ _ _ _ _ _ Hr Hasc).
    + intros [= <- <- <- <-] Hasc. exact Hasc.
Qed.

(** [processReadyChunks], in terms of the state. *)
Lemma processReadyChunks_spec s s' effs :
  processReadyChunks s = (s', effs) ->
  exists taken : list BufferedAudioChunk,
    audioQueue s = taken ++ audioQueue s'
    /\ nextExpectedIndex s'
       = nextExpectedIndex s + Z.of_nat (length taken)
    /\ map chunkIndex taken
       = countFrom (nextExpectedIndex s) (length taken)
    /\ Forall (fun c => isComplete c = true) taken
    /\ emitted effs
       = map (fun c => (chunkIndex c, join (audioData c))) taken
    /\ (forall i, i ∈ processedChunks s'
                  <-> i ∈ processedChunks s
                      \/ nextExpectedIndex s <= i < nextExpectedIndex s')
    /\ drained s'.
Proof.
  unfold processReadyChunks, drained.
  destruct (releaseReady (audioQueue s) (nextExpectedIndex s)
              (processedChunks s)) as [[[q next] processed] effs0] eqn:Hr.
  intros [= <- <-]. simpl. exact (releaseReady_spec _ _ _ _ _ _ _ Hr).
Qed.

Lemma processReadyChunks_wellFormed s :
  wellFormed s -> wellFormed (fst (processReadyChunks s)).
Proof.
  intros (Hnext & Hrel & Hasc).
  destruct (processReadyChunks s) as [s' effs] eqn:Hp. simpl.
  destruct (processReadyChunks_spec _ _ _ Hp)
    as (taken & Hq & Hn & _ & _ & _ & Hproc & _).
  split; [lia|]. split.
  - intros i. rewrite Hproc, (Hrel i). lia.
  - revert Hp. unfold processReadyChunks.
    destruct (releaseReady (audioQueue s) (nextExpectedIndex s)
                (processedChunks s)) as [[[q next] processed] effs0] eqn:Hr.
    intros [= <- <-]. simpl.
    exact (releaseReady_ascending _ _ _ _ _ _ _ Hr Hasc).
Qed.

Lemma storeSegment_wellFormed s seg i b now :
  wellFormed s -> 0 <= i -> i ∉ processedChunks s ->
  wellFormed (storeSegment s seg i b now).
Proof.
  intros (Hnext & Hrel & Hasc) Hi Hnew.
  assert (Hlo : nextExpectedIndex s <= i).
  { destruct (Z.le_gt_cases (nextExpectedIndex s) i); [assumption|].
    exfalso. apply Hnew, Hrel. lia. }
  unfold storeSegment. destruct (findChunk (audioQueue s) i) eqn:Hf.
  - split; [assumption|]. split; [assumption|]. simpl.
    by rewrite pushSegment_indices.
  - unfold insertChunkInOrder. simpl. rewrite (findIndex_absent _ _ Hf).
    simpl. split; [assumption|]. split; [assumption|]. simpl.
    apply (splice_ascending _ _
             {| audioData := [seg]; chunkIndex := i; timestamp := now;
                isComplete := b |}); simpl;
      [assumption | by apply findChunk_None | assumption].
Qed.

Lemma create_wellFormed : wellFormed create.
Proof.
  split; [simpl; lia|]. split; [|exact I].
  intros i. simpl. split; [intros H; by apply not_elem_of_empty in H | lia].
Qed.

Lemma step_wellFormed s c :
  wellFormed s -> naturalIndex c -> wellFormed (fst (step s c)).
Proof.
  intros Hwf Hc. destruct c as [seg i b now| |]; simpl.
  - unfold addAudioChunk. case_bool_decide as Hp; [exact Hwf|].
    pose proof (processReadyChunks_wellFormed _
                  (storeSegment_wellFormed s seg i b now Hwf Hc Hp)) as H.
    destruct (processReadyChunks (storeSegment s seg i b now)). exact H.
  - by apply processReadyChunks_wellFormed.
  - apply create_wellFormed.
Qed.


Lemma run_wellFormed s calls :
  wellFormed s -> Forall naturalIndex calls -> wellFormed (fst (run s calls)).
Proof.
  revert s. induction calls as [|c calls IH]; intros s Hwf Hcalls; simpl.
  - exact Hwf.
  - inversion Hcalls as [|? ? Hc Hrest]; subst.
    pose proof (step_wellFormed s c Hwf Hc) as H1.
    destruct (step s c) as [s1 effs1].
    pose proof (IH s1 H1 Hrest) as H2.
    destruct (run s1 calls) as [s2 effs2]. exact H2.
Qed.

Lemma wellFormed_pendingAhead s : wellFormed s -> pendingAhead s.
Proof.
  intros (_ & _ & Hasc). unfold pendingAhead.
  apply ascendingFrom_Forall in Hasc.
  rewrite Forall_map in Hasc. exact Hasc.
Qed.

Lemma step_nextExpectedIndex s c :
  c <> Reset -> nextExpectedIndex s <= nextExpectedIndex (fst (step s c)).
Proof.
  intros Hc. destruct c as [seg i b now| |]; simpl; [| |congruence].
  - unfold addAudioChunk. case_bool_decide; [simpl; lia|].
    destruct (processReadyChunks (storeSegment s seg i b now))
      as [s' effs] eqn:Hp. simpl.
    destruct (processReadyChunks_spec _ _ _ Hp) as (taken & _ & Hn & _).
    assert (nextExpectedIndex (storeSegment s seg i b now)
            = nextExpectedIndex s).
    { unfold storeSegment, insertChunkInOrder.
      destruct (findChunk (audioQueue s) i); simpl; [reflexivity|].
      destruct (0 <=? findIndex (audioQueue s) i); reflexivity. }
    lia.
  - destruct (processReadyChunks s) as [s' effs] eqn:Hp. simpl.
    destruct (processReadyChunks_spec _ _ _ Hp) as (taken & _ & Hn & _).
    lia.
Qed.

(** *** Deliveries and what the queue holds *)

Lemma elem_of_countFrom i lo n :
  i ∈ countFrom lo n <-> lo <= i < lo + Z.of_nat n.
Proof.
  revert lo. induction n as [|n IH]; intros lo; simpl.
  - split; [intros H; by apply not_elem_of_nil in H | lia].
  - rewrite elem_of_cons, IH. lia.
Qed.

Lemma findChunk_app_notin l1 l2 i :
  i ∉ map chunkIndex l1 -> findChunk (l1 ++ l2) i = findChunk l2 i.
Proof.
  unfold findChunk. induction l1 as [|c l1 IH]; simpl; [reflexivity|].
  intros H. apply not_elem_of_cons in H as [Hne H].
  destruct (Z.eqb_spec (chunkIndex c) i); [congruence | auto].
Qed.

Lemma storeSegment_fields s seg i b now :
  nextExpectedIndex (storeSegment s seg i b now) = nextExpectedIndex s
  /\ processedChunks (storeSegment s seg i b now) = processedChunks s.
Proof.
  unfold storeSegment, insertChunkInOrder.
  destruct (findChunk (audioQueue s) i); simpl; [tauto|].
  destruct (0 <=? findIndex (audioQueue s) i); tauto.
Qed.

Lemma storeSegment_same s seg i b now :
  exists e, findChunk (audioQueue (storeSegment s seg i b now)) i = Some e
            /\ isComplete e = b.
Proof.
  unfold storeSegment. destruct (findChunk (audioQueue s) i) as [e|] eqn:Hf.
  - simpl. rewrite (pushSegment_findChunk _ _ seg b _ Hf). eauto.
  - unfold insertChunkInOrder. simpl. rewrite (findIndex_absent _ _ Hf).
    simpl.
    pose proof (splice_findChunk (audioQueue s)
                  {| audioData := [seg]; chunkIndex := i; timestamp := now;
                     isComplete := b |} Hf) as Hnew.
    simpl in Hnew. rewrite Hnew. eauto.
Qed.

Lemma storeSegment_other s seg i b now j :
  j <> i ->
  findChunk (audioQueue (storeSegment s seg i b now)) j
  = findChunk (audioQueue s) j.
Proof.
  intros Hj. unfold storeSegment.
  destruct (findChunk (audioQueue s) i) as [e|] eqn:Hf; simpl.
  - by apply pushSegment_other.
  - unfold insertChunkInOrder. simpl. rewrite (findIndex_absent _ _ Hf).
    simpl.
    exact (splice_other (audioQueue s)
             {| audioData := [seg]; chunkIndex := i; timestamp := now;
                isComplete := b |} j Hj).
Qed.

Lemma lastFlag_snoc i history c :
  lastFlag i (history ++ [c])
  = match c with
    | AddAudioChunk _ j b _ => if j =? i then Some b else lastFlag i history
    | _ => lastFlag i history
    end.
Proof.
  induction history as [|h history IH]; simpl.
  - destruct c as [? j b ?| |]; reflexivity.
  - rewrite IH. destruct c as [? j b ?| |]; try reflexivity.
    destruct (j =? i); reflexivity.
Qed.

Lemma lastFlag_undelivered n i calls :
  Forall (delivers n) calls -> n < i -> lastFlag i calls = None.
Proof.
  intros Hcalls Hi. induction Hcalls as [|c calls Hc _ IH]; simpl;
    [reflexivity|].
  rewrite IH. destruct c as [? j b ?| |]; try reflexivity.
  unfold delivers in Hc. simpl in Hc.
  destruct (Z.eqb_spec j i); [lia | reflexivity].
Qed.

Lemma create_tracked : tracked create [].
Proof.
  split; simpl; [reflexivity|]. intros i H. by apply not_elem_of_empty in H.
Qed.

Lemma addAudioChunk_tracked s history seg i b now :
  wellFormed s -> 0 <= i -> tracked s history ->
  tracked (fst (addAudioChunk s seg i b now))
          (history ++ [AddAudioChunk seg i b now]).
Proof.
  intros Hwf Hi [Hpend Hdone]. unfold addAudioChunk.
  case_bool_decide as Hp; simpl.
  - split.
    + intros j Hj. rewrite lastFlag_snoc.
      destruct (Z.eqb_spec i j) as [->|Hne]; [contradiction | by apply Hpend].
    + intros j Hj. rewrite lastFlag_snoc.
      destruct (i =? j); [discriminate | by apply Hdone].
  - pose proof (storeSegment_wellFormed s seg i b now Hwf Hi Hp)
      as (Hn1 & Hrel1 & Hasc1).
    destruct (storeSegment_fields s seg i b now) as [Hnext Hproc].
    assert (Hpend1 : forall j, j ∉ processedChunks s ->
              match lastFlag j (history ++ [AddAudioChunk seg i b now]) with
              | Some f =>
                  exists e,
                    findChunk (audioQueue (storeSegment s seg i b now)) j
                    = Some e /\ isComplete e = f
              | None =>
                  findChunk (audioQueue (storeSegment s seg i b now)) j
                  = None
              end).
    { intros j Hj. rewrite lastFlag_snoc.
      destruct (Z.eqb_spec i j) as [<-|Hne].
      - apply storeSegment_same.
      - rewrite storeSegment_other by congruence. by apply Hpend. }
    destruct (processReadyChunks (storeSegment s seg i b now))
      as [s' effs] eqn:Hrun. simpl.
    destruct (processReadyChunks_spec _ _ _ Hrun)
      as (taken & Hq & Hn & Hidxs & _ & _ & Hproc' & _).
    rewrite Hq in Hpend1. rewrite Hproc in Hproc'. rewrite Hnext in *.
    split.
    + intros j Hj.
      assert (Hj0 : j ∉ processedChunks s) by (rewrite Hproc' in Hj; tauto).
      assert (Hjt : j ∉ map chunkIndex taken).
      { rewrite Hidxs, elem_of_countFrom. rewrite Hproc' in Hj. lia. }
      specialize (Hpend1 j Hj0).
      by rewrite (findChunk_app_notin _ _ _ Hjt) in Hpend1.
    + intros j Hj. apply Hproc' in Hj as [Hj|Hj].
      * rewrite lastFlag_snoc. destruct (i =? j); [discriminate|].
        by apply Hdone.
      * assert (Hj0 : j ∉ processedChunks s).
        { destruct Hwf as (_ & Hrel & _). rewrite (Hrel j). lia. }
        specialize (Hpend1 j Hj0).
        destruct (lastFlag j (history ++ [AddAudioChunk seg i b now]));
          [discriminate|].
        exfalso. apply findChunk_None in Hpend1. apply Hpend1.
        rewrite map_app, elem_of_app. left.
        rewrite Hidxs, elem_of_countFrom. lia.
Qed.

Lemma delivers_natural n c : delivers n c -> naturalIndex c.
Proof.
  unfold delivers, naturalIndex. destruct (callIndex c); [lia | tauto].
Qed.

Lemma run_tracked n s history calls :
  wellFormed s -> tracked s history -> Forall (delivers n) calls ->
  tracked (fst (run s calls)) (history ++ calls).
Proof.
  revert s history.
  induction calls as [|c calls IH]; intros s history Hwf Htr Hcalls; simpl.
  - by rewrite app_nil_r.
  - inversion Hcalls as [|? ? Hc Hrest]; subst.
    pose proof (step_wellFormed s c Hwf (delivers_natural _ _ Hc)) as Hwf1.
    assert (Htr1 : tracked (fst (step s c)) (history ++ [c])).
    { destruct c as [seg i b now| |]; try (by destruct Hc).
      apply addAudioChunk_tracked; [assumption| |assumption].
      unfold delivers in Hc. simpl in Hc. lia. }
    destruct (step s c) as [s1 effs1]. simpl in *.
    pose proof (IH s1 (history ++ [c]) Hwf1 Htr1 Hrest) as H.
    destruct (run s1 calls) as [s2 effs2]. simpl in *.
    by rewrite <- app_assoc in H.
Qed.

Lemma step_drained n s c :
  drained s -> delivers n c -> drained (fst (step s c)).
Proof.
  intros Hd Hc. destruct c as [seg i b now| |]; try (by destruct Hc).
  simpl. unfold addAudioChunk. case_bool_decide; [exact Hd|].
  destruct (processReadyChunks (storeSegment s seg i b now))
    as [s' effs] eqn:Hrun. simpl.
  by destruct (processReadyChunks_spec _ _ _ Hrun)
    as (taken & _ & _ & _ & _ & _ & _ & Hdr).
Qed.

Lemma run_drained n s calls :
  drained s -> Forall (delivers n) calls -> drained (fst (run s calls)).
Proof.
  revert s. induction calls as [|c calls IH]; intros s Hd Hcalls; simpl.
  - exact Hd.
  - inversion Hcalls as [|? ? Hc Hrest]; subst.
    pose proof (step_drained n s c Hd Hc) as H1.
    destruct (step s c) as [s1 effs1].
    pose proof (IH s1 H1 Hrest) as H2.
    destruct (run s1 calls) as [s2 effs2]. exact H2.
Qed.

(** The indices released by a run of deliveries count up from the index
    expected at its start to the one expected at its end. *)
Lemma step_released n s c :
  delivers n c ->
  exists k : nat,
    released (snd (step s c)) = countFrom (nextExpectedIndex s) k
    /\ nextExpectedIndex (fst (step s c))
       = nextExpectedIndex s + Z.of_nat k.
Proof.
  intros Hc. destruct c as [seg i b now| |]; try (by destruct Hc).
  simpl. unfold addAudioChunk. case_bool_decide.
  - exists O. simpl. split; [reflexivity | lia].
  - destruct (storeSegment_fields s seg i b now) as [Hnext _].
    destruct (processReadyChunks (storeSegment s seg i b now))
      as [s' effs] eqn:Hrun. simpl.
    destruct (processReadyChunks_spec _ _ _ Hrun)
      as (taken & _ & Hn & Hidxs & _ & Hem & _).
    exists (length taken). rewrite released_app. simpl. rewrite app_nil_r.
    rewrite released_emitted, Hem, map_map. simpl.
    change (map (fun c => chunkIndex c) taken) with (map chunkIndex taken).
    rewrite Hidxs, Hnext in *. split; [reflexivity | exact Hn].
Qed.

Lemma run_released n s calls :
  Forall (delivers n) calls ->
  exists k : nat,
    released (snd (run s calls)) = countFrom (nextExpectedIndex s) k
    /\ nextExpectedIndex (fst (run s calls))
       = nextExpectedIndex s + Z.of_nat k.
Proof.
  revert s. induction calls as [|c calls IH]; intros s Hcalls; simpl.
  - exists O. simpl. split; [reflexivity | lia].
  - inversion Hcalls as [|? ? Hc Hrest]; subst.
    destruct (step_released n s c Hc) as (k1 & Hr1 & Hn1).
    destruct (step s c) as [s1 effs1]. simpl in *.
    destruct (IH s1 Hrest) as (k2 & Hr2 & Hn2).
    destruct (run s1 calls) as [s2 effs2]. simpl in *.
    exists (k1 + k2)%nat. rewrite released_app, Hr1, Hr2, countFrom_app, Hn1.
    split; [reflexivity | lia].
Qed.

(** *** What the released chunks hold *)

Lemma lastFlag_app i l1 l2 :
  lastFlag i (l1 ++ l2)
  = match lastFlag i l2 with
    | Some b => Some b
    | None => lastFlag i l1
    end.
Proof.
  induction l1 as [|c l1 IH]; simpl.
  - by destruct (lastFlag i l2).
  - rewrite IH. by destruct (lastFlag i l2).
Qed.

Lemma segmentsFor_app i l1 l2 :
  segmentsFor i (l1 ++ l2) = segmentsFor i l1 ++ segmentsFor i l2.
Proof.
  induction l1 as [|c l1 IH]; simpl; [reflexivity|].
  destruct c as [seg j b now| |]; try assumption.
  destruct (j =? i); simpl; by rewrite IH.
Qed.

Lemma lastFlag_None_segments i l :
  lastFlag i l = None -> segmentsFor i l = [].
Proof.
  induction l as [|c l IH]; simpl; [reflexivity|].
  destruct (lastFlag i l); [discriminate|].
  destruct c as [seg j b now| |]; auto.
  destruct (j =? i); [discriminate | auto].
Qed.

Lemma closingIsLast_app l1 l2 :
  closingIsLast (l1 ++ l2) -> closingIsLast l2.
Proof. induction l1 as [|c l1 IH]; simpl; [tauto | intros [_ H]; auto]. Qed.

Lemma closed_no_more i history l :
  lastFlag i history = Some true -> closingIsLast (history ++ l) ->
  lastFlag i l = None.
Proof.
  induction history as [|c history IH]; simpl; [discriminate|].
  intros Hlast [Hc Hrest].
  destruct (lastFlag i history) as [b|] eqn:Hh.
  - injection Hlast as ->. by apply IH.
  - destruct c as [seg j b now| |]; try discriminate.
    destruct (Z.eqb_spec j i) as [->|Hne]; [|discriminate].
    injection Hlast as ->. rewrite lastFlag_app in Hc.
    by destruct (lastFlag i l).
Qed.

Lemma NoDup_countFrom lo n : NoDup (countFrom lo n).
Proof.
  revert lo. induction n as [|n IH]; intros lo; simpl; constructor.
  - rewrite elem_of_countFrom. lia.
  - apply IH.
Qed.

Lemma findChunk_app_in l1 l2 e :
  NoDup (map chunkIndex l1) -> e ∈ l1 ->
  findChunk (l1 ++ l2) (chunkIndex e) = Some e.
Proof.
  unfold findChunk. induction l1 as [|c l1 IH]; simpl.
  - intros _ H. by apply not_elem_of_nil in H.
  - intros Hnd Hin. apply NoDup_cons in Hnd as [Hc Hnd].
    apply elem_of_cons in Hin as [->|Hin].
    + by rewrite Z.eqb_refl.
    + destruct (Z.eqb_spec (chunkIndex c) (chunkIndex e)) as [Heq|Hne];
        [|by apply IH].
      exfalso. apply Hc. rewrite Heq. by apply list_elem_of_fmap_2.
Qed.

Lemma storeSegment_entry s seg i b now :
  findChunk (audioQueue (storeSegment s seg i b now)) i
  = Some (match findChunk (audioQueue s) i with
          | Some e =>
              {| audioData := audioData e ++ [seg]; chunkIndex := chunkIndex e;
                 timestamp := timestamp e; isComplete := b |}
          | None =>
              {| audioData := [seg]; chunkIndex := i; timestamp := now;
                 isComplete := b |}
          end).
Proof.
  unfold storeSegment. destruct (findChunk (audioQueue s) i) as [e|] eqn:Hf.
  - simpl. by apply pushSegment_findChunk.
  - unfold insertChunkInOrder. simpl. rewrite (findIndex_absent _ _ Hf).
    simpl.
    exact (splice_findChunk (audioQueue s)
             {| audioData := [seg]; chunkIndex := i; timestamp := now;
                isComplete := b |} Hf).
Qed.

Lemma create_accumulated : accumulated create [].
Proof.
  split; simpl; [discriminate|]. intros i H. by apply not_elem_of_empty in H.
Qed.

(** One delivery, when no index is delivered to after its closing segment:
    the entries keep holding what was delivered, and the chunks released hold
    all the segments of their indices. *)
Lemma addAudioChunk_accumulated s history seg i b now rest :
  wellFormed s -> 0 <= i -> tracked s history -> accumulated s history ->
  closingIsLast (history ++ AddAudioChunk seg i b now :: rest) ->
  accumulated (fst (addAudioChunk s seg i b now))
              (history ++ [AddAudioChunk seg i b now])
  /\ exists k : nat,
      emitted (snd (addAudioChunk s seg i b now))
      = map (fun j => (j, join (segmentsFor j
                                  (history ++ [AddAudioChunk seg i b now]))))
            (countFrom (nextExpectedIndex s) k)
      /\ nextExpectedIndex (fst (addAudioChunk s seg i b now))
         = nextExpectedIndex s + Z.of_nat k.
Proof.
  intros Hwf Hi Htr [Hdata Hclosed] Hlast.
  set (c := AddAudioChunk seg i b now) in *.
  assert (Hfresh : i ∉ processedChunks s).
  { intros Hin. pose proof (closed_no_more _ _ _ (Hclosed i Hin) Hlast) as H.
    simpl in H. destruct (lastFlag i rest); [discriminate|].
    by rewrite Z.eqb_refl in H. }
  pose proof (addAudioChunk_tracked s history seg i b now Hwf Hi Htr) as Htr'.
  fold c in Htr'. revert Htr'.
  unfold addAudioChunk. rewrite bool_decide_eq_false_2 by assumption.
  pose proof (storeSegment_wellFormed s seg i b now Hwf Hi Hfresh)
    as (_ & Hrel1 & Hasc1).
  destruct (storeSegment_fields s seg i b now) as [Hnext Hproc].
  (* the entries of the queue handed to the release loop *)
  assert (Hdata1 : forall j e,
             j ∉ processedChunks s ->
             findChunk (audioQueue (storeSegment s seg i b now)) j = Some e ->
             audioData e = segmentsFor j (history ++ [c])).
  { intros j e Hj. rewrite segmentsFor_app. simpl.
    destruct (Z.eqb_spec i j) as [<-|Hne].
    - rewrite storeSegment_entry. intros [= <-].
      destruct Htr as [Hpend _]. specialize (Hpend i Hfresh).
      destruct (findChunk (audioQueue s) i) as [e0|] eqn:Hf; simpl.
      + by rewrite (Hdata i e0 Hfresh Hf).
      + destruct (lastFlag i history) eqn:Hl.
        * destruct Hpend as (? & ? & _). discriminate.
        * by rewrite (lastFlag_None_segments _ _ Hl).
    - rewrite storeSegment_other by congruence. rewrite app_nil_r.
      by apply Hdata. }
  destruct (processReadyChunks (storeSegment s seg i b now))
    as [s' effs] eqn:Hrun. cbn [fst snd].
  destruct (processReadyChunks_spec _ _ _ Hrun)
    as (taken & Hq & Hn & Hidxs & Hcompl & Hem & Hproc' & _).
  rewrite Hproc in Hproc'. rewrite Hnext in *.
  intros [Hpend' _].
  assert (Hnd : NoDup (map chunkIndex taken))
    by (rewrite Hidxs; apply NoDup_countFrom).
  assert (Htaken : forall e, e ∈ taken ->
             (chunkIndex e ∉ processedChunks s)
             /\ findChunk (audioQueue (storeSegment s seg i b now))
                  (chunkIndex e) = Some e).
  { intros e He. split.
    - assert (Hin : chunkIndex e ∈ map chunkIndex taken)
        by (by apply list_elem_of_fmap_2).
      rewrite Hidxs, elem_of_countFrom in Hin.
      destruct Hwf as (_ & Hrel & _). rewrite (Hrel (chunkIndex e)). lia.
    - rewrite Hq. by apply findChunk_app_in. }
  split; [split|].
  - intros j e Hj Hf.
    assert (Hj0 : j ∉ processedChunks s) by (rewrite Hproc' in Hj; tauto).
    assert (Hjt : j ∉ map chunkIndex taken).
    { rewrite Hidxs, elem_of_countFrom. rewrite Hproc' in Hj. lia. }
    apply (Hdata1 j e Hj0). rewrite Hq.
    by rewrite (findChunk_app_notin _ _ _ Hjt).
  - intros j Hj. apply Hproc' in Hj as [Hj|Hj].
    + rewrite lastFlag_snoc. unfold c.
      destruct (Z.eqb_spec i j) as [<-|_]; [contradiction | by apply Hclosed].
    + assert (Hin : j ∈ map chunkIndex taken)
        by (rewrite Hidxs, elem_of_countFrom; lia).
      apply list_elem_of_fmap in Hin as (e & -> & He).
      destruct (Htaken e He) as [He0 Hfe].
      destruct (addAudioChunk_tracked s history seg i b now Hwf Hi Htr)
        as [_ Hdone].
      rewrite Forall_forall in Hcompl. specialize (Hcompl e He).
      (* the flag of the entry is the flag of the last delivery *)
      assert (Hflag : match lastFlag (chunkIndex e) (history ++ [c]) with
                      | Some f => isComplete e = f
                      | None => False
                      end).
      { rewrite lastFlag_snoc. unfold c.
        destruct (Z.eqb_spec i (chunkIndex e)) as [Heq|Hne].
        - rewrite <- Heq, storeSegment_entry in Hfe. injection Hfe as <-.
          by destruct (findChunk (audioQueue s) i).
        - rewrite storeSegment_other in Hfe by congruence.
          destruct Htr as [Hpend _]. specialize (Hpend _ He0).
          rewrite Hfe in Hpend.
          destruct (lastFlag (chunkIndex e) history);
            [|discriminate].
          destruct Hpend as (e1 & [= <-] & Hb). exact Hb. }
      destruct (lastFlag (chunkIndex e) (history ++ [c]));
        [congruence | contradiction].
  - exists (length taken). split; [|exact Hn].
    rewrite emitted_app. simpl. rewrite app_nil_r, Hem, <- Hidxs, map_map.
    apply map_ext_in. intros e He. apply list_elem_of_In in He.
    destruct (Htaken e He) as [He0 Hfe].
    by rewrite (Hdata1 _ _ He0 Hfe).
Qed.

Lemma run_accumulated n :
  forall rest s history,
    wellFormed s -> tracked s history -> accumulated s history ->
    Forall (delivers n) rest -> closingIsLast (history ++ rest) ->
    exists k : nat,
      emitted (snd (run s rest))
      = map (fun j => (j, join (segmentsFor j (history ++ rest))))
            (countFrom (nextExpectedIndex s) k)
      /\ nextExpectedIndex (fst (run s rest))
         = nextExpectedIndex s + Z.of_nat k.
Proof.
  induction rest as [|c rest IH]; intros s history Hwf Htr Hacc Hrest Hlast.
  - exists O. simpl. split; [reflexivity | lia].
  - inversion Hrest as [|? ? Hc Hrest']; subst.
    destruct c as [seg i b now| |]; try (by destruct Hc).
    assert (Hi : 0 <= i) by (unfold delivers in Hc; simpl in Hc; lia).
    destruct (addAudioChunk_accumulated s history seg i b now rest
                Hwf Hi Htr Hacc Hlast) as (Hacc1 & k1 & Hem1 & Hn1).
    pose proof (addAudioChunk_tracked s history seg i b now Hwf Hi Htr)
      as Htr1.
    pose proof (step_wellFormed s (AddAudioChunk seg i b now) Hwf
                  (delivers_natural _ _ Hc)) as Hwf1.
    simpl in Hwf1 |- *.
    destruct (addAudioChunk s seg i b now) as [s1 effs1]. cbn [fst snd] in *.
    assert (Hlast1 : closingIsLast
                       ((history ++ [AddAudioChunk seg i b now]) ++ rest))
      by (by rewrite <- app_assoc).
    destruct (IH s1 _ Hwf1 Htr1 Hacc1 Hrest' Hlast1) as (k2 & Hem2 & Hn2).
    destruct (run s1 rest) as [s2 effs2]. cbn [fst snd] in *.
    exists (k1 + k2)%nat. split; [|lia].
    rewrite emitted_app, Hem1, Hem2, countFrom_app, map_app, Hn1.
    rewrite <- app_assoc. simpl. f_equal.
    apply map_ext_in. intros j Hj. apply list_elem_of_In in Hj.
    apply elem_of_countFrom in Hj.
    assert (Hjp : j ∈ processedChunks s1).
    { destruct Hwf1 as (_ & Hrel1 & _). rewrite (Hrel1 j).
      destruct Hwf as (H0 & _). lia. }
    destruct Hacc1 as [_ Hclosed1].
    pose proof (closed_no_more _ _ _ (Hclosed1 j Hjp) Hlast1) as Hnone.
    change (history ++ AddAudioChunk seg i b now :: rest)
      with (history ++ [AddAudioChunk seg i b now] ++ rest).
    rewrite app_assoc, (segmentsFor_app j _ rest).
    by rewrite (lastFlag_None_segments _ _ Hnone), app_nil_r.
Qed.

Lemma ascending_head k q e :
  ascendingFrom k (map chunkIndex q) -> findChunk q k = Some e ->
  exists q', q = e :: q'.
Proof.
  destruct q as [|c q']; [discriminate|]. simpl. intros [Hk Hasc].
  unfold findChunk. simpl.
  destruct (Z.eqb_spec (chunkIndex c) k) as [Hc|Hc].
  - intros [= ->]. eauto.
  - intros Hf. apply findChunk_Some in Hf as [Hin He].
    apply ascendingFrom_Forall in Hasc. rewrite Forall_map in Hasc.
    rewrite Forall_forall in Hasc. specialize (Hasc e Hin). simpl in Hasc.
    lia.
Qed.

(** *** The claims *)

(** C2.  Start from a fresh buffer and let [calls] be any interleaving of
    [addAudioChunk] calls for the indices [0..n] in which the last delivery
    for every index carries [isComplete = true] (its segments arrive, the
    closing one last).  Then the indices handed to [onAudioReady] are
    exactly [0, 1, ..., n], in this order, each once.  At every moment of
    the run the indices released so far are [0, ..., nextExpectedIndex-1],
    so an index is released only after all lower ones; and every chunk the
    release loop hands out is an entry of the queue that is marked
    complete, with its segments joined.  When moreover no segment follows
    the closing segment of its index, the chunk released for an index is the
    concatenation of all the segments delivered for it, in the order of
    arrival. *)
Theorem released_in_ascending_order (n : nat) (calls : list Call) :
  Forall (delivers (Z.of_nat n)) calls ->
  (forall i : Z, 0 <= i <= Z.of_nat n -> lastFlag i calls = Some true) ->
  released (snd (run create calls)) = upto (S n)
  /\ (forall before after : list Call,
        calls = before ++ after ->
        released (snd (run create before))
        = upto (Z.to_nat (nextExpectedIndex (fst (run create before)))))
  /\ (forall (s : t) (i : Z) (a : jsstring),
        (i, a) ∈ emitted (snd (processReadyChunks s)) ->
        exists e, e ∈ audioQueue s /\ chunkIndex e = i
                  /\ isComplete e = true /\ a = join (audioData e))
  /\ (closingIsLast calls ->
      emitted (snd (run create calls))
      = map (fun i => (i, join (segmentsFor i calls))) (upto (S n))).
Proof.
  intros Hcalls Hlast.
  assert (Hall : released (snd (run create calls)) = upto (S n));
    [|split; [exact Hall|split; [|split]]].
  - destruct (run_released _ create calls Hcalls) as (k & Hrel & Hnext).
    simpl in Hrel, Hnext. rewrite Hrel. unfold upto. f_equal.
    pose proof (run_wellFormed create calls create_wellFormed
                  (Forall_impl _ _ _ Hcalls (delivers_natural _)))
      as (_ & Hprefix & Hasc).
    pose proof (run_tracked _ create [] calls create_wellFormed
                  create_tracked Hcalls) as [Hpend Hdone].
    pose proof (run_drained _ create calls I Hcalls) as Hdr.
    simpl in Hpend, Hdone.
    destruct (run create calls) as [s effs]. simpl in *.
    destruct (Nat.lt_total k (S n)) as [Hlt|[Heq|Hgt]]; [|exact Heq|].
    + exfalso.
      assert (Hk : Z.of_nat k ∉ processedChunks s)
        by (rewrite (Hprefix (Z.of_nat k)); lia).
      specialize (Hpend _ Hk). rewrite Hlast in Hpend by lia.
      destruct Hpend as (e & Hf & He). rewrite Hnext in Hasc.
      destruct (ascending_head _ _ _ Hasc Hf) as (q' & Hq).
      apply findChunk_Some in Hf as [_ Hidx].
      unfold drained in Hdr. rewrite Hq, Hnext, Hidx, He in Hdr.
      rewrite Z.eqb_refl in Hdr. discriminate.
    + exfalso.
      assert (Hin : Z.of_nat (S n) ∈ processedChunks s)
        by (rewrite (Hprefix (Z.of_nat (S n))); lia).
      apply (Hdone _ Hin).
      apply (lastFlag_undelivered (Z.of_nat n)); [assumption | lia].
  - intros before after ->. apply Forall_app in Hcalls as [Hbefore _].
    destruct (run_released _ create before Hbefore) as (k & Hrel & Hnext).
    simpl in Hrel, Hnext. rewrite Hrel, Hnext. unfold upto. f_equal. lia.
  - intros s i a Hin.
    destruct (processReadyChunks s) as [s' effs] eqn:Hrun. simpl in Hin.
    destruct (processReadyChunks_spec _ _ _ Hrun)
      as (taken & Hq & _ & _ & Hcompl & Hem & _).
    rewrite Hem in Hin. apply list_elem_of_fmap in Hin as (e & [= -> ->] & He).
    exists e. rewrite Hq, elem_of_app. rewrite Forall_forall in Hcompl.
    auto.
  - intros Hclosing.
    destruct (run_accumulated _ calls create [] create_wellFormed
                create_tracked create_accumulated Hcalls Hclosing)
      as (k & Hem & _).
    simpl in Hem. rewrite Hem. unfold upto in *. f_equal.
    rewrite released_emitted, Hem, map_map in Hall. simpl in Hall.
    rewrite map_id in Hall. exact Hall.
Qed.

Lemma released_in_ascending_order_witness :
  let calls := [AddAudioChunk (lit "bb") 1 true 10;
                AddAudioChunk (lit "a") 0 false 11;
                AddAudioChunk (lit "cc") 2 true 12;
                AddAudioChunk (lit "A") 0 true 13] in
  released (snd (run create calls)) = [0; 1; 2]
  /\ emitted (snd (run create calls))
     = [(0, lit "aA"); (1, lit "bb"); (2, lit "cc")].
Proof.
  intros calls.
  assert (Hcalls : Forall (delivers (Z.of_nat 2)) calls)
    by (repeat constructor; unfold delivers; simpl; lia).
  assert (Hlast : forall i : Z,
             0 <= i <= Z.of_nat 2 -> lastFlag i calls = Some true).
  { intros i Hi.
    assert (i = 0 \/ i = 1 \/ i = 2) as [->|[->| ->]] by lia; reflexivity. }
  destruct (released_in_ascending_order 2 calls Hcalls Hlast)
    as (Hreleased & _ & _ & Hemitted).
  split; [exact Hreleased|].
  apply Hemitted. repeat split.
Defined.

(** C7.  [addAudioChunk] for an index that was already released returns
    at once: the state (queue, [nextExpectedIndex], processed set) is the
    same and no callback is invoked; so any number of such calls, with any
    segments and flags, leaves the buffer as it was. *)
Theorem redelivery_of_released_index_is_noop
    (s : t) (i : Z) (calls : list Call) (segment : jsstring)
    (complete : bool) (now : Z) :
  i ∈ processedChunks s ->
  Forall (fun c => callIndex c = Some i) calls ->
  addAudioChunk s segment i complete now = (s, [])
  /\ run s calls = (s, []).
Proof.
  intros Hi Hcalls. split.
  - unfold addAudioChunk. by rewrite bool_decide_eq_true_2.
  - induction Hcalls as [|c calls Hc _ IH]; simpl; [reflexivity|].
    destruct c as [seg j b t0| |]; try discriminate.
    injection Hc as ->. simpl. unfold addAudioChunk.
    rewrite bool_decide_eq_true_2 by assumption. by rewrite IH.
Qed.

Lemma redelivery_of_released_index_is_noop_witness :
  let s := fst (addAudioChunk create (lit "AAAA") 0 true 1) in
  addAudioChunk s (lit "AAAA") 0 true 2 = (s, [])
  /\ run s [AddAudioChunk (lit "AAAA") 0 true 3;
            AddAudioChunk (lit "BBBB") 0 false 4] = (s, []).
Proof.
  apply redelivery_of_released_index_is_noop.
  - vm_compute. set_solver.
  - repeat constructor.
Defined.

(** C9.  In every state the buffer reaches from its creation, by
    [addAudioChunk] calls for natural sequence indices, runs of
    [processReadyChunks] and [reset()], the processed set is exactly
    [{0, ..., nextExpectedIndex - 1}] and every queued entry has
    [chunkIndex >= nextExpectedIndex]; a further call keeps both, does not
    decrease [nextExpectedIndex] unless it is [reset()], and [reset()] sets
    it to 0. *)
Theorem released_prefix_invariant (calls : list Call) (c : Call) :
  Forall naturalIndex calls -> naturalIndex c ->
  let s := fst (run create calls) in
  releasedPrefix s /\ pendingAhead s
  /\ releasedPrefix (fst (step s c)) /\ pendingAhead (fst (step s c))
  /\ (c <> Reset ->
      nextExpectedIndex s <= nextExpectedIndex (fst (step s c)))
  /\ nextExpectedIndex (fst (step s Reset)) = 0.
Proof.
  intros Hcalls Hc s.
  pose proof (run_wellFormed create calls create_wellFormed Hcalls) as Hwf.
  fold s in Hwf.
  pose proof (step_wellFormed s c Hwf Hc) as Hwf'.
  split; [apply Hwf|]. split; [by apply wellFormed_pendingAhead|].
  split; [apply Hwf'|]. split; [by apply wellFormed_pendingAhead|].
  split; [apply step_nextExpectedIndex | reflexivity].
Qed.

Lemma released_prefix_invariant_witness :
  let s := fst (run create [AddAudioChunk (lit "bb") 1 true 10;
                            AddAudioChunk (lit "a") 0 true 11;
                            AddAudioChunk (lit "dd") 3 false 12]) in
  releasedPrefix s /\ pendingAhead s /\ nextExpectedIndex s = 2
  /\ map chunkIndex (audioQueue s) = [3].
Proof.
  pose proof (released_prefix_invariant
                [AddAudioChunk (lit "bb") 1 true 10;
                 AddAudioChunk (lit "a") 0 true 11;
                 AddAudioChunk (lit "dd") 3 false 12]
                ProcessReadyChunks) as H.
  simpl in H.
  destruct H as (H1 & H2 & _).
  - repeat constructor; unfold naturalIndex; simpl; lia.
  - exact I.
  - split; [exact H1|]. split; [exact H2|]. split; reflexivity.
Defined.

(** C10.  For an index that has an entry in the queue and was not released,
    [addAudioChunk] appends the segment to the entry whatever it holds
    already and replaces the entry's flag by the flag of this call, then
    runs the release loop on that queue.  So a segment delivered twice is
    twice in the chunk handed out, and a delivery with [isComplete = false]
    for an entry that was complete makes it incomplete again: it is not
    released when its turn comes. *)
Theorem pending_index_appends_and_overwrites_flag
    (s : t) (segment : jsstring) (i : Z) (complete : bool) (now : Z)
    (e : BufferedAudioChunk) :
  i ∉ processedChunks s ->
  findChunk (audioQueue s) i = Some e ->
  findChunk (audioQueue (storeSegment s segment i complete now)) i
  = Some {| audioData := audioData e ++ [segment];
            chunkIndex := chunkIndex e;
            timestamp := timestamp e;
            isComplete := complete |}
  /\ (forall j, j <> i ->
        findChunk (audioQueue (storeSegment s segment i complete now)) j
        = findChunk (audioQueue s) j)
  /\ addAudioChunk s segment i complete now
     = (let '(s', effs) :=
          processReadyChunks (storeSegment s segment i complete now) in
        (s', effs ++ [BufferStatus (length (audioQueue s'))
                                   (nextExpectedIndex s')]))
  /\ emitted (snd (run create [AddAudioChunk (lit "QUJD") 0 false 1;
                               AddAudioChunk (lit "QUJD") 0 true 2]))
     = [(0, lit "QUJDQUJD")]
  /\ emitted (snd (run create [AddAudioChunk (lit "bb") 1 true 1;
                               AddAudioChunk (lit "a") 0 true 2]))
     = [(0, lit "a"); (1, lit "bb")]
  /\ emitted (snd (run create [AddAudioChunk (lit "bb") 1 true 1;
                               AddAudioChunk (lit "b") 1 false 2;
                               AddAudioChunk (lit "a") 0 true 3]))
     = [(0, lit "a")].
Proof.
  intros Hi Hf. split; [|split; [|split; [|split; [|split]]]].
  - unfold storeSegment. rewrite Hf. simpl. by apply pushSegment_findChunk.
  - intros j Hj. by apply storeSegment_other.
  - unfold addAudioChunk. by rewrite bool_decide_eq_false_2.
  - vm_compute. reflexivity.
  - vm_compute. reflexivity.
  - vm_compute. reflexivity.
Qed.

Lemma pending_index_appends_and_overwrites_flag_witness :
  let s := fst (addAudioChunk create (lit "bb") 1 true 1) in
  findChunk (audioQueue (storeSegment s (lit "b") 1 false 2)) 1
  = Some {| audioData := [lit "bb"; lit "b"]; chunkIndex := 1;
            timestamp := 1; isComplete := false |}.
Proof.
  refine (proj1 (pending_index_appends_and_overwrites_flag
                   (fst (addAudioChunk create (lit "bb") 1 true 1))
                   (lit "b") 1 false 2
                   {| audioData := [lit "bb"]; chunkIndex := 1;
                      timestamp := 1; isComplete := true |} _ _)).
  - vm_compute. set_solver.
  - reflexivity.
Defined.

End StreamingAudioBufferProofs.

(** ** WebAudioStreamer *)

Module WebAudioStreamerProofs.
Import JS WebAudioStreamer.

(** *** Arithmetic of the clock *)

Lemma duration_nonneg (b : AudioBuffer) : (0 <= duration b)%Qc.
Proof.
  unfold duration, Qcle.
  change (0 <= Qred (Z.of_N (frames b) # sampleRate b))%Q.
  rewrite Qred_correct. unfold Qle. simpl. lia.
Qed.

Lemma ahead_positive : (0 < BUFFER_AHEAD_TIME)%Qc.
Proof. reflexivity. Qed.

Lemma Qcle_add_nonneg (x d : Qc) : (0 <= d -> x <= x + d)%Qc.
Proof.
  intros Hd. rewrite <- (Qcplus_0_r x) at 1.
  apply Qcplus_le_compat; [apply Qcle_refl | exact Hd].
Qed.

Lemma Qclt_add_pos (x d : Qc) : (0 < d -> x < x + d)%Qc.
Proof.
  intros Hd. rewrite <- (Qcplus_0_r x) at 1.
  rewrite !(Qcplus_comm x). by apply Qcplus_lt_mono_r.
Qed.

(** *** Lists of effects *)

Lemma starts_app effs1 effs2 :
  starts (effs1 ++ effs2) = starts effs1 ++ starts effs2.
Proof.
  induction effs1 as [|e effs1 IH]; simpl; [reflexivity|].
  destruct e; simpl; by rewrite ?IH.
Qed.

Lemma dropsLogged_app effs1 effs2 :
  dropsLogged (effs1 ++ effs2) = (dropsLogged effs1 + dropsLogged effs2)%nat.
Proof.
  induction effs1 as [|e effs1 IH]; simpl; [reflexivity|].
  destruct e as [[]| | | | |]; simpl; by rewrite ?IH.
Qed.

Lemma chainFrom_app t0 l1 l2 :
  chainFrom t0 l1 -> chainFrom (endOf t0 l1) l2 -> chainFrom t0 (l1 ++ l2).
Proof.
  revert t0. induction l1 as [|[s d] l1 IH]; intros t0; simpl; [tauto|].
  intros [-> H1] H2. split; [reflexivity | by apply IH].
Qed.

Lemma endOf_app t0 l1 l2 : endOf t0 (l1 ++ l2) = endOf (endOf t0 l1) l2.
Proof.
  revert t0. induction l1 as [|[s d] l1 IH]; intros t0; simpl;
    [reflexivity | apply IH].
Qed.

Lemma chainFrom_gapless t0 l : chainFrom t0 l -> gapless l.
Proof.
  revert t0. induction l as [|[s d] l IH]; intros t0 Hl i a b a' b' Hi Hi'.
  - discriminate.
  - destruct Hl as [-> Hl]. destruct i as [|i]; simpl in Hi, Hi'.
    + injection Hi as <- <-. destruct l as [|[s1 d1] l]; [discriminate|].
      injection Hi' as <- <-. by destruct Hl.
    + exact (IH _ Hl i a b a' b' Hi Hi').
Qed.

(** *** The scheduling loop *)

Lemma scheduleQueue_spec q :
  forall s s' effs,
    scheduleQueue q s = (s', effs) ->
    bufferQueue s' = []
    /\ isPlaying s' = isPlaying s
    /\ chainFrom (nextStartTime s) (starts effs)
    /\ nextStartTime s' = endOf (nextStartTime s) (starts effs)
    /\ (nextStartTime s <= nextStartTime s')%Qc
    /\ map buffer (scheduledSources s')
       = map buffer (scheduledSources s) ++ q
    /\ dropsLogged effs = 0%nat.
Proof.
  induction q as [|a q IH]; intros s s' effs; simpl.
  - intros [= <- <-]. simpl. rewrite app_nil_r.
    split; [reflexivity|]. split; [reflexivity|]. split; [exact I|].
    split; [reflexivity|]. split; [apply Qcle_refl|]. split; reflexivity.
  - match goal with
    | |- context [scheduleQueue q ?s1] =>
        destruct (scheduleQueue q s1) as [s2 effs2] eqn:Hs
    end.
    intros [= <- <-].
    destruct (IH _ _ _ Hs) as (Hq & Hp & Hchain & Hend & Hle & Hsrc & Hdrop).
    simpl in *.
    split; [assumption|]. split; [assumption|].
    split; [split; [reflexivity | assumption]|].
    split; [assumption|].
    split.
    { eapply Qcle_trans; [|exact Hle].
      apply Qcle_add_nonneg, duration_nonneg. }
    split; [|assumption].
    rewrite Hsrc, map_app, <- app_assoc. reflexivity.
Qed.

Lemma scheduleChunks_spec s env s' effs :
  scheduleChunks s env = (s', effs) ->
  bufferQueue s' = []
  /\ isPlaying s' = isPlaying s
  /\ chainFrom (nextStartTime s) (starts effs)
  /\ nextStartTime s' = endOf (nextStartTime s) (starts effs)
  /\ (nextStartTime s <= nextStartTime s')%Qc
  /\ map buffer (scheduledSources s')
     = map buffer (scheduledSources s) ++ bufferQueue s
  /\ dropsLogged effs = 0%nat.
Proof.
  unfold scheduleChunks.
  destruct (scheduleQueue (bufferQueue s) s) as [s1 effs1] eqn:Hs.
  intros [= <- <-].
  destruct (scheduleQueue_spec _ _ _ _ Hs)
    as (Hq & Hp & Hchain & Hend & Hle & Hsrc & Hdrop).
  rewrite starts_app, dropsLogged_app, Hdrop.
  set (summary := match scheduledSources s1 with
                  | [] => []
                  | _ :: _ => _
                  end).
  assert (Hsum : starts summary = [] /\ dropsLogged summary = 0%nat)
    by (unfold summary; destruct (scheduledSources s1); split; reflexivity).
  destruct Hsum as [-> ->]. rewrite app_nil_r. tauto.
Qed.

Lemma continuePlayback_spec s env s' effs :
  continuePlayback s env = (s', effs) ->
  bufferQueue s' = []
  /\ isPlaying s' = true
  /\ extendsTimeline s env s' effs
  /\ (nextStartTime s <= nextStartTime s')%Qc
  /\ map buffer (scheduledSources s')
     = map buffer (scheduledSources s) ++ bufferQueue s
  /\ dropsLogged effs = 0%nat.
Proof.
  unfold continuePlayback.
  match goal with
  | |- context [scheduleChunks ?s1 env] =>
      destruct (scheduleChunks s1 env) as [s2 effs2] eqn:Hs
  end.
  intros [= <- <-].
  destruct (scheduleChunks_spec _ _ _ _ Hs)
    as (Hq & Hp & Hchain & Hend & Hle & Hsrc & Hdrop).
  simpl in *.
  split; [assumption|]. split; [assumption|]. split.
  { eexists. split; [exact Hchain|]. split; [exact Hend|].
    intros Hlt. rewrite bool_decide_eq_false_2; [reflexivity|].
    by apply Qclt_not_le. }
  split; [|split; assumption].
  eapply Qcle_trans; [|exact Hle].
  case_bool_decide as Hnow; [|apply Qcle_refl].
  eapply Qcle_trans; [exact Hnow|].
  apply Qcle_add_nonneg, Qclt_le_weak, ahead_positive.
Qed.

(** *** Taking in a buffer *)

Lemma sameSchedule_refl s : sameSchedule s s.
Proof. repeat split. Qed.

Lemma extendsTimeline_idle s env s' effs :
  nextStartTime s' = nextStartTime s -> starts effs = [] ->
  extendsTimeline s env s' effs.
Proof.
  intros Hn Hs. exists (nextStartTime s). rewrite Hs. simpl. tauto.
Qed.

Lemma extendsTimeline_prefix s0 s env s' effs0 effs :
  nextStartTime s = nextStartTime s0 -> starts effs0 = [] ->
  extendsTimeline s env s' effs ->
  extendsTimeline s0 env s' (effs0 ++ effs).
Proof.
  intros Hn Hs (t0 & Hc & He & Ht). exists t0.
  rewrite starts_app, Hs, <- Hn. simpl. tauto.
Qed.

Lemma startPlayback_spec s env s' effs :
  startPlayback s env = (s', effs) ->
  extendsTimeline s env s' effs
  /\ (nextStartTime s <= nextStartTime s')%Qc
  /\ map buffer (scheduledSources s') ++ bufferQueue s'
     = map buffer (scheduledSources s) ++ bufferQueue s
  /\ (length (bufferQueue s') <= length (bufferQueue s))%nat
  /\ dropsLogged effs = 0%nat.
Proof.
  unfold startPlayback.
  assert (Hidle : forall effs0,
             starts effs0 = [] -> dropsLogged effs0 = 0%nat ->
             (s, effs0) = (s', effs) ->
             extendsTimeline s env s' effs
             /\ (nextStartTime s <= nextStartTime s')%Qc
             /\ map buffer (scheduledSources s') ++ bufferQueue s'
                = map buffer (scheduledSources s) ++ bufferQueue s
             /\ (length (bufferQueue s') <= length (bufferQueue s))%nat
             /\ dropsLogged effs = 0%nat).
  { intros effs0 Hs Hd [= <- <-].
    split; [by apply extendsTimeline_idle|].
    split; [apply Qcle_refl|]. split; [reflexivity|]. split; [lia|].
    exact Hd. }
  assert (Hgo : continuePlayback s env = (s', effs) ->
             extendsTimeline s env s' effs
             /\ (nextStartTime s <= nextStartTime s')%Qc
             /\ map buffer (scheduledSources s') ++ bufferQueue s'
                = map buffer (scheduledSources s) ++ bufferQueue s
             /\ (length (bufferQueue s') <= length (bufferQueue s))%nat
             /\ dropsLogged effs = 0%nat).
  { intros H. apply continuePlayback_spec in H
      as (Hq & _ & Hext & Hle & Hsrc & Hd).
    rewrite Hq, Hsrc, app_nil_r. simpl.
    split; [assumption|]. split; [assumption|]. split; [reflexivity|].
    split; [lia | assumption]. }
  destruct (bufferQueue s) eqn:Hq0; [by apply Hidle|].
  destruct (contextState env); [by apply Hidle | exact Hgo | exact Hgo].
Qed.

Lemma dropOldestIfFull_spec s :
  nextStartTime (fst (dropOldestIfFull s)) = nextStartTime s
  /\ isPlaying (fst (dropOldestIfFull s)) = isPlaying s
  /\ scheduledSources (fst (dropOldestIfFull s)) = scheduledSources s
  /\ totalChunksReceived (fst (dropOldestIfFull s)) = totalChunksReceived s
  /\ totalChunksPlayed (fst (dropOldestIfFull s)) = totalChunksPlayed s
  /\ bufferQueue (fst (dropOldestIfFull s))
     = keptOnOverflow (bufferQueue s)
  /\ snd (dropOldestIfFull s)
     = if (MAX_BUFFER_SIZE <=? length (bufferQueue s))%nat
       then [Log LogBufferFull] else [].
Proof.
  unfold dropOldestIfFull, keptOnOverflow.
  destruct (MAX_BUFFER_SIZE <=? length (bufferQueue s))%nat; simpl; tauto.
Qed.

Lemma keptOnOverflow_length q :
  (length q <= MAX_BUFFER_SIZE ->
   length (keptOnOverflow q) + 1 <= MAX_BUFFER_SIZE)%nat.
Proof.
  unfold keptOnOverflow, MAX_BUFFER_SIZE.
  destruct (Nat.leb_spec 10 (length q)); [|lia].
  destruct q; simpl in *; lia.
Qed.

Lemma acceptBuffer_spec s b env s' effs :
  acceptBuffer s b env = (s', effs) ->
  extendsTimeline s env s' effs
  /\ (nextStartTime s <= nextStartTime s')%Qc
  /\ map buffer (scheduledSources s') ++ bufferQueue s'
     = map buffer (scheduledSources s)
         ++ keptOnOverflow (bufferQueue s) ++ [b]
  /\ (length (bufferQueue s')
      <= length (keptOnOverflow (bufferQueue s)) + 1)%nat
  /\ dropsLogged effs
     = (if (MAX_BUFFER_SIZE <=? length (bufferQueue s))%nat then 1 else 0)%nat.
Proof.
  unfold acceptBuffer.
  destruct (dropOldestIfFull_spec s)
    as (Hn1 & Hp1 & Hs1 & Hr1 & _ & Hq1 & He1).
  destruct (dropOldestIfFull s) as [s1 effs1]. cbn [fst snd] in *.
  set (s2 := {| bufferQueue := bufferQueue s1 ++ [b];
                isPlaying := isPlaying s1;
                nextStartTime := nextStartTime s1;
                scheduledSources := scheduledSources s1;
                totalChunksReceived := S (totalChunksReceived s1);
                totalChunksPlayed := totalChunksPlayed s1;
                audioDataChunks := audioDataChunks s1;
                nodesCreated := nodesCreated s1 |}).
  assert (Hstart1 : starts effs1 = [])
    by (rewrite He1; destruct (MAX_BUFFER_SIZE <=? _)%nat; reflexivity).
  assert (Hdrop1 : dropsLogged effs1
                   = if (MAX_BUFFER_SIZE <=? length (bufferQueue s))%nat
                     then 1%nat else 0%nat)
    by (rewrite He1; destruct (MAX_BUFFER_SIZE <=? _)%nat; reflexivity).
  assert (Hcommon : forall s3 effs3,
             extendsTimeline s2 env s3 effs3 ->
             (nextStartTime s2 <= nextStartTime s3)%Qc ->
             map buffer (scheduledSources s3) ++ bufferQueue s3
             = map buffer (scheduledSources s2) ++ bufferQueue s2 ->
             (length (bufferQueue s3) <= length (bufferQueue s2))%nat ->
             dropsLogged effs3 = 0%nat ->
             (s3, effs1 ++ [Log (LogQueueSize (length (bufferQueue s2))
                                    (totalChunksReceived s2))] ++ effs3)
             = (s', effs) ->
             extendsTimeline s env s' effs
             /\ (nextStartTime s <= nextStartTime s')%Qc
             /\ map buffer (scheduledSources s') ++ bufferQueue s'
                = map buffer (scheduledSources s)
                    ++ keptOnOverflow (bufferQueue s) ++ [b]
             /\ (length (bufferQueue s')
                 <= length (keptOnOverflow (bufferQueue s)) + 1)%nat
                        /\ dropsLogged effs
                = (if (MAX_BUFFER_SIZE <=? length (bufferQueue s))%nat
                   then 1 else 0)%nat).
  { intros s3 effs3 Hext Hle Hbuf Hlen Hd [= <- <-].
    simpl in Hle, Hbuf, Hlen.
    rewrite length_app in Hlen. simpl in Hlen.
    split.
    { apply (extendsTimeline_prefix s s2); [exact Hn1 | exact Hstart1 |].
      exact (extendsTimeline_prefix s2 s2 env s3 [Log _] effs3
               eq_refl eq_refl Hext). }
    split; [by rewrite <- Hn1|].
    split; [by rewrite Hbuf, Hs1, Hq1|].
    split; [by rewrite <- Hq1|].
    rewrite dropsLogged_app, Hdrop1. cbn [dropsLogged app].
    rewrite Hd. apply Nat.add_0_r. }
  destruct (isPlaying s1) eqn:Hplay; simpl.
  - destruct (scheduleChunks s2 env) as [s3 effs3] eqn:H3.
    apply scheduleChunks_spec in H3
      as (Hq3 & _ & Hchain & Hend & Hle & Hsrc & Hd).
    apply Hcommon; try assumption.
    + exists (nextStartTime s2). tauto.
    + by rewrite Hq3, Hsrc, app_nil_r.
    + rewrite Hq3. simpl. lia.
  - destruct (startPlayback s2 env) as [s3 effs3] eqn:H3.
    apply startPlayback_spec in H3 as (Hext & Hle & Hbuf & Hlen & Hd).
    apply (Hcommon s3 (Log LogStarting :: effs3)); assumption.
Qed.

(** *** enqueue *)

(** A run of [enqueue], or of its continuation after the [await], either
    leaves the schedule as it is and starts nothing, or takes in one decoded
    buffer into a state with the same schedule. *)
Lemma enqueueResumed_cases s decoded env :
  let r := enqueueResumed s decoded env in
  (sameSchedule s (stateOf r) /\ starts (effectsOf r) = []
   /\ dropsLogged (effectsOf r) = 0%nat)
  \/ (exists b effsA effsB,
         acceptBuffer s b env = (stateOf r, effsB)
         /\ effectsOf r = effsA ++ effsB
         /\ starts effsA = [] /\ dropsLogged effsA = 0%nat).
Proof.
  unfold enqueueResumed, decodedTry. destruct decoded as [e|b]; simpl.
  - left. split; [apply sameSchedule_refl | tauto].
  - right. destruct (acceptBuffer s b env) as [s' effs] eqn:Ha. simpl.
    exists b, [Log (LogMP3Decoded b)], effs. tauto.
Qed.

Lemma enqueue_cases atob s base64Data isPCM env :
  let r := enqueue atob s base64Data isPCM env in
  (sameSchedule s (stateOf r) /\ starts (effectsOf r) = []
   /\ dropsLogged (effectsOf r) = 0%nat)
  \/ (exists s1 b effsA effsB,
         sameSchedule s s1
         /\ acceptBuffer s1 b env = (stateOf r, effsB)
         /\ effectsOf r = effsA ++ effsB
         /\ starts effsA = [] /\ dropsLogged effsA = 0%nat).
Proof.
  unfold enqueue, enqueueTry.
  destruct (truthy base64Data); simpl;
    [|left; split; [apply sameSchedule_refl | tauto]].
  destruct (atob base64Data) as [binaryString|]; simpl;
    [|left; split; [apply sameSchedule_refl | tauto]].
  destruct isPCM; simpl;
    [|left; split; [repeat split | tauto]].
  destruct (decodePCM (toBytes binaryString)) as [e|b]; simpl;
    [left; split; [repeat split | tauto]|].
  match goal with
  | |- context [acceptBuffer ?s1 b env] =>
      destruct (acceptBuffer s1 b env) as [s' effs] eqn:Ha; right; exists s1
  end.
  simpl.
  exists b, [Log (LogChunkReceived (length base64Data) true);
             Log (LogPCMConverted b)], effs.
  split; [repeat split|]. tauto.
Qed.

(** *** One call *)

Lemma onended_spec s source env :
  nextStartTime (fst (onended s source env)) = nextStartTime s
  /\ bufferQueue (fst (onended s source env)) = bufferQueue s
  /\ starts (snd (onended s source env)) = []
  /\ dropsLogged (snd (onended s source env)) = 0%nat.
Proof.
  unfold onended. simpl.
  split; [reflexivity|]. split; [reflexivity|].
  match goal with |- context [if ?c then _ else _] => destruct c end;
    split; reflexivity.
Qed.

Lemma step_spec atob s c env :
  keepsTimeline c = true ->
  extendsTimeline s env (fst (step atob s c env)) (snd (step atob s c env))
  /\ (nextStartTime s <= nextStartTime (fst (step atob s c env)))%Qc
  /\ ((length (bufferQueue s) <= MAX_BUFFER_SIZE)%nat ->
      (length (bufferQueue (fst (step atob s c env)))
       <= MAX_BUFFER_SIZE)%nat).
Proof.
  assert (Haccept : forall s1 b s' effsA effsB,
             sameSchedule s s1 -> acceptBuffer s1 b env = (s', effsB) ->
             starts effsA = [] ->
             extendsTimeline s env s' (effsA ++ effsB)
             /\ (nextStartTime s <= nextStartTime s')%Qc
             /\ ((length (bufferQueue s) <= MAX_BUFFER_SIZE)%nat ->
                 (length (bufferQueue s') <= MAX_BUFFER_SIZE)%nat)).
  { intros s1 b s' effsA effsB (Hn & Hq & _) Ha Hst.
    apply acceptBuffer_spec in Ha as (Hext & Hle & _ & Hlen & _).
    split; [by apply (extendsTimeline_prefix s s1)|].
    split; [by rewrite <- Hn|].
    intros Hcap. rewrite <- Hq in Hcap.
    pose proof (keptOnOverflow_length _ Hcap). lia. }
  assert (Hsame : forall s' effs,
             sameSchedule s s' -> starts effs = [] ->
             extendsTimeline s env s' effs
             /\ (nextStartTime s <= nextStartTime s')%Qc
             /\ ((length (bufferQueue s) <= MAX_BUFFER_SIZE)%nat ->
                 (length (bufferQueue s') <= MAX_BUFFER_SIZE)%nat)).
  { intros s' effs (Hn & Hq & _) Hst.
    split; [by apply extendsTimeline_idle|].
    rewrite Hn, Hq. split; [apply Qcle_refl | tauto]. }
  intros Hc. destruct c as [base64Data isPCM|decoded| |source| |];
    try discriminate; unfold step; cbn [fst snd].
  - destruct (enqueue_cases atob s base64Data isPCM env)
      as [(Hs & Hst & _)|(s1 & b & effsA & effsB & Hs & Ha & He & Hst & _)].
    + by apply Hsame.
    + rewrite He. by apply (Haccept s1 b).
  - destruct (enqueueResumed_cases s decoded env)
      as [(Hs & Hst & _)|(b & effsA & effsB & Ha & He & Hst & _)].
    + by apply Hsame.
    + rewrite He. apply (Haccept s b); [apply sameSchedule_refl | done..].
  - unfold onContextResumed.
    destruct (continuePlayback s env) as [s' effs] eqn:Hp. simpl.
    apply continuePlayback_spec in Hp as (Hq & _ & Hext & Hle & _).
    split; [exact Hext|]. split; [exact Hle|].
    rewrite Hq. simpl. unfold MAX_BUFFER_SIZE. lia.
  - destruct (onended_spec s source env) as (Hn & Hq & Hst & _).
    split; [by apply extendsTimeline_idle|].
    rewrite Hn, Hq. split; [apply Qcle_refl | tauto].
Qed.

Lemma run_cons atob s c env calls :
  run atob s ((c, env) :: calls)
  = (fst (run atob (fst (step atob s c env)) calls),
     snd (step atob s c env)
       ++ snd (run atob (fst (step atob s c env)) calls)).
Proof.
  simpl. destruct (step atob s c env) as [s1 effs1]. simpl.
  destruct (run atob s1 calls). reflexivity.
Qed.

Lemma run_onTime atob s calls :
  onTime atob s calls ->
  chainFrom (nextStartTime s) (starts (snd (run atob s calls)))
  /\ nextStartTime (fst (run atob s calls))
     = endOf (nextStartTime s) (starts (snd (run atob s calls)))
  /\ (nextStartTime s <= nextStartTime (fst (run atob s calls)))%Qc.
Proof.
  revert s. induction calls as [|[c env] calls IH]; intros s.
  - intros _. simpl. split; [exact I|]. split; [reflexivity|].
    apply Qcle_refl.
  - intros (Hc & Hnow & Hrest). rewrite run_cons. cbn [fst snd].
    destruct (step_spec atob s c env Hc) as ((t0 & Hch & Hend & Ht0) & Hle & _).
    rewrite (Ht0 Hnow) in Hch, Hend.
    destruct (IH _ Hrest) as (Hch' & Hend' & Hle').
    rewrite starts_app, endOf_app, <- Hend.
    split; [apply chainFrom_app; [assumption | by rewrite <- Hend]|].
    split; [assumption|]. by eapply Qcle_trans.
Qed.

Lemma starts_stop s env : starts (snd (stop s env)) = [].
Proof.
  unfold stop. simpl. rewrite starts_app. simpl. rewrite app_nil_r.
  induction (scheduledSources s); simpl; [reflexivity | assumption].
Qed.

(** Whatever the call, the buffers it starts lie end to end and the cursor
    is left at the end of the last one. *)
Lemma step_chain atob s c env :
  exists t0 : Qc,
    chainFrom t0 (starts (snd (step atob s c env)))
    /\ nextStartTime (fst (step atob s c env))
       = endOf t0 (starts (snd (step atob s c env))).
Proof.
  destruct (keepsTimeline c) eqn:Hc.
  - destruct (step_spec atob s c env Hc) as ((t0 & Hch & Hend & _) & _).
    eauto.
  - exists (currentTime env + BUFFER_AHEAD_TIME)%Qc.
    destruct c; try discriminate; unfold step.
    + rewrite starts_stop. split; [exact I | reflexivity].
    + unfold resetSession.
      pose proof (starts_stop s env) as Hst.
      destruct (stop s env) as [s' effs] eqn:Hs. simpl in *.
      rewrite starts_app, Hst. simpl.
      split; [exact I|]. by injection Hs as <- _.
Qed.

Lemma half_and_half : (Q2Qc (1 # 2) + Q2Qc (1 # 2) = Q2Qc 1)%Qc.
Proof. apply Qc_is_canon. reflexivity. Qed.

(** *** The claims *)

(** C1.  Take any run of the scheduler in which, after its first call,
    every call is made before the audio clock has reached the cursor
    [nextStartTime] and none of them is [stop()] or [resetSession()].  The
    buffers handed to [source.start] during the run, with start times
    [s1..sn] and durations [d1..dn], satisfy [s(i+1) = s(i) + d(i)] for every
    consecutive pair.  In particular three decoded buffers of 0.5 s enqueued
    on a fresh streamer with the clock standing still start at [t0],
    [t0 + 0.5] and [t0 + 1], where [t0] is the clock plus the lookahead. *)
Theorem consecutive_starts_are_gapless
    (atob : jsstring -> option jsstring) (s : t) (c0 : Call) (env0 : Env)
    (calls : list (Call * Env)) :
  onTime atob (fst (step atob s c0 env0)) calls ->
  gapless (starts (snd (run atob s ((c0, env0) :: calls))))
  /\ (forall (env : Env) (b1 b2 b3 : AudioBuffer),
        contextState env = running ->
        duration b1 = Q2Qc (1 # 2) ->
        duration b2 = Q2Qc (1 # 2) ->
        duration b3 = Q2Qc (1 # 2) ->
        let t0 := (currentTime env + BUFFER_AHEAD_TIME)%Qc in
        starts (snd (run atob (fst (create env))
                       [(DecodeSettled (inr b1), env);
                        (DecodeSettled (inr b2), env);
                        (DecodeSettled (inr b3), env)]))
        = [(t0, Q2Qc (1 # 2));
           ((t0 + Q2Qc (1 # 2))%Qc, Q2Qc (1 # 2));
           ((t0 + Q2Qc 1)%Qc, Q2Qc (1 # 2))]).
Proof.
  intros Hcalls. split.
  - rewrite run_cons. cbn [fst snd].
    destruct (step_chain atob s c0 env0) as (t0 & Hch & Hend).
    destruct (run_onTime atob _ calls Hcalls) as (Hch' & _).
    apply (chainFrom_gapless t0). rewrite starts_app.
    apply chainFrom_app; [assumption | by rewrite <- Hend].
  - intros env b1 b2 b3 Hrun H1 H2 H3 t0.
    assert (Hfresh : bool_decide (t0 <= currentTime env)%Qc = false).
    { apply bool_decide_eq_false_2, Qclt_not_le, Qclt_add_pos,
        ahead_positive. }
    unfold run, step, enqueueResumed, decodedTry, acceptBuffer, dropOldestIfFull,
      startPlayback, continuePlayback, scheduleChunks, create.
    cbn [fst snd bufferQueue isPlaying nextStartTime scheduledSources
         totalChunksReceived totalChunksPlayed audioDataChunks nodesCreated
         length Nat.leb MAX_BUFFER_SIZE app negb stateOf effectsOf
         catchDecodeError scheduleQueue].
    rewrite Hrun. fold t0. rewrite Hfresh.
    cbn [fst snd bufferQueue isPlaying nextStartTime scheduledSources
         totalChunksReceived totalChunksPlayed audioDataChunks nodesCreated
         length Nat.leb MAX_BUFFER_SIZE app negb stateOf effectsOf
         catchDecodeError scheduleQueue starts startTime buffer].
    rewrite H1, H2, H3, <- Qcplus_assoc, half_and_half. reflexivity.
Qed.

Lemma consecutive_starts_are_gapless_witness :
  let env := {| currentTime := 0; contextState := running |} in
  gapless
    (starts
       (snd (run Base64.atob (fst (create env))
               [(Enqueue (lit "AAAAAAAA") true, env);
                (Enqueue (lit "AAAAAAAAAAAAAAAA") true, env);
                (Enqueue (lit "AAAAAAAA") true, env)]))).
Proof.
  refine (proj1 (consecutive_starts_are_gapless Base64.atob _ _ _ _ _)).
  split; [reflexivity|]. split; [vm_compute; reflexivity|].
  split; [reflexivity|]. split; [vm_compute; reflexivity|]. exact I.
Defined.

(** C8, as stated, fails on [stop()]: a PCM chunk of three samples is
    enqueued on a fresh streamer and scheduled, which moves the cursor from
    0.1 s to 0.1 s + 3/48000 s; [stop()], called at the same clock reading,
    sets it back to 0.1 s. *)
Lemma stop_moves_cursor_back :
  let env := {| currentTime := 0; contextState := running |} in
  let s := fst (run Base64.atob (fst (create env))
                  [(Enqueue (lit "AAAAAAAA") true, env)]) in
  ~ (nextStartTime s <= nextStartTime (fst (step Base64.atob s Stop env)))%Qc.
Proof. vm_compute. intros H. apply H. reflexivity. Qed.

(** C8, amended.  Across every sequence of calls other than [stop()] and
    [resetSession()] (enqueues and their continuations, playback start,
    completion of sources) the cursor [nextStartTime] never decreases.
    [stop()] and [resetSession()] start a fresh timeline: they set the
    cursor to the clock plus the lookahead, which is ahead of the clock. *)
Theorem cursor_monotone_until_stop
    (atob : jsstring -> option jsstring) (s : t)
    (calls : list (Call * Env)) (env : Env) :
  Forall (fun ce => keepsTimeline (fst ce) = true) calls ->
  (nextStartTime s <= nextStartTime (fst (run atob s calls)))%Qc
  /\ nextStartTime (fst (stop s env))
     = (currentTime env + BUFFER_AHEAD_TIME)%Qc
  /\ nextStartTime (fst (resetSession s env))
     = (currentTime env + BUFFER_AHEAD_TIME)%Qc
  /\ (currentTime env < nextStartTime (fst (stop s env)))%Qc.
Proof.
  intros Hcalls. split; [|split; [|split]].
  - revert s. induction Hcalls as [|[c env1] calls Hc _ IH]; intros s.
    + apply Qcle_refl.
    + rewrite run_cons. cbn [fst].
      destruct (step_spec atob s c env1 Hc) as (_ & Hle & _).
      eapply Qcle_trans; [exact Hle | apply IH].
  - reflexivity.
  - reflexivity.
  - apply Qclt_add_pos, ahead_positive.
Qed.

Lemma cursor_monotone_until_stop_witness :
  let env := {| currentTime := 0; contextState := running |} in
  let late := {| currentTime := Q2Qc 3; contextState := running |} in
  let s := fst (create env) in
  (nextStartTime s
   <= nextStartTime
        (fst (run Base64.atob s
                [(Enqueue (lit "AAAAAAAA") true, env);
                 (Enqueue (lit "!") true, env);
                 (SourceEnded {| nodeId := 0;
                                 buffer := {| numberOfChannels := 1;
                                              frames := 3;
                                              sampleRate := 48000;
                                              channelData := [0; 0; 0]%Q |};
                                 startTime := Q2Qc (1 # 10) |}, late);
                 (Enqueue (lit "AAAAAAAA") true, late)])))%Qc.
Proof.
  refine (proj1 (cursor_monotone_until_stop Base64.atob _ _
                   {| currentTime := 0; contextState := running |} _)).
  repeat constructor.
Defined.

(** C4.  After [stop()], from any state: [source.stop()] was called on
    every scheduled source, no source is scheduled, the queue is empty and
    [getStatus()] reports [isPlaying = false] and [queueSize = 0].  A second
    [stop()] finds nothing to terminate and leaves the stopped state as it
    is: at the same clock reading the state is identical, and at a later one
    only the cursor follows the clock. *)
Theorem stop_is_total_and_idempotent (s : t) (env env' : Env) :
  let s' := fst (stop s env) in
  (forall source, source ∈ scheduledSources s ->
                  SourceStop source ∈ snd (stop s env))
  /\ scheduledSources s' = []
  /\ bufferQueue s' = []
  /\ isPlaying s' = false
  /\ statusIsPlaying (getStatus s' env') = false
  /\ queueSize (getStatus s' env') = 0%nat
  /\ fst (stop s' env) = s'
  /\ fst (stop s' env') = fst (stop s env')
  /\ snd (stop s' env') = [Log LogStopping; PlaybackStateChange false].
Proof.
  simpl. split.
  - intros source Hin. unfold stop. simpl. right.
    apply elem_of_app. left. by apply list_elem_of_fmap_2.
  - repeat split.
Qed.

Lemma stop_is_total_and_idempotent_witness :
  let env := {| currentTime := 0; contextState := running |} in
  let s := fst (run Base64.atob (fst (create env))
                  [(Enqueue (lit "AAAAAAAA") true, env);
                   (Enqueue (lit "AAAAAAAA") true, env)]) in
  length (scheduledSources s) = 2%nat
  /\ Forall (fun source => SourceStop source ∈ snd (stop s env))
            (scheduledSources s)
  /\ queueSize (getStatus (fst (stop s env)) env) = 0%nat.
Proof.
  intros env s.
  destruct (stop_is_total_and_idempotent s env env)
    as (Hall & _ & _ & _ & _ & Hsize & _).
  split; [reflexivity|]. split; [|exact Hsize].
  apply Forall_forall. exact Hall.
Defined.

Lemma step_capacity atob s c env :
  (length (bufferQueue s) <= MAX_BUFFER_SIZE)%nat ->
  (length (bufferQueue (fst (step atob s c env))) <= MAX_BUFFER_SIZE)%nat.
Proof.
  destruct (keepsTimeline c) eqn:Hc.
  - by destruct (step_spec atob s c env Hc) as (_ & _ & H).
  - intros _. destruct c; try discriminate; unfold MAX_BUFFER_SIZE; simpl; lia.
Qed.

(** C5, as stated, fails on the counter: with the audio context suspended
    ten PCM chunks of three samples wait in the queue; the eleventh
    [enqueue] drops the oldest and logs it, and [getStatus()] reports
    [bufferOverflows = 0] before and after. *)
Lemma overflow_is_not_counted :
  let env := {| currentTime := 0; contextState := suspended |} in
  let s := fst (run Base64.atob (fst (create env))
                  (repeat (Enqueue (lit "AAAAAAAA") true, env) 10)) in
  let r := step Base64.atob s (Enqueue (lit "AAAAAAAA") true) env in
  length (bufferQueue s) = MAX_BUFFER_SIZE
  /\ dropsLogged (snd r) = 1%nat
  /\ bufferOverflows (analytics (getStatus (fst r) env))
     <> S (bufferOverflows (analytics (getStatus s env))).
Proof.
  split; [vm_compute; reflexivity|].
  split; [vm_compute; reflexivity | discriminate].
Qed.

(** C5, amended.  When a buffer is decoded while the queue holds
    [MAX_BUFFER_SIZE] (10) buffers, the oldest queued buffer is shifted off
    and never scheduled, the new one is appended, the queue is not longer
    than the capacity afterwards (nor after any other call), and one
    "buffer full" line is logged.  No counter records the drop: the
    [bufferOverflows] field of [getStatus()] is the constant 0.  This is
    what [enqueue] does on both of its paths: after the awaited
    [decodeAudioData], and at once for a PCM payload that decodes. *)
Theorem overflow_drops_oldest
    (atob : jsstring -> option jsstring) (s s0 : t) (b : AudioBuffer)
    (env env' : Env) (c : Call) :
  length (bufferQueue s) = MAX_BUFFER_SIZE ->
  let s' := fst (acceptBuffer s b env) in
  bufferQueue (fst (dropOldestIfFull s)) = tail (bufferQueue s)
  /\ map buffer (scheduledSources s') ++ bufferQueue s'
     = map buffer (scheduledSources s) ++ tail (bufferQueue s) ++ [b]
  /\ (isPlaying s = false -> contextState env = suspended ->
      bufferQueue s' = tail (bufferQueue s) ++ [b])
  /\ (length (bufferQueue s') <= MAX_BUFFER_SIZE)%nat
  /\ ((length (bufferQueue s0) <= MAX_BUFFER_SIZE)%nat ->
      (length (bufferQueue (fst (step atob s0 c env))) <= MAX_BUFFER_SIZE)%nat)
  /\ dropsLogged (snd (acceptBuffer s b env)) = 1%nat
  /\ bufferOverflows (analytics (getStatus s env')) = 0%nat
  /\ bufferOverflows (analytics (getStatus s' env')) = 0%nat
  /\ stateOf (enqueueResumed s (inr b) env) = s'
  /\ (forall base64Data binaryString : jsstring,
        base64Data <> [] ->
        atob base64Data = Some binaryString ->
        decodePCM (toBytes binaryString) = inr b ->
        exists s1,
          sameSchedule s s1
          /\ stateOf (enqueue atob s base64Data true env)
             = fst (acceptBuffer s1 b env)
          /\ dropsLogged (effectsOf (enqueue atob s base64Data true env))
             = 1%nat).
Proof.
  intros Hfull s'.
  assert (Hpcm : forall base64Data binaryString : jsstring,
             base64Data <> [] ->
             atob base64Data = Some binaryString ->
             decodePCM (toBytes binaryString) = inr b ->
             exists s1,
               sameSchedule s s1
               /\ stateOf (enqueue atob s base64Data true env)
                  = fst (acceptBuffer s1 b env)
               /\ dropsLogged (effectsOf (enqueue atob s base64Data true env))
                  = 1%nat).
  { intros base64Data binaryString Hne Hatob Hdec.
    unfold enqueue, enqueueTry.
    destruct base64Data as [|c0 rest]; [congruence|]. cbn [truthy negb].
    rewrite Hatob, Hdec.
    match goal with
    | |- context [acceptBuffer ?s1 b env] =>
        exists s1; destruct (acceptBuffer s1 b env) as [s2 effs2] eqn:Ha2
    end.
    apply acceptBuffer_spec in Ha2 as (_ & _ & _ & _ & Hdrop2).
    cbn [bufferQueue] in Hdrop2. rewrite Hfull in Hdrop2.
    split; [repeat split|]. split; [reflexivity|].
    cbn [catchDecodeError effectsOf]. rewrite dropsLogged_app. exact Hdrop2. }
  assert (Hkept : keptOnOverflow (bufferQueue s) = tail (bufferQueue s))
    by (unfold keptOnOverflow; rewrite Hfull; reflexivity).
  destruct (acceptBuffer s b env) as [s1 effs] eqn:Ha.
  pose proof (acceptBuffer_spec _ _ _ _ _ Ha) as (_ & _ & Hbuf & Hlen & Hdrop).
  rewrite Hkept in Hbuf, Hlen. rewrite Hfull in Hdrop.
  subst s'. cbn [fst snd].
  split.
  { destruct (dropOldestIfFull_spec s) as (_ & _ & _ & _ & _ & Hq & _).
    by rewrite Hq. }
  split; [exact Hbuf|]. split.
  { intros Hidle Hsusp. revert Ha.
    unfold acceptBuffer, dropOldestIfFull. rewrite Hfull.
    cbn [Nat.leb MAX_BUFFER_SIZE bufferQueue isPlaying].
    rewrite Hidle. cbn [negb]. unfold startPlayback.
    cbn [bufferQueue]. rewrite Hsusp.
    destruct (tail (bufferQueue s)); cbn [app]; by intros [= <- _]. }
  split.
  { destruct (bufferQueue s); [discriminate|].
    simpl in Hfull, Hlen. lia. }
  split; [apply step_capacity|].
  split; [exact Hdrop|]. split; [reflexivity|]. split; [reflexivity|].
  split; [|exact Hpcm].
  unfold enqueueResumed, decodedTry. by rewrite Ha.
Qed.

Lemma overflow_drops_oldest_witness :
  let env := {| currentTime := 0; contextState := suspended |} in
  let s := fst (run Base64.atob (fst (create env))
                  (repeat (Enqueue (lit "AAAAAAAA") true, env) 9
                   ++ [(Enqueue (lit "AAAAAAAAAAAAAAAA") true, env)])) in
  let b := {| numberOfChannels := 1; frames := 1; sampleRate := 48000;
              channelData := [0%Q] |} in
  map frames (bufferQueue s) = [3; 3; 3; 3; 3; 3; 3; 3; 3; 6]%N
  /\ map frames (bufferQueue (fst (acceptBuffer s b env)))
     = [3; 3; 3; 3; 3; 3; 3; 3; 6; 1]%N
  /\ dropsLogged (snd (acceptBuffer s b env)) = 1%nat.
Proof.
  intros env s b.
  assert (Hfull : length (bufferQueue s) = MAX_BUFFER_SIZE)
    by (vm_compute; reflexivity).
  destruct (overflow_drops_oldest Base64.atob s s b env env Stop Hfull)
    as (_ & _ & Hq & _ & _ & Hdrop & _).
  split; [vm_compute; reflexivity|]. split; [|exact Hdrop].
  rewrite Hq; vm_compute; reflexivity.
Defined.

(** *** Decode failures *)

Lemma convertPCM_odd n :
  forall rest i data,
    length rest = S (2 * n) -> convertPCM rest i data = inl RangeError.
Proof.
  induction n as [|n IH]; intros rest i data Hlen.
  - destruct rest as [|x [|y rest]]; try discriminate. reflexivity.
  - destruct rest as [|lo [|hi rest]]; try discriminate.
    simpl. apply IH. simpl in Hlen. lia.
Qed.

Lemma decodePCM_odd bytes :
  Nat.odd (length bytes) = true -> exists e, decodePCM bytes = inl e.
Proof.
  intros Hodd. apply Nat.odd_spec in Hodd as [n Hn].
  unfold decodePCM.
  destruct (createBuffer 1 (Z.of_nat (length bytes) # 2) 48000)
    as [e|audioBuffer]; [eauto|].
  rewrite (convertPCM_odd n) by lia. eauto.
Qed.

(** C6.  [enqueue] never raises, and neither does its continuation after
    the [await]: every error raised in the [try] block is caught, logged and
    reported on the console.  When decoding fails -- [atob] refuses the
    payload, the PCM payload has an odd number of bytes, or
    [decodeAudioData] rejects -- the chunk is skipped: the call leaves the
    cursor [nextStartTime], the queued buffers, the scheduled sources, the
    playing flag and the counters as they were, and starts nothing. *)
Theorem enqueue_absorbs_decode_failures
    (atob : jsstring -> option jsstring) (s : t) (base64Data : jsstring)
    (isPCM : bool) (env : Env) (decoded : Error + AudioBuffer) :
  (forall e s' effs,
      enqueue atob s base64Data isPCM env <> Thrown e s' effs)
  /\ (forall e s' effs, enqueueResumed s decoded env <> Thrown e s' effs)
  /\ (forall e s1 effs,
        base64Data <> [] ->
        enqueueTry atob s base64Data isPCM env = Thrown e s1 effs ->
        enqueue atob s base64Data isPCM env
        = Returned s1 (effs ++ [Log (LogDecodeError e); ConsoleError e])
        /\ sameSchedule s s1
        /\ starts (effs ++ [Log (LogDecodeError e); ConsoleError e]) = [])
  /\ (atob base64Data = None ->
      enqueueTry atob s base64Data isPCM env
      = Thrown InvalidCharacterError s
          [Log (LogChunkReceived (length base64Data) isPCM)])
  /\ (forall binaryString,
        atob base64Data = Some binaryString ->
        Nat.odd (length binaryString) = true ->
        exists e s1 effs,
          enqueueTry atob s base64Data true env = Thrown e s1 effs)
  /\ (forall e,
        enqueueResumed s (inl e) env
        = Returned s [Log (LogDecodeError e); ConsoleError e]).
Proof.
  split; [|split; [|split; [|split; [|split]]]].
  - intros e s' effs. unfold enqueue.
    destruct (truthy base64Data); simpl; [|discriminate].
    destruct (enqueueTry atob s base64Data isPCM env); discriminate.
  - intros e s' effs. unfold enqueueResumed.
    destruct (decodedTry s decoded env); discriminate.
  - intros e s1 effs Hne Htry. unfold enqueue.
    destruct base64Data as [|c rest]; [congruence|]. cbn [truthy negb].
    rewrite Htry. cbn [catchDecodeError].
    split; [reflexivity|]. revert Htry. unfold enqueueTry.
    destruct (atob (c :: rest)) as [binaryString|].
    + destruct isPCM; [|discriminate].
      destruct (decodePCM (toBytes binaryString)) as [e'|b].
      * intros [= <- <- <-]. split; [repeat split | reflexivity].
      * destruct (acceptBuffer _ b env). discriminate.
    + intros [= <- <- <-]. split; [repeat split | reflexivity].
  - intros Hatob. unfold enqueueTry. by rewrite Hatob.
  - intros binaryString Hatob Hodd. unfold enqueueTry. rewrite Hatob.
    destruct (decodePCM_odd (toBytes binaryString)) as [e He].
    { unfold toBytes. by rewrite length_map. }
    rewrite He. eauto.
  - reflexivity.
Qed.

Lemma enqueue_absorbs_decode_failures_witness :
  let env := {| currentTime := 0; contextState := running |} in
  let s := fst (run Base64.atob (fst (create env))
                  [(Enqueue (lit "AAAAAAAA") true, env)]) in
  (exists s1 effs,
      enqueue Base64.atob s (lit "AAAA") true env = Returned s1 effs
      /\ sameSchedule s s1)
  /\ (exists s1 effs,
        enqueue Base64.atob s (lit "not base64!") true env
        = Returned s1 effs
        /\ sameSchedule s s1).
Proof.
  intros env s. split.
  - destruct (enqueue_absorbs_decode_failures Base64.atob s (lit "AAAA")
                true env (inl EncodingError))
      as (_ & _ & Hfail & _ & Hodd & _).
    destruct (Hodd [0; 0; 0]%N eq_refl eq_refl) as (e & s1 & effs & Htry).
    destruct (Hfail e s1 effs) as (Hr & Hsame & _);
      [discriminate | exact Htry | eauto].
  - destruct (enqueue_absorbs_decode_failures Base64.atob s
                (lit "not base64!") true env (inl EncodingError))
      as (_ & _ & Hfail & Hatob & _).
    destruct (Hfail _ _ _ ltac:(discriminate) (Hatob eq_refl))
      as (Hr & Hsame & _).
    eauto.
Defined.

End WebAudioStreamerProofs.

(** * Further properties of the code *)

(** ** String trimming *)

Module TrimFacts.
Import JS.

Lemma trimStart_clean s : startsClean (trimStart s).
Proof.
  induction s as [|c s IH]; simpl; [exact I|].
  destruct (is_white_space c) eqn:Hc; [exact IH | exact Hc].
Qed.

Lemma clean_trimStart s : startsClean s -> trimStart s = s.
Proof. destruct s as [|c s]; simpl; [reflexivity | by intros ->]. Qed.

Lemma trimStart_snoc l c :
  trimStart (l ++ [c])
  = match trimStart l with
    | [] => trimStart [c]
    | _ :: _ => trimStart l ++ [c]
    end.
Proof.
  induction l as [|x l IH]; simpl; [reflexivity|].
  destruct (is_white_space x); [exact IH | reflexivity].
Qed.

Lemma trimEnd_cons c s :
  trimEnd (c :: s)
  = match trimEnd s with
    | [] => if is_white_space c then [] else [c]
    | _ :: _ => c :: trimEnd s
    end.
Proof.
  unfold trimEnd. simpl rev at 2. rewrite trimStart_snoc.
  destruct (trimStart (rev s)) as [|x l] eqn:Hr; simpl.
  - by destruct (is_white_space c).
  - rewrite rev_app_distr. simpl.
    destruct (rev l ++ [x]) eqn:Hl; [|reflexivity].
    by destruct (rev l).
Qed.

Lemma trimEnd_clean s : startsClean s -> startsClean (trimEnd s).
Proof.
  destruct s as [|c s]; [intros _; exact I|]. intros Hc. simpl in Hc.
  rewrite trimEnd_cons, Hc. by destruct (trimEnd s).
Qed.

Lemma trimEnd_fixed s : startsClean (rev s) -> trimEnd s = s.
Proof.
  intros H. unfold trimEnd. rewrite (clean_trimStart _ H). apply rev_involutive.
Qed.

Lemma trim_startsClean s : startsClean (trim s).
Proof. apply trimEnd_clean, trimStart_clean. Qed.

Lemma trim_endsClean s : startsClean (rev (trim s)).
Proof.
  unfold trim, trimEnd. rewrite rev_involutive. apply trimStart_clean.
Qed.

Lemma trim_idempotent s : trim (trim s) = trim s.
Proof.
  unfold trim at 1. rewrite (clean_trimStart _ (trim_startsClean s)).
  apply trimEnd_fixed, trim_endsClean.
Qed.

Lemma visible_app a b : visible (a ++ b) = visible a ++ visible b.
Proof. apply List.filter_app. Qed.

Lemma visible_rev s : visible (rev s) = rev (visible s).
Proof.
  induction s as [|c s IH]; simpl; [reflexivity|].
  unfold visible in *. rewrite List.filter_app, IH. simpl.
  destruct (is_white_space c); simpl; [by rewrite app_nil_r | reflexivity].
Qed.

Lemma visible_trimStart s : visible (trimStart s) = visible s.
Proof.
  induction s as [|c s IH]; simpl; [reflexivity|].
  destruct (is_white_space c) eqn:Hc; simpl; rewrite ?Hc; simpl;
    [exact IH | reflexivity].
Qed.

Lemma visible_trim s : visible (trim s) = visible s.
Proof.
  unfold trim, trimEnd.
  rewrite visible_rev, visible_trimStart, visible_rev, rev_involutive.
  apply visible_trimStart.
Qed.

Lemma trimStart_nil s :
  trimStart s = [] <-> Forall (fun c => is_white_space c = true) s.
Proof.
  induction s as [|c s IH]; simpl.
  - split; [constructor | reflexivity].
  - destruct (is_white_space c) eqn:Hc.
    + rewrite IH. split; [by constructor | by inversion 1].
    + split; [discriminate | inversion 1; congruence].
Qed.

Lemma trim_nil s :
  trim s = [] <-> Forall (fun c => is_white_space c = true) s.
Proof.
  split.
  - intros H. apply Forall_forall. intros c Hc.
    destruct (is_white_space c) eqn:Hws; [reflexivity|].
    assert (Hv : c ∈ visible s).
    { unfold visible. apply list_elem_of_In, List.filter_In.
      split; [by apply list_elem_of_In | by rewrite Hws]. }
    rewrite <- visible_trim, H in Hv. by apply not_elem_of_nil in Hv.
  - intros H. unfold trim.
    by rewrite (proj2 (trimStart_nil s) H).
Qed.

End TrimFacts.

(** ** ChunkValidator: white space, and the states it reaches *)

Module ChunkValidatorMore.
Import JS ChunkValidator TrimFacts.

(** X1.  White space around the expected text and around the transcript
    never matters: [validateChunk] after [setExpectedText(w)] gives, for a
    transcript [t], the same result (validity and reason) as after
    [setExpectedText(w.trim())] for [t.trim()], whatever the validator held
    before. *)
Theorem surrounding_white_space_is_ignored (v v' : t) (w text : jsstring) :
  validateChunk (setExpectedText v w) text
  = validateChunk (setExpectedText v' (trim w)) (trim text).
Proof.
  unfold validateChunk, setExpectedText. simpl.
  by rewrite !trim_idempotent.
Qed.

Lemma step_trimmed v c :
  trim (expectedText v) = expectedText v ->
  trim (expectedText (step v c)) = expectedText (step v c).
Proof.
  intros Hv. destruct c as [w| |r]; simpl;
    [apply trim_idempotent | reflexivity | exact Hv].
Qed.

Lemma run_trimmed calls :
  trim (expectedText (run calls)) = expectedText (run calls).
Proof.
  unfold run.
  assert (H : forall v, trim (expectedText v) = expectedText v ->
                        trim (expectedText (fold_left step calls v))
                        = expectedText (fold_left step calls v)).
  { induction calls as [|c calls IH]; intros v Hv; simpl; [exact Hv|].
    apply IH, step_trimmed, Hv. }
  apply H. reflexivity.
Qed.

(** X2.  In every state a validator reaches from its creation (by
    [setExpectedText], [reset] and [applyValidation]) the expected text is
    stored trimmed, so that setting it again from [getExpectedText()] changes
    nothing; [getState().isActive] tells exactly whether the validator
    accepts its own expected text; and an inactive validator accepts no
    transcript at all. *)
Theorem active_validator_accepts_its_expected_text
    (calls : list Call) (text : jsstring) :
  let v := run calls in
  setExpectedText v (getExpectedText v) = v
  /\ applyValidation v (validateChunk v text) = v
  /\ isValid (validateChunk v (getExpectedText v)) = stateIsActive (getState v)
  /\ stateExpectedText (getState v) = getExpectedText v
  /\ (stateIsActive (getState v) = false ->
      isValid (validateChunk v text) = false).
Proof.
  intros v. pose proof (run_trimmed calls) as Htrim. fold v in Htrim.
  split; [|split; [reflexivity|split; [|split; [reflexivity|]]]].
  - unfold setExpectedText, getExpectedText. rewrite Htrim. by destruct v.
  - unfold validateChunk, getExpectedText, getState.
    cbn [stateIsActive]. rewrite Htrim.
    destruct (expectedText v) as [|c w] eqn:Hw; [reflexivity|].
    cbn [truthy negb]. unfold eqb.
    rewrite bool_decide_eq_true_2 by reflexivity.
    rewrite bool_decide_eq_false_2 by discriminate. reflexivity.
  - unfold getState, validateChunk. simpl. intros Hoff.
    apply negb_false_iff, bool_decide_eq_true in Hoff. by rewrite Hoff.
Qed.

Lemma active_validator_accepts_its_expected_text_witness :
  let v := run [SetExpectedText (lit "  first batch. "); Reset;
                SetExpectedText (lit " No problem. ")] in
  getExpectedText v = lit "No problem."
  /\ isValid (validateChunk v (lit "No problem.")) = true
  /\ isValid (validateChunk (run [SetExpectedText (lit "x"); Reset])
                            (lit "x")) = false.
Proof.
  intros v.
  destruct (active_validator_accepts_its_expected_text
              [SetExpectedText (lit "  first batch. "); Reset;
               SetExpectedText (lit " No problem. ")] (lit "x"))
    as (_ & _ & Hown & _).
  destruct (active_validator_accepts_its_expected_text
              [SetExpectedText (lit "x"); Reset] (lit "x"))
    as (_ & _ & _ & _ & Hoff).
  split; [reflexivity|]. split; [exact Hown | apply Hoff; reflexivity].
Defined.

End ChunkValidatorMore.

(** ** StreamingAudioBuffer: order of the queue, stalls, conservation *)

Module StreamingAudioBufferMore.
Import JS StreamingAudioBuffer StreamingAudioBufferProofs.

Lemma splice_Forall (P : BufferedAudioChunk -> Prop) n x q :
  Forall P q -> P x -> Forall P (splice n x q).
Proof.
  intros Hq Hx. unfold splice. apply Forall_app. split.
  - by apply Forall_take.
  - constructor; [assumption | by apply Forall_drop].
Qed.

Lemma splice_sorted q x :
  StronglySorted Z.lt (map chunkIndex q) ->
  chunkIndex x ∉ map chunkIndex q ->
  StronglySorted Z.lt
    (map chunkIndex (splice (insertIndex q (chunkIndex x)) x q)).
Proof.
  induction q as [|c q IH]; intros Hs Hnew.
  - simpl. repeat constructor.
  - rewrite splice_insertIndex_cons. simpl in Hs, Hnew.
    apply StronglySorted_cons in Hs as [Hc Hs].
    apply not_elem_of_cons in Hnew as [Hne Hnew].
    destruct (Z.ltb_spec (chunkIndex c) (chunkIndex x)); simpl.
    + apply StronglySorted_cons. split; [|by apply IH].
      rewrite Forall_map. apply splice_Forall; [|assumption].
      by rewrite Forall_map in Hc.
    + apply StronglySorted_cons. split.
      * constructor; [lia|]. eapply Forall_impl; [exact Hc|].
        simpl. intros; lia.
      * apply StronglySorted_cons. split; assumption.
Qed.

Lemma storeSegment_sorted s seg i b now :
  StronglySorted Z.lt (map chunkIndex (audioQueue s)) ->
  StronglySorted Z.lt
    (map chunkIndex (audioQueue (storeSegment s seg i b now))).
Proof.
  intros Hs. unfold storeSegment.
  destruct (findChunk (audioQueue s) i) eqn:Hf; simpl.
  - by rewrite pushSegment_indices.
  - unfold insertChunkInOrder. simpl. rewrite (findIndex_absent _ _ Hf).
    simpl.
    apply (splice_sorted (audioQueue s)
             {| audioData := [seg]; chunkIndex := i; timestamp := now;
                isComplete := b |}); [assumption|].
    by apply findChunk_None.
Qed.

Lemma processReadyChunks_sorted s :
  StronglySorted Z.lt (map chunkIndex (audioQueue s)) ->
  StronglySorted Z.lt
    (map chunkIndex (audioQueue (fst (processReadyChunks s)))).
Proof.
  intros Hs. destruct (processReadyChunks s) as [s' effs] eqn:Hp.
  destruct (processReadyChunks_spec _ _ _ Hp) as (taken & Hq & _).
  rewrite Hq, map_app in Hs. simpl.
  by apply StronglySorted_app_1_r in Hs.
Qed.

Lemma step_sorted s c :
  StronglySorted Z.lt (map chunkIndex (audioQueue s)) ->
  StronglySorted Z.lt (map chunkIndex (audioQueue (fst (step s c)))).
Proof.
  intros Hs. destruct c as [seg i b now| |]; simpl.
  - unfold addAudioChunk. case_bool_decide as Hp; [exact Hs|].
    pose proof (processReadyChunks_sorted _
                  (storeSegment_sorted s seg i b now Hs)) as Hsorted.
    by destruct (processReadyChunks (storeSegment s seg i b now)).
  - by apply processReadyChunks_sorted.
  - constructor.
Qed.

(** X3.  [insertChunkInOrder] keeps the queue in index order: in every state
    the buffer reaches from its creation, whatever integers are passed as
    indices, the waiting indexes reported by [getBufferStatus()] are strictly
    ascending -- so no index has two entries -- and [queuedChunks] is their
    number. *)
Theorem waiting_indexes_strictly_ascending (calls : list Call) :
  let status := getBufferStatus (fst (run create calls)) in
  StronglySorted Z.lt (waitingIndexes status)
  /\ NoDup (waitingIndexes status)
  /\ queuedChunks status = length (waitingIndexes status).
Proof.
  assert (Hsorted : forall s,
             StronglySorted Z.lt (map chunkIndex (audioQueue s)) ->
             StronglySorted Z.lt
               (map chunkIndex (audioQueue (fst (run s calls))))).
  { induction calls as [|c calls IH]; intros s Hs; simpl; [exact Hs|].
    pose proof (step_sorted s c Hs) as H1.
    destruct (step s c) as [s1 effs1].
    pose proof (IH s1 H1) as H2.
    by destruct (run s1 calls). }
  specialize (Hsorted create (SSorted_nil _)).
  simpl. split; [exact Hsorted|]. split; [|by rewrite length_map].
  revert Hsorted. generalize (map chunkIndex (audioQueue (fst (run create calls)))).
  intros l. induction 1 as [|x l Hl IH Hx]; constructor; [|exact IH].
  intros Hin. rewrite Forall_forall in Hx. specialize (Hx x Hin). lia.
Qed.

(** *** Stalls *)

Lemma releaseReady_drained q next processed :
  match q with
  | [] => True
  | c :: _ => (chunkIndex c =? next) && isComplete c = false
  end ->
  releaseReady q next processed = (q, next, processed, []).
Proof. destruct q as [|c q]; simpl; [reflexivity | by intros ->]. Qed.

Lemma processReadyChunks_drained s :
  drained s -> processReadyChunks s = (s, []).
Proof.
  unfold drained, processReadyChunks. intros Hd.
  rewrite (releaseReady_drained _ _ _ Hd). by destruct s.
Qed.

Lemma storeSegment_head s seg i b now :
  match audioQueue (storeSegment s seg i b now) with
  | [] => False
  | c :: _ =>
      chunkIndex c = i
      \/ match audioQueue s with
         | [] => False
         | c0 :: _ => c = c0 /\ chunkIndex c0 <> i
         end
  end.
Proof.
  unfold storeSegment. destruct (findChunk (audioQueue s) i) eqn:Hf; simpl.
  - destruct (audioQueue s) as [|c0 q]; [discriminate|]. simpl.
    destruct (Z.eqb_spec (chunkIndex c0) i); simpl; [by left | by right].
  - unfold insertChunkInOrder. simpl. rewrite (findIndex_absent _ _ Hf).
    simpl. destruct (audioQueue s) as [|c0 q]; [by left|].
    change i with (chunkIndex {| audioData := [seg]; chunkIndex := i;
                                 timestamp := now; isComplete := b |}) at 1.
    rewrite splice_insertIndex_cons. simpl.
    unfold findChunk in Hf. simpl in Hf.
    destruct (Z.eqb_spec (chunkIndex c0) i); [discriminate|].
    destruct (chunkIndex c0 <? i); simpl; [by right | by left].
Qed.

(** X4.  Sequence stall: from a state in which the head of the queue is not
    releasable, deliveries for any indices other than the next expected one
    release nothing, whatever their completeness flags: [nextExpectedIndex]
    and the processed set stay as they are, and every index delivered is
    waiting in the queue afterwards. *)
Theorem missing_index_stalls_release (s : t) (calls : list Call) :
  drained s ->
  Forall (fun c => exists i, callIndex c = Some i
                             /\ i <> nextExpectedIndex s
                             /\ i ∉ processedChunks s) calls ->
  let s' := fst (run s calls) in
  emitted (snd (run s calls)) = []
  /\ nextExpectedIndex s' = nextExpectedIndex s
  /\ processedChunks s' = processedChunks s
  /\ (forall c i, c ∈ calls -> callIndex c = Some i ->
                  i ∈ waitingIndexes (getBufferStatus s'))
  /\ (forall i, i ∈ waitingIndexes (getBufferStatus s) ->
                i ∈ waitingIndexes (getBufferStatus s')).
Proof.
  revert s. induction calls as [|c calls IH]; intros s Hd Hcalls.
  - simpl. split; [reflexivity|]. split; [reflexivity|].
    split; [reflexivity|]. split; [|tauto].
    intros c i Hc. by apply not_elem_of_nil in Hc.
  - inversion Hcalls as [|? ? (i & Hci & Hne & Hnp) Hrest]; subst.
    destruct c as [seg j b now| |]; try discriminate.
    injection Hci as ->.
    assert (Hfields := storeSegment_fields s seg i b now).
    destruct Hfields as [Hnext Hproc].
    assert (Hd1 : drained (storeSegment s seg i b now)).
    { pose proof (storeSegment_head s seg i b now) as Hh.
      unfold drained. rewrite Hnext.
      destruct (audioQueue (storeSegment s seg i b now)) as [|c1 q1];
        [exact I|].
      destruct Hh as [Hi|Hold].
      - destruct (Z.eqb_spec (chunkIndex c1) (nextExpectedIndex s));
          [congruence | reflexivity].
      - unfold drained in Hd. destruct (audioQueue s) as [|c0 q0];
          [contradiction|]. by destruct Hold as [-> _]. }
    assert (Hstep : step s (AddAudioChunk seg i b now)
                    = (storeSegment s seg i b now,
                       [BufferStatus
                          (length (audioQueue (storeSegment s seg i b now)))
                          (nextExpectedIndex s)])).
    { simpl. unfold addAudioChunk.
      rewrite bool_decide_eq_false_2 by assumption.
      rewrite (processReadyChunks_drained _ Hd1). simpl. by rewrite Hnext. }
    assert (Hin1 : i ∈ map chunkIndex
                         (audioQueue (storeSegment s seg i b now))).
    { destruct (storeSegment_same s seg i b now) as (e & He & _).
      apply findChunk_Some in He as [He <-]. by apply list_elem_of_fmap_2. }
    assert (Hkeep : forall j, j ∈ map chunkIndex (audioQueue s) ->
                j ∈ map chunkIndex (audioQueue (storeSegment s seg i b now))).
    { intros j Hj. destruct (decide (j = i)) as [->|Hji]; [exact Hin1|].
      destruct (findChunk (audioQueue (storeSegment s seg i b now)) j)
        as [e|] eqn:He.
      - apply findChunk_Some in He as [He <-]. by apply list_elem_of_fmap_2.
      - rewrite storeSegment_other in He by assumption.
        by apply findChunk_None in He. }
    rewrite <- Hnext, <- Hproc in Hrest.
    destruct (IH _ Hd1 Hrest) as (Hem & Hn & Hp & Hall & Hold).
    cbn [run]. rewrite Hstep.
    destruct (run (storeSegment s seg i b now) calls) as [s2 effs2].
    cbn [fst snd] in *.
    split; [exact Hem|]. split; [by rewrite Hn|]. split; [by rewrite Hp|].
    split.
    + intros c k Hc Hk. apply elem_of_cons in Hc as [->|Hc].
      * injection Hk as <-. by apply Hold.
      * by apply (Hall c).
    + intros k Hk. by apply Hold, Hkeep.
Qed.

Lemma missing_index_stalls_release_witness :
  let calls := [AddAudioChunk (lit "cc") 2 true 1;
                AddAudioChunk (lit "b") 1 false 2;
                AddAudioChunk (lit "B") 1 true 3] in
  emitted (snd (run create calls)) = []
  /\ nextExpectedIndex (fst (run create calls)) = 0
  /\ waitingIndexes (getBufferStatus (fst (run create calls))) = [1; 2].
Proof.
  intros calls.
  destruct (missing_index_stalls_release create calls I)
    as (Hem & Hn & _).
  - repeat constructor; eexists; (split; [reflexivity|]); simpl;
      (split; [lia | set_solver]).
  - split; [exact Hem|]. split; [exact Hn | reflexivity].
Defined.

(** *** A negative index *)













(** *** Conservation of the audio *)










End StreamingAudioBufferMore.

(** ** WebAudioStreamer: decoding, volume, scheduling, counters *)

Module WebAudioStreamerMore.
Import JS WebAudioStreamer WebAudioStreamerProofs.

(** *** Decoding PCM *)

Lemma int16_range lo hi :
  (lo < 256)%N -> (hi < 256)%N -> -32768 <= int16 lo hi < 32768.
Proof.
  intros Hlo Hhi. unfold int16.
  destruct (Z.ltb_spec (Z.of_N lo + 256 * Z.of_N hi) 32768); lia.
Qed.

Lemma toBytes_range binaryString :
  Forall (fun x => (x < 256)%N) (toBytes binaryString).
Proof.
  unfold toBytes. rewrite Forall_map. apply Forall_forall. intros c _.
  simpl. by apply N.mod_lt.
Qed.

Lemma samplesOf_range bytes :
  Forall (fun x => (x < 256)%N) bytes ->
  Forall (fun x => (-1 <= x)%Q /\ (x < 1)%Q) (samplesOf bytes).
Proof.
  revert bytes. fix IH 1. intros [|lo [|hi bytes]] Hb; simpl;
    [constructor | constructor |].
  inversion Hb as [|? ? Hlo Hb']; subst.
  inversion Hb' as [|? ? Hhi Hb'']; subst.
  constructor; [|by apply IH].
  pose proof (int16_range lo hi Hlo Hhi).
  unfold Qle, Qlt. simpl. lia.
Qed.

Lemma samplesOf_length k :
  forall bytes, length bytes = (2 * k)%nat -> length (samplesOf bytes) = k.
Proof.
  induction k as [|k IH]; intros bytes Hlen.
  - by destruct bytes.
  - destruct bytes as [|lo [|hi bytes]]; simpl in Hlen; try lia.
    simpl. f_equal. apply IH. lia.
Qed.

(** The conversion loop on an even number of bytes fills the slots from
    [i] on with the samples of the bytes, in order. *)
Lemma convertPCM_even k :
  forall rest i data,
    length rest = (2 * k)%nat -> (i + k <= length data)%nat ->
    convertPCM rest i data
    = inr (take i data ++ samplesOf rest ++ drop (i + k) data).
Proof.
  induction k as [|k IH]; intros rest i data Hlen Hdata.
  - destruct rest; [|discriminate]. simpl.
    by rewrite Nat.add_0_r, take_drop.
  - destruct rest as [|lo [|hi rest]]; simpl in Hlen; try lia.
    simpl. rewrite (IH rest (S i)); [|lia|rewrite length_insert; lia].
    f_equal.
    rewrite (take_S_r _ i (int16 lo hi # 32768)%Q);
      [|apply list_lookup_insert_eq; lia].
    rewrite take_insert_ge by lia.
    rewrite drop_insert_lt by lia.
    rewrite <- app_assoc. simpl.
    by replace (i + S k)%nat with (S (i + k)) by lia.
Qed.

(** X7.  The PCM branch of [enqueue] decodes exactly the payloads with a
    positive, even number of bytes.  For those the buffer is mono at 48 kHz
    with one frame per two bytes, its samples are the 16-bit little-endian
    values divided by 32768, in order, each in [-1, 1), and it lasts
    [bytes/2/48000] seconds; for every other payload an error is raised. *)
Theorem decodePCM_exact (binaryString : jsstring) :
  let bytes := toBytes binaryString in
  ((exists b, decodePCM bytes = inr b)
   <-> Nat.even (length bytes) = true /\ bytes <> [])
  /\ (forall b,
        decodePCM bytes = inr b ->
        numberOfChannels b = 1%N
        /\ sampleRate b = 48000%positive
        /\ frames b = N.of_nat (length bytes / 2)
        /\ channelData b = samplesOf bytes
        /\ length (channelData b) = (length bytes / 2)%nat
        /\ Forall (fun x => (-1 <= x)%Q /\ (x < 1)%Q) (channelData b)
        /\ duration b = Q2Qc (Z.of_nat (length bytes / 2) # 48000)).
Proof.
  intros bytes.
  assert (Hodd : Nat.even (length bytes) = false ->
                 exists e, decodePCM bytes = inl e).
  { intros H. apply decodePCM_odd. by rewrite <- Nat.negb_even, H. }
  assert (Hempty : bytes = [] -> decodePCM bytes = inl NotSupportedError)
    by (by intros ->).
  assert (Heven : Nat.even (length bytes) = true -> bytes <> [] ->
            decodePCM bytes
            = inr {| numberOfChannels := 1;
                     frames := N.of_nat (length bytes / 2);
                     sampleRate := 48000;
                     channelData := samplesOf bytes |}).
  { intros He Hne. apply Nat.even_spec in He as [k Hk].
    assert (Hpos : (0 < k)%nat) by (destruct bytes; [congruence | simpl in Hk; lia]).
    assert (Hdiv : (length bytes / 2)%nat = k)
      by (rewrite Hk, Nat.mul_comm; by apply Nat.div_mul).
    unfold decodePCM, createBuffer. rewrite Hdiv.
    change (Qnum (Z.of_nat (length bytes) # 2)) with (Z.of_nat (length bytes)).
    change (Z.pos (Qden (Z.of_nat (length bytes) # 2))) with 2.
    assert (Hlen : Z.to_N (Z.of_nat (length bytes) / 2) = N.of_nat k).
    { rewrite Hk, Nat2Z.inj_mul, Z.mul_comm, Z.div_mul by lia. lia. }
    rewrite Hlen.
    destruct (N.eqb_spec (N.of_nat k) 0) as [H0|_]; [lia|].
    cbn [channelData numberOfChannels frames sampleRate].
    rewrite (convertPCM_even k); [|assumption|rewrite repeat_length; lia].
    simpl take. rewrite Nat.add_0_l.
    rewrite drop_ge by (rewrite repeat_length; lia).
    by rewrite app_nil_r. }
  split.
  - split.
    + intros [b Hb]. destruct (Nat.even (length bytes)) eqn:He.
      * split; [reflexivity|]. intros Hnil. rewrite (Hempty Hnil) in Hb.
        discriminate.
      * destruct (Hodd eq_refl) as [e He']. congruence.
    + intros [He Hne]. eexists. by apply Heven.
  - intros b Hb.
    assert (He : Nat.even (length bytes) = true).
    { destruct (Nat.even (length bytes)) eqn:He; [reflexivity|].
      destruct (Hodd eq_refl) as [e He']. congruence. }
    assert (Hne : bytes <> [])
      by (intros Hnil; rewrite (Hempty Hnil) in Hb; discriminate).
    rewrite (Heven He Hne) in Hb. injection Hb as <-.
    cbn [channelData numberOfChannels frames sampleRate].
    split; [reflexivity|]. split; [reflexivity|]. split; [reflexivity|].
    split; [reflexivity|]. split.
    { apply Nat.even_spec in He as [k Hk].
      rewrite (samplesOf_length k _ Hk), Hk, Nat.mul_comm.
      symmetry. by apply Nat.div_mul. }
    split; [apply samplesOf_range, toBytes_range|].
    unfold duration. cbn [frames sampleRate]. by rewrite nat_N_Z.
Qed.

Lemma decodePCM_exact_witness :
  decodePCM (toBytes [255; 127; 0; 128; 1; 0]%N)
  = inr {| numberOfChannels := 1; frames := 3; sampleRate := 48000;
           channelData := [32767 # 32768; -32768 # 32768; 1 # 32768]%Q |}.
Proof.
  destruct (decodePCM_exact [255; 127; 0; 128; 1; 0]%N) as [[_ Hok] Hb].
  destruct Hok as [b Hdec]; [split; [reflexivity | discriminate]|].
  destruct (Hb b Hdec) as (Hc & Hr & Hf & Hd & _).
  rewrite Hdec. destruct b. simpl in *. by subst.
Defined.

(** *** Volume *)

Lemma round_percent (x : Qc) :
  (0 <= x)%Qc -> (x <= Q2Qc 100)%Qc -> 0 <= round x <= 100.
Proof.
  intros H0 H100. unfold round. split.
  - change 0 with (Qfloor (Q2Qc (1 # 2))). apply Qfloor_resp_le.
    change (Q2Qc (1 # 2) <= x + Q2Qc (1 # 2))%Qc.
    rewrite <- (Qcplus_0_l (Q2Qc (1 # 2))) at 1.
    apply Qcplus_le_compat; [assumption | apply Qcle_refl].
  - change 100 with (Qfloor (Q2Qc 100 + Q2Qc (1 # 2))%Qc).
    apply Qfloor_resp_le.
    change (x + Q2Qc (1 # 2) <= Q2Qc 100 + Q2Qc (1 # 2))%Qc.
    apply Qcplus_le_compat; [assumption | apply Qcle_refl].
Qed.

(** X8.  [setVolume] clamps: the gain it sets is the volume itself when
    that lies in [0, 1], 0 below and 1 above, at the current clock time; the
    percentage it logs lies between 0 and 100; the state of the streamer
    (queue, sources, cursor) is not touched. *)
Theorem setVolume_clamps (s : t) (volume : Qc) (env : Env) :
  let change := snd (setVolume s volume env) in
  fst (setVolume s volume env) = s
  /\ gainTime change = currentTime env
  /\ (0 <= gainValue change)%Qc /\ (gainValue change <= 1)%Qc
  /\ ((0 <= volume)%Qc -> (volume <= 1)%Qc -> gainValue change = volume)
  /\ ((volume < 0)%Qc -> gainValue change = 0%Qc)
  /\ ((1 < volume)%Qc -> gainValue change = 1%Qc)
  /\ 0 <= loggedPercent change <= 100
  /\ snd (setVolume s (gainValue change) env) = change.
Proof.
  assert (H01 : (0 <= 1)%Qc) by discriminate.
  assert (Hclamp : (0 <= Qcmax 0 (Qcmin 1 volume))%Qc
                   /\ (Qcmax 0 (Qcmin 1 volume) <= 1)%Qc).
  { unfold Qcmax, Qcmin.
    destruct (decide (1 <= volume)%Qc) as [Hge|Hlt].
    - rewrite (bool_decide_eq_true_2 _ Hge), (bool_decide_eq_true_2 _ H01).
      split; [exact H01 | apply Qcle_refl].
    - rewrite (bool_decide_eq_false_2 _ Hlt).
      destruct (decide (0 <= volume)%Qc) as [H0|Hneg].
      + rewrite (bool_decide_eq_true_2 _ H0).
        split; [exact H0|]. apply Qclt_le_weak. by apply Qcnot_le_lt.
      + rewrite (bool_decide_eq_false_2 _ Hneg).
        split; [apply Qcle_refl | exact H01]. }
  destruct Hclamp as [Hlo Hhi].
  simpl. split; [reflexivity|]. split; [reflexivity|].
  split; [exact Hlo|]. split; [exact Hhi|].
  split; [|split; [|split; [|split]]].
  - intros H0 H1. unfold Qcmax, Qcmin.
    destruct (decide (1 <= volume)%Qc) as [Hge|Hlt].
    + rewrite (bool_decide_eq_true_2 _ Hge), (bool_decide_eq_true_2 _ H01).
      by apply Qcle_antisym.
    + rewrite (bool_decide_eq_false_2 _ Hlt).
      by rewrite (bool_decide_eq_true_2 _ H0).
  - intros Hneg. unfold Qcmax, Qcmin.
    assert (Hlt : ~ (1 <= volume)%Qc).
    { intros H. apply (Qclt_not_le _ _ Hneg).
      by apply (Qcle_trans _ 1). }
    rewrite (bool_decide_eq_false_2 _ Hlt).
    by rewrite (bool_decide_eq_false_2 _ (Qclt_not_le _ _ Hneg)).
  - intros Hbig. unfold Qcmax, Qcmin.
    rewrite (bool_decide_eq_true_2 _ (Qclt_le_weak _ _ Hbig)).
    by rewrite (bool_decide_eq_true_2 _ H01).
  - apply round_percent.
    + rewrite <- (Qcmult_0_l (Q2Qc 100)).
      apply Qcmult_le_compat_r; [assumption | discriminate].
    + rewrite <- (Qcmult_1_l (Q2Qc 100)) at 2.
      apply Qcmult_le_compat_r; [assumption | discriminate].
  - assert (Hid : Qcmax 0 (Qcmin 1 (Qcmax 0 (Qcmin 1 volume)))
                  = Qcmax 0 (Qcmin 1 volume)).
    { set (g := Qcmax 0 (Qcmin 1 volume)) in *. unfold Qcmax, Qcmin.
      destruct (decide (1 <= g)%Qc) as [Hge|Hlt].
      - rewrite (bool_decide_eq_true_2 _ Hge), (bool_decide_eq_true_2 _ H01).
        by apply Qcle_antisym.
      - rewrite (bool_decide_eq_false_2 _ Hlt).
        by rewrite (bool_decide_eq_true_2 _ Hlo). }
    by rewrite Hid.
Qed.

Lemma setVolume_clamps_witness :
  let env := {| currentTime := 0; contextState := running |} in
  gainValue (snd (setVolume (fst (create env)) (Q2Qc (3 # 4)) env))
  = Q2Qc (3 # 4)
  /\ gainValue (snd (setVolume (fst (create env)) (Q2Qc (-2)) env)) = 0%Qc
  /\ gainValue (snd (setVolume (fst (create env)) (Q2Qc 7) env)) = 1%Qc.
Proof.
  intros env. split; [|split].
  - destruct (setVolume_clamps (fst (create env)) (Q2Qc (3 # 4)) env)
      as (_ & _ & _ & _ & H & _). apply H; discriminate.
  - destruct (setVolume_clamps (fst (create env)) (Q2Qc (-2)) env)
      as (_ & _ & _ & _ & _ & H & _). apply H. reflexivity.
  - destruct (setVolume_clamps (fst (create env)) (Q2Qc 7) env)
      as (_ & _ & _ & _ & _ & _ & H & _). apply H. reflexivity.
Defined.

(** *** Scheduling in the order of arrival *)

Lemma scheduleQueue_all q :
  forall s s' effs,
    scheduleQueue q s = (s', effs) ->
    starts effs = timeline (nextStartTime s) q
    /\ bufferQueue s' = []
    /\ isPlaying s' = isPlaying s
    /\ totalChunksReceived s' = totalChunksReceived s
    /\ totalChunksPlayed s' = (totalChunksPlayed s + length q)%nat
    /\ audioDataChunks s' = audioDataChunks s
    /\ nodesCreated s' = (nodesCreated s + length q)%nat
    /\ exists new : list AudioBufferSourceNode,
        scheduledSources s' = scheduledSources s ++ new
        /\ map buffer new = q
        /\ map nodeId new = seq (nodesCreated s) (length q).
Proof.
  induction q as [|a q IH]; intros s s' effs; simpl.
  - intros [= <- <-]. simpl. rewrite !Nat.add_0_r.
    repeat (split; [reflexivity|]). exists []. by rewrite app_nil_r.
  - match goal with
    | |- context [scheduleQueue q ?s1] =>
        destruct (scheduleQueue q s1) as [s2 effs2] eqn:Hs
    end.
    intros [= <- <-].
    destruct (IH _ _ _ Hs)
      as (Hst & Hq & Hp & Hr & Hpl & Ha & Hn & new & Hsrc & Hbuf & Hids).
    simpl in *.
    split; [by rewrite Hst|]. split; [assumption|]. split; [assumption|].
    split; [assumption|]. split; [lia|]. split; [assumption|].
    split; [lia|].
    exists ({| nodeId := nodesCreated s; buffer := a;
               startTime := nextStartTime s |} :: new).
    rewrite Hsrc, <- app_assoc. simpl. by rewrite Hbuf, Hids.
Qed.

Lemma scheduleChunks_all s env s' effs :
  scheduleChunks s env = (s', effs) ->
  starts effs = timeline (nextStartTime s) (bufferQueue s)
  /\ scheduledAll s s'.
Proof.
  unfold scheduleChunks.
  destruct (scheduleQueue (bufferQueue s) s) as [s1 effs1] eqn:Hs.
  intros [= <- <-]. rewrite starts_app.
  destruct (scheduleQueue_all _ _ _ _ Hs) as (Hst & Hrest).
  split; [|exact Hrest]. rewrite Hst.
  destruct (scheduledSources s1); simpl; by rewrite app_nil_r.
Qed.

Lemma timeline_chain t0 q : chainFrom t0 (timeline t0 q).
Proof.
  revert t0. induction q as [|b q IH]; intros t0; simpl; [exact I|].
  split; [reflexivity | apply IH].
Qed.

Lemma timeline_after (now t0 : Qc) q :
  (now < t0)%Qc -> Forall (fun p => (now < fst p)%Qc) (timeline t0 q).
Proof.
  revert t0. induction q as [|b q IH]; intros t0 Hlt; simpl; constructor.
  - exact Hlt.
  - apply IH. eapply Qclt_le_trans; [exact Hlt|].
    apply Qcle_add_nonneg, duration_nonneg.
Qed.

Lemma timeline_length t0 q : length (timeline t0 q) = length q.
Proof. revert t0. induction q; intros; simpl; [reflexivity | by f_equal]. Qed.

Lemma continuePlayback_all (s : t) (env : Env) :
  let now := currentTime env in
  let t0 := if bool_decide (nextStartTime s <= now)%Qc
            then (now + BUFFER_AHEAD_TIME)%Qc else nextStartTime s in
  let s' := fst (continuePlayback s env) in
  starts (snd (continuePlayback s env)) = timeline t0 (bufferQueue s)
  /\ Forall (fun p => (now < fst p)%Qc) (starts (snd (continuePlayback s env)))
  /\ bufferQueue s' = []
  /\ isPlaying s' = true
  /\ map buffer (scheduledSources s')
     = map buffer (scheduledSources s) ++ bufferQueue s
  /\ nextStartTime s' = endOf t0 (timeline t0 (bufferQueue s))
  /\ totalChunksPlayed s'
     = (totalChunksPlayed s + length (bufferQueue s))%nat
  /\ fst (onContextResumed s env) = s'
  /\ starts (snd (onContextResumed s env))
     = starts (snd (continuePlayback s env)).
Proof.
  intros now t0 s'.
  assert (Hfuture : (now < t0)%Qc).
  { unfold t0. case_bool_decide as Hc.
    - apply Qclt_add_pos, ahead_positive.
    - by apply Qcnot_le_lt. }
  assert (Hres : fst (onContextResumed s env) = s'
                 /\ starts (snd (onContextResumed s env))
                    = starts (snd (continuePlayback s env))).
  { unfold onContextResumed, s'. by destruct (continuePlayback s env). }
  revert Hres. unfold s'. clear s'. unfold continuePlayback.
  match goal with
  | |- context [scheduleChunks ?s1 env] =>
      destruct (scheduleChunks s1 env) as [s2 effs2] eqn:Hs
  end.
  destruct (scheduleChunks_all _ _ _ _ Hs)
    as (Hst & Hq & Hp & _ & Hpl & _ & _ & new & Hsrc & Hbuf & _).
  destruct (scheduleChunks_spec _ _ _ _ Hs) as (_ & _ & _ & Hend & _).
  cbn [fst snd bufferQueue isPlaying nextStartTime scheduledSources
       totalChunksPlayed starts] in *.
  fold now t0 in Hst, Hend. intros [Hr1 Hr2].
  rewrite Hst in *.
  split; [reflexivity|]. split; [by apply timeline_after|].
  split; [assumption|]. split; [assumption|].
  split; [by rewrite Hsrc, map_app, Hbuf|].
  split; [assumption|]. split; [assumption|]. split; assumption.
Qed.

(** X9.  When playback starts or resumes ([continuePlayback], also run by
    the callback of [audioContext.resume()]), every queued buffer gets a
    source, in the order of arrival and end to end.  The first starts at
    the cursor, or at the clock plus the 100 ms lookahead when the clock has
    reached the cursor, so every start time is in the future.  Afterwards
    the queue is empty, [isPlaying] is set, and [totalChunksPlayed] has grown
    by the number of buffers scheduled. *)
Theorem playback_start_schedules_queue_in_order (s : t) (env : Env) :
  let now := currentTime env in
  let t0 := if bool_decide (nextStartTime s <= now)%Qc
            then (now + BUFFER_AHEAD_TIME)%Qc else nextStartTime s in
  let s' := fst (continuePlayback s env) in
  starts (snd (continuePlayback s env)) = timeline t0 (bufferQueue s)
  /\ Forall (fun p => (now < fst p)%Qc) (starts (snd (continuePlayback s env)))
  /\ bufferQueue s' = []
  /\ isPlaying s' = true
  /\ map buffer (scheduledSources s')
     = map buffer (scheduledSources s) ++ bufferQueue s
  /\ nextStartTime s' = endOf t0 (timeline t0 (bufferQueue s))
  /\ totalChunksPlayed s'
     = (totalChunksPlayed s + length (bufferQueue s))%nat
  /\ fst (onContextResumed s env) = s'
  /\ starts (snd (onContextResumed s env))
     = starts (snd (continuePlayback s env)).
Proof. apply continuePlayback_all. Qed.

Lemma acceptBuffer_cases s b env :
  let kept := keptOnOverflow (bufferQueue s) in
  let now := currentTime env in
  let t0 := if bool_decide (nextStartTime s <= now)%Qc
            then (now + BUFFER_AHEAD_TIME)%Qc else nextStartTime s in
  let r := acceptBuffer s b env in
  (isPlaying s = true ->
   starts (snd r) = timeline (nextStartTime s) (kept ++ [b])
   /\ bufferQueue (fst r) = [] /\ isPlaying (fst r) = true)
  /\ (isPlaying s = false -> contextState env <> suspended ->
      starts (snd r) = timeline t0 (kept ++ [b])
      /\ bufferQueue (fst r) = [] /\ isPlaying (fst r) = true)
  /\ (isPlaying s = false -> contextState env = suspended ->
      starts (snd r) = []
      /\ bufferQueue (fst r) = kept ++ [b]
      /\ scheduledSources (fst r) = scheduledSources s
      /\ isPlaying (fst r) = false
      /\ nextStartTime (fst r) = nextStartTime s
      /\ ResumeContext ∈ snd r).
Proof.
  intros kept now t0 r. unfold r, acceptBuffer.
  destruct (dropOldestIfFull_spec s)
    as (Hn1 & Hp1 & Hs1 & _ & _ & Hq1 & He1).
  destruct (dropOldestIfFull s) as [s1 effs1]. cbn [fst snd] in *.
  fold kept in Hq1.
  assert (Hstart1 : starts effs1 = [])
    by (rewrite He1; destruct (MAX_BUFFER_SIZE <=? _)%nat; reflexivity).
  set (s2 := {| bufferQueue := bufferQueue s1 ++ [b];
                isPlaying := isPlaying s1;
                nextStartTime := nextStartTime s1;
                scheduledSources := scheduledSources s1;
                totalChunksReceived := S (totalChunksReceived s1);
                totalChunksPlayed := totalChunksPlayed s1;
                audioDataChunks := audioDataChunks s1;
                nodesCreated := nodesCreated s1 |}).
  split; [|split].
  - intros Hplay. change (isPlaying s2) with (isPlaying s1).
    rewrite Hp1, Hplay. cbn [negb].
    destruct (scheduleChunks s2 env) as [s3 effs3] eqn:H3.
    destruct (scheduleChunks_all _ _ _ _ H3) as (Hst & Hq & Hp & _).
    cbn [fst snd]. rewrite !starts_app, Hstart1, Hst. simpl.
    change (nextStartTime s2) with (nextStartTime s1).
    change (bufferQueue s2) with (bufferQueue s1 ++ [b]).
    rewrite Hn1, Hq1. split; [reflexivity|]. split; [assumption|].
    rewrite Hp. change (isPlaying s2) with (isPlaying s1). congruence.
  - intros Hidle Hctx. change (isPlaying s2) with (isPlaying s1).
    rewrite Hp1, Hidle. cbn [negb].
    unfold startPlayback.
    assert (Hgo : (match contextState env with
                   | suspended => (s2, [ResumeContext])
                   | _ => continuePlayback s2 env
                   end) = continuePlayback s2 env)
      by (by destruct (contextState env)).
    destruct (bufferQueue s2) as [|b0 q0] eqn:Hq2;
      [simpl in Hq2; by destruct (bufferQueue s1)|].
    rewrite Hgo.
    pose proof (continuePlayback_all s2 env)
      as (Hst & _ & Hq & Hp & _).
    destruct (continuePlayback s2 env) as [s3 effs3]. cbn [fst snd] in *.
    rewrite !starts_app, Hstart1. simpl. rewrite Hst, Hq2.
    change (nextStartTime s2) with (nextStartTime s1).
    rewrite Hn1. fold now t0. rewrite <- Hq2.
    change (bufferQueue s2) with (bufferQueue s1 ++ [b]).
    rewrite Hq1. tauto.
  - intros Hidle Hctx. change (isPlaying s2) with (isPlaying s1).
    rewrite Hp1, Hidle. cbn [negb].
    unfold startPlayback.
    destruct (bufferQueue s2) as [|b0 q0] eqn:Hq2;
      [simpl in Hq2; by destruct (bufferQueue s1)|].
    rewrite Hctx. cbn [fst snd]. rewrite !starts_app, Hstart1.
    rewrite <- Hq2.
    change (bufferQueue s2) with (bufferQueue s1 ++ [b]).
    change (scheduledSources s2) with (scheduledSources s1).
    change (isPlaying s2) with (isPlaying s1).
    change (nextStartTime s2) with (nextStartTime s1).
    rewrite Hq1, Hs1, Hn1.
    split; [reflexivity|]. split; [reflexivity|]. split; [reflexivity|].
    split; [congruence|]. split; [reflexivity|].
    apply elem_of_app. right. right. right. left.
Qed.

(** X10.  A decoded buffer is scheduled at once, together with whatever
    still waits in the queue and in the order of arrival: at the cursor when
    the streamer is playing -- also when the clock has already passed the
    cursor, a late chunk is not moved -- and otherwise through the start of
    playback.  Only when the streamer is idle on a suspended audio context
    is nothing started: the buffer waits in the queue, [resume()] is
    requested, and the cursor and the scheduled sources stay as they are. *)
Theorem decoded_buffer_is_scheduled_at_once_unless_suspended
    (s : t) (b : AudioBuffer) (env : Env) :
  let kept := keptOnOverflow (bufferQueue s) in
  let now := currentTime env in
  let t0 := if bool_decide (nextStartTime s <= now)%Qc
            then (now + BUFFER_AHEAD_TIME)%Qc else nextStartTime s in
  let r := enqueueResumed s (inr b) env in
  (isPlaying s = true ->
   starts (effectsOf r) = timeline (nextStartTime s) (kept ++ [b])
   /\ bufferQueue (stateOf r) = [] /\ isPlaying (stateOf r) = true)
  /\ (isPlaying s = false -> contextState env <> suspended ->
      starts (effectsOf r) = timeline t0 (kept ++ [b])
      /\ bufferQueue (stateOf r) = [] /\ isPlaying (stateOf r) = true)
  /\ (isPlaying s = false -> contextState env = suspended ->
      starts (effectsOf r) = []
      /\ bufferQueue (stateOf r) = kept ++ [b]
      /\ scheduledSources (stateOf r) = scheduledSources s
      /\ isPlaying (stateOf r) = false
      /\ nextStartTime (stateOf r) = nextStartTime s
      /\ ResumeContext ∈ effectsOf r).
Proof.
  intros kept now t0 r.
  pose proof (acceptBuffer_cases s b env) as (Hplay & Hrun & Hsusp).
  unfold r, enqueueResumed, decodedTry.
  destruct (acceptBuffer s b env) as [s' effs].
  cbn [catchDecodeError stateOf effectsOf starts fst snd] in *.
  split; [exact Hplay|]. split; [exact Hrun|].
  intros Hidle Hctx. destruct (Hsusp Hidle Hctx) as (? & ? & ? & ? & ? & Hin).
  repeat (split; [assumption|]). by right.
Qed.

Lemma decoded_buffer_is_scheduled_at_once_unless_suspended_witness :
  let env := {| currentTime := 0; contextState := running |} in
  let late := {| currentTime := Q2Qc 5; contextState := running |} in
  let b := {| numberOfChannels := 1; frames := 24000; sampleRate := 48000;
              channelData := [] |} in
  let s := stateOf (enqueueResumed (fst (create env)) (inr b) env) in
  starts (effectsOf (enqueueResumed s (inr b) late))
  = [(Q2Qc (6 # 10), Q2Qc (1 # 2))].
Proof.
  intros env late b s.
  destruct (decoded_buffer_is_scheduled_at_once_unless_suspended s b late)
    as (Hplay & _).
  destruct (Hplay eq_refl) as (Hst & _). rewrite Hst.
  apply (f_equal (fun x => [x])). f_equal; apply Qc_is_canon; reflexivity.
Defined.

(** *** Counters and source nodes *)

Lemma scheduledAll_accounted s s' :
  accounted s -> scheduledAll s s' -> accounted s'.
Proof.
  intros (Hcount & Hsrc & Hnd & Hids)
         (Hq & _ & Hr & Hp & _ & Hn & new & Hnew & Hbuf & Hseq).
  assert (Hlen : length new = length (bufferQueue s))
    by (by rewrite <- Hbuf, length_map).
  unfold accounted. rewrite Hq, Hr, Hp, Hn, Hnew. simpl.
  split; [lia|]. split; [rewrite length_app; lia|]. split.
  - rewrite map_app. apply NoDup_app. split; [assumption|]. split.
    + intros i Hi Hi'. rewrite Hseq in Hi'.
      apply list_elem_of_In, in_seq in Hi'.
      apply list_elem_of_fmap in Hi as (x & -> & Hx).
      rewrite Forall_forall in Hids. specialize (Hids x Hx). lia.
    + rewrite Hseq. apply NoDup_ListNoDup, seq_NoDup.
  - apply Forall_app. split.
    + eapply Forall_impl; [exact Hids|]. simpl. intros; lia.
    + apply Forall_forall. intros x Hx.
      assert (Hin : nodeId x ∈ map nodeId new) by (by apply list_elem_of_fmap_2).
      rewrite Hseq in Hin. apply list_elem_of_In, in_seq in Hin. lia.
Qed.

Lemma continuePlayback_accounted s env :
  accounted s -> accounted (fst (continuePlayback s env)).
Proof.
  intros Hs. unfold continuePlayback.
  match goal with
  | |- context [scheduleChunks ?s1 env] =>
      destruct (scheduleChunks s1 env) as [s2 effs2] eqn:Hrun;
      assert (H1 : accounted s1) by exact Hs
  end.
  destruct (scheduleChunks_all _ _ _ _ Hrun) as [_ Hall].
  exact (scheduledAll_accounted _ _ H1 Hall).
Qed.

Lemma keptOnOverflow_shorter q :
  (length (keptOnOverflow q) <= length q)%nat.
Proof.
  unfold keptOnOverflow. destruct (MAX_BUFFER_SIZE <=? length q)%nat; [|lia].
  destruct q; simpl; lia.
Qed.

Lemma acceptBuffer_accounted s b env :
  accounted s -> accounted (fst (acceptBuffer s b env)).
Proof.
  intros (Hcount & Hsrc & Hnd & Hids). unfold acceptBuffer.
  destruct (dropOldestIfFull_spec s)
    as (_ & _ & Hs1 & Hr1 & Hp1 & Hq1 & _).
  assert (Hnodes : nodesCreated (fst (dropOldestIfFull s)) = nodesCreated s).
  { unfold dropOldestIfFull.
    by destruct (MAX_BUFFER_SIZE <=? length (bufferQueue s))%nat. }
  destruct (dropOldestIfFull s) as [s1 effs1]. cbn [fst snd] in *.
  set (s2 := {| bufferQueue := bufferQueue s1 ++ [b];
                isPlaying := isPlaying s1;
                nextStartTime := nextStartTime s1;
                scheduledSources := scheduledSources s1;
                totalChunksReceived := S (totalChunksReceived s1);
                totalChunksPlayed := totalChunksPlayed s1;
                audioDataChunks := audioDataChunks s1;
                nodesCreated := nodesCreated s1 |}).
  assert (H2 : accounted s2).
  { unfold accounted, s2. simpl. rewrite Hs1, Hr1, Hp1, Hq1, Hnodes.
    rewrite length_app. simpl.
    pose proof (keptOnOverflow_shorter (bufferQueue s)).
    split; [lia|]. tauto. }
  destruct (negb (isPlaying s2)).
  - unfold startPlayback.
    destruct (bufferQueue s2); [exact H2|].
    pose proof (continuePlayback_accounted s2 env H2) as H3.
    destruct (contextState env); [exact H2| |];
      by destruct (continuePlayback s2 env).
  - destruct (scheduleChunks s2 env) as [s3 effs3] eqn:Hrun.
    destruct (scheduleChunks_all _ _ _ _ Hrun) as [_ Hall].
    exact (scheduledAll_accounted _ _ H2 Hall).
Qed.

Lemma onended_sources s source env :
  exists l1 l2,
    scheduledSources s = l1 ++ l2
    /\ (scheduledSources (fst (onended s source env)) = l1 ++ l2
        \/ exists x l2', l2 = x :: l2'
                         /\ scheduledSources (fst (onended s source env))
                            = l1 ++ l2').
Proof.
  unfold onended. simpl.
  destruct (indexOf (scheduledSources s) source) as [n|].
  - unfold removeAt. exists (take n (scheduledSources s)),
                            (drop n (scheduledSources s)).
    split; [by rewrite take_drop|].
    destruct (drop n (scheduledSources s)) as [|x l] eqn:Hd.
    + left. rewrite app_nil_r.
      assert (Hd' : drop (S n) (scheduledSources s) = []).
      { apply drop_ge. apply (f_equal length) in Hd.
        rewrite length_drop in Hd. simpl in Hd. lia. }
      by rewrite Hd', app_nil_r.
    + right. exists x, l. split; [reflexivity|]. f_equal.
      replace (S n) with (n + 1)%nat by lia.
      by rewrite <- drop_drop, Hd.
  - exists [], (scheduledSources s). split; [reflexivity | by left].
Qed.

Lemma onended_accounted s source env :
  accounted s -> accounted (fst (onended s source env)).
Proof.
  intros (Hcount & Hsrc & Hnd & Hids).
  destruct (onended_sources s source env) as (l1 & l2 & Hsplit & Hafter).
  assert (Hsame : bufferQueue (fst (onended s source env)) = bufferQueue s
                  /\ totalChunksReceived (fst (onended s source env))
                     = totalChunksReceived s
                  /\ totalChunksPlayed (fst (onended s source env))
                     = totalChunksPlayed s
                  /\ nodesCreated (fst (onended s source env))
                     = nodesCreated s) by (by unfold onended).
  destruct Hsame as (Hq & Hr & Hp & Hn).
  unfold accounted. rewrite Hq, Hr, Hp, Hn.
  split; [assumption|].
  destruct Hafter as [Hsrc'|(x & l2' & -> & Hsrc')]; rewrite Hsrc'.
  - by rewrite <- Hsplit.
  - rewrite Hsplit in Hsrc, Hnd, Hids.
    rewrite length_app in *. simpl in Hsrc.
    rewrite map_app in *. simpl in Hnd.
    apply NoDup_app in Hnd as (Hnd1 & Hdisj & Hnd2).
    apply NoDup_cons in Hnd2 as [_ Hnd2].
    apply Forall_app in Hids as [Hids1 Hids2].
    apply Forall_cons in Hids2 as [_ Hids2].
    split; [lia|]. split.
    + apply NoDup_app. split; [assumption|]. split; [|assumption].
      intros i Hi Hi'. apply (Hdisj i Hi). by right.
    + by apply Forall_app.
Qed.

Lemma enqueue_accounted atob s base64Data isPCM env :
  accounted s -> accounted (stateOf (enqueue atob s base64Data isPCM env)).
Proof.
  intros Hs. unfold enqueue, enqueueTry.
  destruct (truthy base64Data); simpl; [|exact Hs].
  destruct (atob base64Data) as [binaryString|]; simpl; [|exact Hs].
  destruct isPCM; simpl; [|exact Hs].
  destruct (decodePCM (toBytes binaryString)) as [e|b]; simpl; [exact Hs|].
  match goal with
  | |- context [acceptBuffer ?s1 b env] =>
      pose proof (acceptBuffer_accounted s1 b env Hs) as H1;
      destruct (acceptBuffer s1 b env)
  end.
  exact H1.
Qed.

Lemma step_accounted atob s c env :
  accounted s -> accounted (fst (step atob s c env)).
Proof.
  intros Hs. destruct c as [base64Data isPCM|decoded| |source| |];
    unfold step; cbn [fst].
  - by apply enqueue_accounted.
  - unfold enqueueResumed, decodedTry. destruct decoded as [e|b]; [exact Hs|].
    pose proof (acceptBuffer_accounted s b env Hs) as H1.
    by destruct (acceptBuffer s b env).
  - unfold onContextResumed.
    pose proof (continuePlayback_accounted s env Hs) as H1.
    by destruct (continuePlayback s env).
  - by apply onended_accounted.
  - destruct Hs as (Hcount & _). unfold accounted, stop. simpl.
    split; [lia|]. split; [lia|]. split; constructor.
  - unfold accounted, resetSession, stop. simpl.
    split; [lia|]. split; [lia|]. split; constructor.
Qed.

Lemma run_accounted atob env0 calls :
  accounted (fst (run atob (fst (create env0)) calls)).
Proof.
  assert (H : forall s, accounted s -> accounted (fst (run atob s calls))).
  { induction calls as [|[c env] calls IH]; intros s Hs; [exact Hs|].
    rewrite run_cons. cbn [fst]. apply IH, step_accounted, Hs. }
  apply H. unfold accounted. simpl.
  split; [lia|]. split; [lia|]. split; constructor.
Qed.

(** X11.  The counters of [getStatus()] are consistent in every state the
    streamer reaches from its construction: the buffers played plus those
    still queued never exceed the chunks received (the difference is what
    was dropped by overflow or by [stop()]), no more sources are scheduled
    than buffers were played, and so neither [queueSize] nor
    [totalChunksPlayed] exceeds [totalChunksReceived]. *)
Theorem status_counters_are_consistent
    (atob : jsstring -> option jsstring) (env0 env : Env)
    (calls : list (Call * Env)) :
  let s := fst (run atob (fst (create env0)) calls) in
  let status := getStatus s env in
  (statTotalChunksPlayed (analytics status) + length (bufferQueue s)
   <= statTotalChunksReceived (analytics status))%nat
  /\ (length (scheduledSources s)
      <= statTotalChunksPlayed (analytics status))%nat
  /\ (queueSize status <= statTotalChunksReceived (analytics status))%nat
  /\ (statTotalChunksPlayed (analytics status)
      <= statTotalChunksReceived (analytics status))%nat.
Proof.
  intros s status.
  destruct (run_accounted atob env0 calls) as (Hcount & Hsrc & _).
  fold s in Hcount, Hsrc. unfold status, getStatus. simpl. lia.
Qed.

(** *** Playing, queued and scheduled *)

Lemma acceptBuffer_steady s b env :
  steady s -> steady (fst (acceptBuffer s b env)).
Proof.
  intros [Hsrc Hqueue].
  pose proof (acceptBuffer_cases s b env) as (Hplay & Hrun & Hsusp).
  cbv zeta in Hplay, Hrun, Hsusp.
  destruct (isPlaying s) eqn:Hp.
  - destruct (Hplay eq_refl) as (_ & Hq & Hp'). by split.
  - destruct (contextState env) eqn:Hctx.
    + destruct (Hsusp eq_refl eq_refl) as (_ & _ & Hs' & Hp' & _).
      split; [|congruence]. rewrite Hs'. intros Hne.
      specialize (Hsrc Hne). discriminate.
    + destruct (Hrun eq_refl) as (_ & Hq & Hp'); [discriminate|]. by split.
    + destruct (Hrun eq_refl) as (_ & Hq & Hp'); [discriminate|]. by split.
Qed.

Lemma onended_steady s source env :
  steady s -> steady (fst (onended s source env)).
Proof.
  intros [Hsrc Hqueue]. unfold steady, onended. cbn [fst].
  cbn [scheduledSources isPlaying bufferQueue].
  assert (Hne : match indexOf (scheduledSources s) source with
                | Some index => removeAt index (scheduledSources s)
                | None => scheduledSources s
                end <> [] -> scheduledSources s <> []).
  { intros Hne Hnil. apply Hne. rewrite Hnil. reflexivity. }
  destruct (match indexOf (scheduledSources s) source with
            | Some index => removeAt index (scheduledSources s)
            | None => scheduledSources s
            end) as [|x l].
  - destruct (bufferQueue s) eqn:Hq.
    + split; [congruence | discriminate].
    + split; [congruence | exact Hqueue].
  - split; [|exact Hqueue]. intros _. apply Hsrc, Hne. discriminate.
Qed.

Lemma enqueue_steady atob s base64Data isPCM env :
  steady s -> steady (stateOf (enqueue atob s base64Data isPCM env)).
Proof.
  intros Hs. unfold enqueue, enqueueTry.
  destruct (truthy base64Data); simpl; [|exact Hs].
  destruct (atob base64Data) as [binaryString|]; simpl; [|exact Hs].
  destruct isPCM; simpl; [|exact Hs].
  destruct (decodePCM (toBytes binaryString)) as [e|b]; simpl; [exact Hs|].
  match goal with
  | |- context [acceptBuffer ?s1 b env] =>
      pose proof (acceptBuffer_steady s1 b env Hs) as H1;
      destruct (acceptBuffer s1 b env)
  end.
  exact H1.
Qed.

Lemma step_steady atob s c env :
  steady s -> steady (fst (step atob s c env)).
Proof.
  intros Hs. destruct c as [base64Data isPCM|decoded| |source| |];
    unfold step; cbn [fst].
  - by apply enqueue_steady.
  - unfold enqueueResumed, decodedTry. destruct decoded as [e|b]; [exact Hs|].
    pose proof (acceptBuffer_steady s b env Hs) as H1.
    by destruct (acceptBuffer s b env).
  - pose proof (continuePlayback_all s env)
      as (_ & _ & Hq & Hp & _ & _ & _ & Hres & _).
    cbv zeta in Hq, Hp, Hres. rewrite Hres. by split.
  - by apply onended_steady.
  - split; [intros Hne; by destruct Hne | discriminate].
  - split; [intros Hne; by destruct Hne | discriminate].
Qed.

Lemma run_steady atob env0 calls :
  steady (fst (run atob (fst (create env0)) calls)).
Proof.
  assert (H : forall s, steady s -> steady (fst (run atob s calls))).
  { induction calls as [|[c env] calls IH]; intros s Hs; [exact Hs|].
    rewrite run_cons. cbn [fst]. apply IH, step_steady, Hs. }
  apply H. split; [intros Hne; by destruct Hne | discriminate].
Qed.

(** X12.  While the streamer counts as playing nothing waits in the queue:
    in every state reached from the construction with [isPlaying] set, the
    buffer queue is empty, so that [queueSize] is the number of scheduled
    sources and [isBuffering] is off.  Buffers wait only before playback
    starts, that is while the audio context is still suspended. *)
Theorem nothing_waits_while_playing
    (atob : jsstring -> option jsstring) (env0 env : Env)
    (calls : list (Call * Env)) :
  let s := fst (run atob (fst (create env0)) calls) in
  let status := getStatus s env in
  statusIsPlaying status = true ->
  bufferQueue s = []
  /\ queueSize status = length (scheduledSources s)
  /\ isBuffering (analytics status) = false.
Proof.
  intros s status Hp.
  destruct (run_steady atob env0 calls) as [_ Hq]. fold s in Hq.
  specialize (Hq Hp). unfold status, getStatus. simpl. rewrite Hq. simpl.
  split; [reflexivity|]. split; [reflexivity|]. apply andb_false_r.
Qed.

Lemma nothing_waits_while_playing_witness :
  let env := {| currentTime := 0; contextState := running |} in
  let b := {| numberOfChannels := 1; frames := 24000; sampleRate := 48000;
              channelData := [] |} in
  let s := fst (run Base64.atob (fst (create env))
                  [(DecodeSettled (inr b), env)]) in
  isPlaying s = true
  /\ queueSize (getStatus s env) = length (scheduledSources s).
Proof.
  intros env b s. assert (Hp : isPlaying s = true) by reflexivity.
  split; [exact Hp|].
  exact (proj1 (proj2 (nothing_waits_while_playing
                         Base64.atob env env [(DecodeSettled (inr b), env)]
                         Hp))).
Defined.

Lemma Qc_fifth (x : Qc) :
  (Q2Qc 100 < x)%Qc <-> (Q2Qc 20 < x / Q2Qc 5)%Qc.
Proof.
  assert (H5 : (Q2Qc 0 < Q2Qc 5)%Qc) by reflexivity.
  assert (Hne : Q2Qc 5 <> Q2Qc 0) by discriminate.
  assert (Hx : (x / Q2Qc 5 * Q2Qc 5)%Qc = x) by (by apply test_field).
  assert (H100 : (Q2Qc 20 * Q2Qc 5)%Qc = Q2Qc 100)
    by (apply Qc_is_canon; reflexivity).
  split; intros Hlt.
  - apply Qcnot_le_lt. intros Hle.
    apply (Qcmult_le_compat_r _ _ (Q2Qc 5)) in Hle;
      [|by apply Qclt_le_weak].
    rewrite Hx, H100 in Hle. by apply Qcle_not_lt in Hle.
  - apply (Qcmult_lt_compat_r _ _ (Q2Qc 5)) in Hlt; [|exact H5].
    by rewrite Hx, H100 in Hlt.
Qed.

Lemma Qcmax_lower (a b : Qc) : (a <= Qcmax a b)%Qc.
Proof. unfold Qcmax. case_bool_decide as Hc; [exact Hc | apply Qcle_refl]. Qed.

Lemma Qcmin_upper (a b : Qc) : (Qcmin a b <= a)%Qc.
Proof.
  unfold Qcmin. case_bool_decide as Hc; [apply Qcle_refl|].
  by apply Qclt_le_weak, Qcnot_le_lt.
Qed.

(** X13.  The two health figures of [getStatus()] agree: the score always
    lies between 0 and 100, and the buffer is reported healthy exactly when
    the score is above 20 -- a source is scheduled, or more than 100 ms are
    buffered ahead. *)
Theorem healthy_iff_score_above_20 (s : t) (env : Env) :
  let health := bufferHealth (getStatus s env) in
  (0 <= healthScore health)%Qc
  /\ (healthScore health <= Q2Qc 100)%Qc
  /\ (isHealthy health = true <-> (Q2Qc 20 < healthScore health)%Qc).
Proof.
  intros health. unfold health, getStatus. cbn [bufferHealth healthScore
    isHealthy].
  set (bufferedTime := Qcmax 0 ((nextStartTime s - currentTime env)
                                * Q2Qc 1000)).
  set (score := Qcmax 0 (if (0 <? length (scheduledSources s))%nat
                         then Q2Qc 100 else (bufferedTime / Q2Qc 5)%Qc)).
  assert (H0 : (0 <= score)%Qc) by apply Qcmax_lower.
  split; [|split].
  - unfold Qcmin. by case_bool_decide.
  - apply Qcmin_upper.
  - destruct (0 <? length (scheduledSources s))%nat eqn:Hsrc.
    + rewrite orb_true_r. split; [intros _ | reflexivity].
      unfold score, Qcmax, Qcmin. by repeat case_bool_decide.
    + rewrite orb_false_r, bool_decide_eq_true.
      assert (Hscore : score = (bufferedTime / Q2Qc 5)%Qc).
      { unfold score, Qcmax. case_bool_decide as Hc; [reflexivity|].
        destruct Hc.
        assert (Hle : (0 * / Q2Qc 5 <= bufferedTime * / Q2Qc 5)%Qc)
          by (apply Qcmult_le_compat_r; [apply Qcmax_lower | discriminate]).
        by rewrite Qcmult_0_l in Hle. }
      rewrite Qc_fifth, <- Hscore. unfold Qcmin.
      case_bool_decide as Hc; [|reflexivity].
      split; intros Hlt; [reflexivity|].
      eapply Qclt_le_trans; [exact Hlt | exact Hc].
Qed.

(** *** The end of a source *)

Lemma indexOf_absent l source :
  nodeId source ∉ map nodeId l -> indexOf l source = None.
Proof.
  induction l as [|x l IH]; intros Hnot; simpl; [reflexivity|].
  destruct (Nat.eqb_spec (nodeId x) (nodeId source)) as [Heq|Hne].
  - destruct Hnot. simpl. rewrite Heq. by left.
  - rewrite IH; [reflexivity|]. intros Hin. apply Hnot. by right.
Qed.

Lemma indexOf_found l1 source l2 :
  nodeId source ∉ map nodeId l1 ->
  indexOf (l1 ++ source :: l2) source = Some (length l1).
Proof.
  induction l1 as [|x l1 IH]; intros Hnot; simpl.
  - by rewrite Nat.eqb_refl.
  - destruct (Nat.eqb_spec (nodeId x) (nodeId source)) as [Heq|Hne].
    + destruct Hnot. simpl. rewrite Heq. by left.
    + rewrite IH; [reflexivity|]. intros Hin. apply Hnot. by right.
Qed.

Lemma removeAt_middle l1 (x : AudioBufferSourceNode) l2 :
  removeAt (length l1) (l1 ++ x :: l2) = l1 ++ l2.
Proof.
  unfold removeAt. rewrite take_app_length.
  change (l1 ++ x :: l2) with (l1 ++ [x] ++ l2).
  rewrite app_assoc.
  replace (S (length l1)) with (length (l1 ++ [x]))
    by (rewrite length_app; simpl; lia).
  by rewrite drop_app_length.
Qed.

(** X14.  When a scheduled source ends, its [onended] handler takes exactly
    that source out of [scheduledSources], leaving the others in their
    order; the streamer stops counting as playing, and reports the change,
    exactly when it was the last one.  A second [ended] event for the same
    source removes nothing. *)
Theorem ended_source_is_removed
    (atob : jsstring -> option jsstring) (env0 env env' : Env)
    (calls : list (Call * Env)) (source : AudioBufferSourceNode) :
  let s := fst (run atob (fst (create env0)) calls) in
  let r := onended s source env in
  source ∈ scheduledSources s ->
  (exists l1 l2, scheduledSources s = l1 ++ source :: l2
                 /\ scheduledSources (fst r) = l1 ++ l2)
  /\ (isPlaying (fst r) = false <-> scheduledSources (fst r) = [])
  /\ (PlaybackStateChange false ∈ snd r <-> scheduledSources (fst r) = [])
  /\ scheduledSources (fst (onended (fst r) source env'))
     = scheduledSources (fst r).
Proof.
  intros s r Hin.
  destruct (run_accounted atob env0 calls) as (_ & _ & Hnd & _).
  destruct (run_steady atob env0 calls) as [Hsrc Hqueue].
  fold s in Hnd, Hsrc, Hqueue.
  assert (Hp : isPlaying s = true)
    by (apply Hsrc; intros Hnil; rewrite Hnil in Hin; inversion Hin).
  specialize (Hqueue Hp).
  apply list_elem_of_split in Hin as (l1 & l2 & Hsplit).
  rewrite Hsplit, map_app in Hnd. simpl in Hnd.
  apply NoDup_app in Hnd as (_ & Hdisj & Hnd2).
  apply NoDup_cons in Hnd2 as [Hnot2 _].
  assert (Hnot1 : nodeId source ∉ map nodeId l1).
  { intros Hi. apply (Hdisj _ Hi). by left. }
  assert (Hafter : scheduledSources (fst r) = l1 ++ l2).
  { unfold r, onended. cbn [fst scheduledSources].
    by rewrite Hsplit, indexOf_found, removeAt_middle. }
  assert (Hgone : indexOf (l1 ++ l2) source = None).
  { apply indexOf_absent. rewrite map_app. intros Hi.
    apply elem_of_app in Hi as [Hi|Hi]; [by apply Hnot1 | by apply Hnot2]. }
  split; [by exists l1, l2|]. rewrite Hafter.
  assert (Hfin : isPlaying (fst r)
                 = match l1 ++ l2 with [] => false | _ => true end
                 /\ snd r
                    = Log (LogChunkCompleted (currentTime env))
                        :: match l1 ++ l2 with
                           | [] => [Log LogAllCompleted;
                                    PlaybackStateChange false]
                           | _ => []
                           end).
  { unfold r, onended. cbn [fst snd isPlaying].
    rewrite Hsplit, indexOf_found, removeAt_middle, Hqueue, Hp by assumption.
    by destruct (l1 ++ l2). }
  destruct Hfin as [Hplay Heffs]. rewrite Hplay, Heffs.
  split; [|split].
  - destruct (l1 ++ l2); split; congruence.
  - destruct (l1 ++ l2) as [|x l].
    + split; [reflexivity|]. intros _. right. right. left.
    + split; [|discriminate]. intros Hi.
      apply elem_of_cons in Hi as [Hi|Hi]; [discriminate | inversion Hi].
  - unfold onended at 1. cbn [fst scheduledSources].
    by rewrite Hafter, Hgone.
Qed.

Lemma ended_source_is_removed_witness :
  let env := {| currentTime := 0; contextState := running |} in
  let later := {| currentTime := 1; contextState := running |} in
  let b := {| numberOfChannels := 1; frames := 24000; sampleRate := 48000;
              channelData := [] |} in
  let calls := [(DecodeSettled (inr b), env)] in
  let s := fst (run Base64.atob (fst (create env)) calls) in
  let source := {| nodeId := 0; buffer := b;
                   startTime := nextStartTime (fst (create env)) |} in
  source ∈ scheduledSources s
  /\ (isPlaying (fst (onended s source later)) = false
      <-> scheduledSources (fst (onended s source later)) = []).
Proof.
  intros env later b calls s source.
  assert (Hin : source ∈ scheduledSources s) by left.
  split; [exact Hin|].
  exact (proj1 (proj2 (ended_source_is_removed
                         Base64.atob env later later calls source Hin))).
Defined.

(** *** The recorded bytes *)

Lemma acceptBuffer_recorded s b env :
  (length (bufferQueue s) < MAX_BUFFER_SIZE)%nat ->
  audioDataChunks (fst (acceptBuffer s b env)) = audioDataChunks s.
Proof.
  intros Hroom. unfold acceptBuffer, dropOldestIfFull.
  destruct (Nat.leb_spec MAX_BUFFER_SIZE (length (bufferQueue s)));
    [lia|].
  match goal with
  | |- context [if ?c then _ else scheduleChunks ?s2 env] =>
      set (s1 := s2);
      assert (H1 : audioDataChunks s1 = audioDataChunks s) by reflexivity
  end.
  destruct (negb (isPlaying s1)).
  - unfold startPlayback. destruct (bufferQueue s1) eqn:Hq; [exact H1|].
    assert (Hgo : audioDataChunks (fst (continuePlayback s1 env))
                  = audioDataChunks s).
    { unfold continuePlayback.
      match goal with
      | |- context [scheduleChunks ?s2 env] =>
          destruct (scheduleChunks s2 env) as [s3 effs3] eqn:Hrun
      end.
      destruct (scheduleChunks_all _ _ _ _ Hrun)
        as (_ & _ & _ & _ & _ & Ha & _).
      cbn [fst]. rewrite Ha. exact H1. }
    destruct (contextState env); [exact H1| |];
      by destruct (continuePlayback s1 env).
  - destruct (scheduleChunks s1 env) as [s3 effs3] eqn:Hrun.
    destruct (scheduleChunks_all _ _ _ _ Hrun)
      as (_ & _ & _ & _ & _ & Ha & _).
    cbn [fst]. rewrite Ha. exact H1.
Qed.

(** X15.  [enqueue] records the raw bytes of every payload that [atob]
    accepts before it looks at them: as long as the queue is not full,
    [getAudioDataChunks()] afterwards is what it was before with the bytes
    of this payload added at the end -- also when the PCM conversion then
    fails, and for MP3 already while the decoding is awaited.  A payload
    that is empty or that [atob] rejects records nothing. *)
Theorem raw_bytes_are_recorded
    (atob : jsstring -> option jsstring) (s : t) (base64Data : jsstring)
    (isPCM : bool) (env : Env) :
  (length (bufferQueue s) < MAX_BUFFER_SIZE)%nat ->
  getAudioDataChunks (stateOf (enqueue atob s base64Data isPCM env))
  = getAudioDataChunks s
      ++ (if truthy base64Data
          then match atob base64Data with
               | Some binaryString => [toBytes binaryString]
               | None => []
               end
          else []).
Proof.
  intros Hroom. unfold getAudioDataChunks, enqueue, enqueueTry.
  destruct (truthy base64Data); simpl; [|by rewrite app_nil_r].
  destruct (atob base64Data) as [binaryString|]; simpl;
    [|by rewrite app_nil_r].
  destruct isPCM; simpl; [|reflexivity].
  destruct (decodePCM (toBytes binaryString)) as [e|b]; simpl;
    [reflexivity|].
  match goal with
  | |- context [acceptBuffer ?s1 b env] =>
      pose proof (acceptBuffer_recorded s1 b env Hroom) as H1;
      destruct (acceptBuffer s1 b env)
  end.
  exact H1.
Qed.

Lemma raw_bytes_are_recorded_witness :
  let env := {| currentTime := 0; contextState := running |} in
  getAudioDataChunks
    (stateOf (enqueue Base64.atob (fst (create env)) (lit "AAAA") true env))
  = [[0%N; 0%N; 0%N]].
Proof.
  intros env.
  rewrite (raw_bytes_are_recorded Base64.atob (fst (create env))
             (lit "AAAA") true env); [reflexivity|].
  simpl. unfold MAX_BUFFER_SIZE. lia.
Defined.

End WebAudioStreamerMore.

(** ** The text chunker: what the chunks are made of *)

Module TextChunkerProofs.
Import JS TextChunker TrimFacts.

Lemma length_trimStart s : (length (trimStart s) <= length s)%nat.
Proof.
  induction s as [|c s IH]; simpl; [lia|].
  destruct (is_white_space c); simpl; lia.
Qed.

Lemma length_trim s : (length (trim s) <= length s)%nat.
Proof.
  unfold trim, trimEnd. rewrite length_rev.
  pose proof (length_trimStart (rev (trimStart s))) as H.
  rewrite length_rev in H. pose proof (length_trimStart s). lia.
Qed.

Lemma trim_cons_clean a s :
  is_white_space a = false -> trim (a :: s) <> [].
Proof.
  intros Ha. unfold trim. simpl. rewrite Ha, trimEnd_cons, Ha.
  by destruct (trimEnd s).
Qed.

Lemma firstn_skipn_length n (r : jsstring) :
  firstn n r ++ skipn (length (firstn n r)) r = r.
Proof.
  rewrite length_take.
  destruct (Nat.min_spec n (length r)) as [[Hlt ->]|[Hge ->]].
  - apply take_drop.
  - rewrite take_ge by lia. rewrite drop_all. apply app_nil_r.
Qed.

Lemma chunkTextOf_prefix o r size :
  exists n, chunkTextOf o r size = firstn n r
            /\ (1 <= size -> (1 <= n)%nat).
Proof.
  unfold chunkTextOf, substringTo.
  destruct (preferSentenceBoundaries o && (size <? Z.of_nat (length r))).
  - cbv zeta.
    destruct (Z.ltb_spec 0 (wordBreak (minChunkSize o) (firstn (Z.to_nat size) r)
                              (sentenceBreak (minChunkSize o)
                                 (firstn (Z.to_nat size) r)))).
    + eexists. split; [reflexivity|]. intros _. lia.
    + eexists. split; [reflexivity|]. intros. lia.
  - eexists. split; [reflexivity|]. intros. lia.
Qed.

Lemma chunkSizeOf_pos o rnd r :
  (1 <= minChunkSize o)%Q -> (1 <= maxChunkSize o)%Q ->
  (0 <= rnd)%Q -> (rnd < 1)%Q -> r <> [] ->
  1 <= chunkSizeOf o rnd r.
Proof.
  intros Hmin Hmax H0 H1 Hr. unfold chunkSizeOf.
  destruct (Qltb _ _).
  - destruct r; [done | simpl; lia].
  - assert (Hx : (inject_Z 1
                  <= minChunkSize o
                     + rnd * (maxChunkSize o - minChunkSize o))%Q).
    { change (inject_Z 1) with 1%Q. nra. }
    apply Qfloor_resp_le in Hx. by rewrite Qfloor_Z in Hx.
Qed.

Lemma splitLoop_spec random o :
  (1 <= minChunkSize o)%Q -> (1 <= maxChunkSize o)%Q ->
  (forall k, (0 <= random k)%Q /\ (random k < 1)%Q) ->
  forall fuel r i chunks,
    trim r = r -> (length r <= fuel)%nat ->
    exists new,
      splitLoop random o fuel r i chunks = Some (chunks ++ new)
      /\ map index new = seq i (length new)
      /\ Forall (fun c => isComplete c = false) new
      /\ Forall (cutFrom random o) new
      /\ concat (map (fun c => visible (text c)) new) = visible r
      /\ (r <> [] -> new <> []).
Proof.
  intros Hmin Hmax Hrand.
  assert (Hdone : forall fuel i chunks,
             exists new,
               splitLoop random o fuel [] i chunks = Some (chunks ++ new)
               /\ map index new = seq i (length new)
               /\ Forall (fun c => isComplete c = false) new
               /\ Forall (cutFrom random o) new
               /\ concat (map (fun c => visible (text c)) new) = visible []
               /\ (@nil N <> [] -> new <> [])).
  { intros fuel i chunks. exists []. destruct fuel; simpl; rewrite app_nil_r;
      (split; [reflexivity|]); (split; [reflexivity|]);
      (split; [constructor|]); (split; [constructor|]);
      (split; [reflexivity|]); intros Hne; by destruct Hne. }
  induction fuel as [|fuel IH]; intros r i chunks Htrim Hlen.
  - destruct r; [apply Hdone | simpl in Hlen; lia].
  - destruct r as [|a r']; [apply Hdone|].
    set (r := a :: r') in *.
    assert (Hr : r <> []) by discriminate.
    set (size := chunkSizeOf o (random i) r).
    assert (Hsize : 1 <= size)
      by (apply chunkSizeOf_pos; try assumption; apply Hrand).
    destruct (chunkTextOf_prefix o r size) as (n & Hct & Hn).
    specialize (Hn Hsize).
    set (c0 := {| text := trim (chunkTextOf o r size); index := i;
                  isComplete := false |}).
    set (r1 := trim (substringFrom r (length (chunkTextOf o r size)))).
    assert (Hstep : splitLoop random o (S fuel) r i chunks
                    = splitLoop random o fuel r1 (S i) (chunks ++ [c0]))
      by reflexivity.
    assert (Hsplit : chunkTextOf o r size
                     ++ substringFrom r (length (chunkTextOf o r size)) = r)
      by (rewrite Hct; apply firstn_skipn_length).
    assert (Hlong : (1 <= length (chunkTextOf o r size))%nat).
    { rewrite Hct, length_take. unfold r. simpl. lia. }
    destruct (IH r1 (S i) (chunks ++ [c0]))
      as (new & Hrun & Hidx & Hfl & Hcut & Hvis & _).
    { apply trim_idempotent. }
    { unfold r1. pose proof (length_trim
        (substringFrom r (length (chunkTextOf o r size)))) as Hle.
      unfold substringFrom in Hle. rewrite length_drop in Hle.
      unfold substringFrom. lia. }
    exists (c0 :: new). rewrite Hstep, Hrun, <- app_assoc.
    split; [reflexivity|].
    split; [simpl; by rewrite Hidx|].
    split; [by constructor|].
    split.
    { constructor; [|exact Hcut]. exists r.
      split; [exact Hr|]. split; [exact Htrim | reflexivity]. }
    split; [|discriminate].
    simpl. rewrite Hvis. unfold r1.
    rewrite !visible_trim, <- visible_app. by rewrite Hsplit.
Qed.

Lemma cutFrom_text random o c :
  (1 <= minChunkSize o)%Q -> (1 <= maxChunkSize o)%Q ->
  (forall k, (0 <= random k)%Q /\ (random k < 1)%Q) ->
  cutFrom random o c ->
  text c <> [] /\ trim (text c) = text c.
Proof.
  intros Hmin Hmax Hrand (r & Hr & Htrim & ->).
  split; [|apply trim_idempotent].
  destruct (chunkTextOf_prefix o r (chunkSizeOf o (random (index c)) r))
    as (n & -> & Hn).
  assert (Hpos : (1 <= n)%nat)
    by (apply Hn, chunkSizeOf_pos; try assumption; apply Hrand).
  pose proof (trim_startsClean r) as Hclean. rewrite Htrim in Hclean.
  destruct r as [|a r']; [done|]. destruct n as [|n]; [lia|].
  simpl in Hclean. simpl firstn. by apply trim_cons_clean.
Qed.

Lemma markLastComplete_snoc l c :
  markLastComplete (l ++ [c])
  = l ++ [{| text := text c; index := index c; isComplete := true |}].
Proof.
  induction l as [|x l IH]; [reflexivity|].
  simpl. rewrite IH. by destruct l.
Qed.

Lemma splitTextIntoChunks_spec random o fuel (input : jsstring) :
  (1 <= minChunkSize o)%Q -> (1 <= maxChunkSize o)%Q ->
  (forall k, (0 <= random k)%Q /\ (random k < 1)%Q) ->
  (length input <= fuel)%nat ->
  exists chunks,
    splitTextIntoChunks random o fuel input = Some chunks
    /\ (chunks = [] <-> trim input = [])
    /\ map index chunks = seq 0 (length chunks)
    /\ map isComplete chunks
       = match length chunks with
         | O => []
         | S n => repeat false n ++ [true]
         end
    /\ Forall (cutFrom random o) chunks
    /\ concat (map (fun c => visible (text c)) chunks) = visible input.
Proof.
  intros Hmin Hmax Hrand Hfuel. unfold splitTextIntoChunks.
  destruct (trim input) as [|a r'] eqn:Hin.
  - exists []. simpl. split; [reflexivity|]. split; [done|].
    split; [reflexivity|]. split; [reflexivity|]. split; [constructor|].
    by rewrite <- (visible_trim input), Hin.
  - cbn [truthy negb]. rewrite <- Hin.
    destruct (splitLoop_spec random o Hmin Hmax Hrand fuel (trim input) 0%nat [])
      as (new & Hrun & Hidx & Hfl & Hcut & Hvis & Hne).
    { apply trim_idempotent. }
    { pose proof (length_trim input). lia. }
    rewrite Hrun. simpl. eexists. split; [reflexivity|].
    assert (Hnew : new <> []) by (apply Hne; by rewrite Hin).
    destruct new as [|c new _] using rev_ind; [done|].
    rewrite markLastComplete_snoc.
    rewrite Forall_app, Forall_singleton in Hfl, Hcut.
    destruct Hfl as [Hfl _]. destruct Hcut as [Hcut Hcut1].
    rewrite !map_app, !length_app in *. simpl in *.
    split; [split; [intros H; by destruct new | by rewrite Hin]|].
    split; [exact Hidx|].
    split.
    { replace (length new + 1)%nat with (S (length new)) by lia.
      f_equal. clear -Hfl. induction Hfl as [|x l Hx _ IH]; [reflexivity|].
      simpl. by rewrite Hx, IH. }
    split.
    { apply Forall_app. split; [exact Hcut|]. apply Forall_singleton.
      exact Hcut1. }
    by rewrite Hvis, visible_trim.
Qed.

(** X16.  With chunk sizes of at least one character the loop of
    [splitTextIntoChunks] ends, after at most as many rounds as the text has
    characters, whatever [Math.random()] returns.  The chunks are numbered
    0, 1, 2, ... in the order of the text, exactly the last one is marked
    complete, and there is no chunk exactly when the text is blank. *)
Theorem chunks_are_numbered_and_the_last_is_complete
    (random : nat -> Q) (o : Options) (fuel : nat) (input : jsstring) :
  (1 <= minChunkSize o)%Q -> (1 <= maxChunkSize o)%Q ->
  (forall k, (0 <= random k)%Q /\ (random k < 1)%Q) ->
  (length input <= fuel)%nat ->
  exists chunks,
    splitTextIntoChunks random o fuel input = Some chunks
    /\ (chunks = [] <-> trim input = [])
    /\ map index chunks = seq 0 (length chunks)
    /\ map isComplete chunks
       = match length chunks with
         | O => []
         | S n => repeat false n ++ [true]
         end.
Proof.
  intros Hmin Hmax Hrand Hfuel.
  destruct (splitTextIntoChunks_spec random o fuel input Hmin Hmax Hrand Hfuel)
    as (chunks & Hrun & Hnil & Hidx & Hfl & _).
  by exists chunks.
Qed.

Lemma half_is_random : forall k : nat, (0 <= 1 # 2)%Q /\ (1 # 2 < 1)%Q.
Proof. intros _. split; [discriminate | reflexivity]. Qed.

Lemma chunks_are_numbered_and_the_last_is_complete_witness :
  exists chunks,
    splitTextIntoChunks (fun _ => 1 # 2) exampleOptions 40
      (lit " Hello there. I am fine! What now? ") = Some chunks
    /\ (chunks = []
        <-> trim (lit " Hello there. I am fine! What now? ") = [])
    /\ map index chunks = seq 0 (length chunks)
    /\ map isComplete chunks
       = match length chunks with
         | O => []
         | S n => repeat false n ++ [true]
         end.
Proof.
  apply chunks_are_numbered_and_the_last_is_complete.
  - discriminate.
  - discriminate.
  - apply half_is_random.
  - simpl. lia.
Defined.

(** X17.  Splitting loses no text and invents none: read without white
    space, the chunk texts one after the other are the input.  Every chunk
    text is non-empty and carries no white space at either end. *)
Theorem chunks_keep_the_visible_text
    (random : nat -> Q) (o : Options) (fuel : nat) (input : jsstring) :
  (1 <= minChunkSize o)%Q -> (1 <= maxChunkSize o)%Q ->
  (forall k, (0 <= random k)%Q /\ (random k < 1)%Q) ->
  (length input <= fuel)%nat ->
  exists chunks,
    splitTextIntoChunks random o fuel input = Some chunks
    /\ concat (map (fun c => visible (text c)) chunks) = visible input
    /\ Forall (fun c => text c <> [] /\ trim (text c) = text c) chunks.
Proof.
  intros Hmin Hmax Hrand Hfuel.
  destruct (splitTextIntoChunks_spec random o fuel input Hmin Hmax Hrand Hfuel)
    as (chunks & Hrun & _ & _ & _ & Hcut & Hvis).
  exists chunks. split; [exact Hrun|]. split; [exact Hvis|].
  eapply Forall_impl; [exact Hcut|]. intros c Hc.
  by apply (cutFrom_text random o).
Qed.

Lemma chunks_keep_the_visible_text_witness :
  exists chunks,
    splitTextIntoChunks (fun _ => 1 # 2) exampleOptions 40
      (lit " Hello there. I am fine! What now? ") = Some chunks
    /\ concat (map (fun c => visible (text c)) chunks)
       = lit "Hellothere.Iamfine!Whatnow?"
    /\ Forall (fun c => text c <> [] /\ trim (text c) = text c) chunks.
Proof.
  apply (chunks_keep_the_visible_text (fun _ => 1 # 2) exampleOptions 40
           (lit " Hello there. I am fine! What now? ")).
  - discriminate.
  - discriminate.
  - apply half_is_random.
  - simpl. lia.
Defined.

(** *** How long a chunk can be *)

Lemma startsWith_length s pattern :
  startsWith s pattern = true -> (length pattern <= length s)%nat.
Proof.
  revert s. induction pattern as [|p pattern IH]; intros s H; simpl; [lia|].
  destruct s as [|c s]; [discriminate|]. simpl in H.
  apply andb_true_iff in H as [_ H]. apply IH in H. simpl. lia.
Qed.

Lemma lastIndexOf_bound s pattern :
  0 <= lastIndexOf s pattern ->
  lastIndexOf s pattern + Z.of_nat (length pattern) <= Z.of_nat (length s).
Proof.
  induction s as [|c s IH]; cbn [lastIndexOf].
  - destruct (startsWith [] pattern) eqn:Hs; [|lia].
    apply startsWith_length in Hs. simpl in *. lia.
  - destruct (Z.leb_spec 0 (lastIndexOf s pattern)) as [Hlater|Hlater].
    + specialize (IH Hlater). simpl length. lia.
    + destruct (startsWith (c :: s) pattern) eqn:Hs; [|lia].
      apply startsWith_length in Hs. lia.
Qed.

Lemma Qltb_half_pos (m : Q) (i : Z) :
  (0 <= m)%Q -> Qltb (m / 2) (inject_Z i) = true -> 0 < i.
Proof.
  intros Hm H. unfold Qltb in H. apply negb_true_iff in H.
  destruct (Z_lt_le_dec 0 i) as [Hpos|Hneg]; [exact Hpos|].
  assert (Hle : Qle_bool (inject_Z i) (m / 2) = true); [|congruence].
  apply Qle_bool_iff. apply (Qle_trans _ 0).
  - change 0%Q with (inject_Z 0). by rewrite <- Zle_Qle.
  - assert (Hh : (m / 2 == m * (1 # 2))%Q) by reflexivity. rewrite Hh. nra.
Qed.

Lemma sentenceBreak_bound (m : Q) chunkText :
  (0 <= m)%Q -> sentenceBreak m chunkText <= Z.of_nat (length chunkText).
Proof.
  intros Hm. unfold sentenceBreak.
  assert (H : forall endings acc,
             acc <= Z.of_nat (length chunkText) ->
             fold_left
               (fun bestBreak ending =>
                  let lastIndex := lastIndexOf chunkText ending in
                  if Qltb (m / 2) (inject_Z lastIndex)
                  then Z.max bestBreak
                         (lastIndex + Z.of_nat (length ending))
                  else bestBreak) endings acc
             <= Z.of_nat (length chunkText)).
  { induction endings as [|e endings IH]; intros acc Hacc; simpl;
      [exact Hacc|].
    apply IH. destruct (Qltb _ _) eqn:Hlt; [|exact Hacc].
    apply Qltb_half_pos in Hlt; [|exact Hm].
    pose proof (lastIndexOf_bound chunkText e). lia. }
  apply H. lia.
Qed.

Lemma wordBreak_bound (m : Q) chunkText bestBreak :
  (0 <= m)%Q -> bestBreak <= Z.of_nat (length chunkText) ->
  wordBreak m chunkText bestBreak <= Z.of_nat (length chunkText).
Proof.
  intros Hm Hb. unfold wordBreak.
  destruct (bestBreak =? -1); [|exact Hb].
  destruct (Qltb _ _) eqn:Hlt; [|exact Hb].
  apply Qltb_half_pos in Hlt; [|exact Hm].
  pose proof (lastIndexOf_bound chunkText [32%N]). simpl in *. lia.
Qed.

Lemma chunkTextOf_length o r size :
  (0 <= minChunkSize o)%Q ->
  Z.of_nat (length (chunkTextOf o r size)) <= Z.max 0 size.
Proof.
  intros Hm. unfold chunkTextOf, substringTo.
  pose proof (length_take r (Z.to_nat size)) as Hlen.
  pose proof (wordBreak_bound (minChunkSize o) (firstn (Z.to_nat size) r)
                (sentenceBreak (minChunkSize o) (firstn (Z.to_nat size) r))
                Hm (sentenceBreak_bound _ _ Hm)) as Hbreak.
  destruct (preferSentenceBoundaries o && (size <? Z.of_nat (length r)));
    [|lia].
  cbv zeta.
  destruct (Z.ltb_spec 0 (wordBreak (minChunkSize o) (firstn (Z.to_nat size) r)
                            (sentenceBreak (minChunkSize o)
                               (firstn (Z.to_nat size) r)))); [|lia].
  rewrite length_take. lia.
Qed.

Lemma chunkSizeOf_below o rnd r :
  (0 < minChunkSize o)%Q -> (minChunkSize o <= maxChunkSize o)%Q ->
  (0 <= rnd)%Q -> (rnd < 1)%Q ->
  (inject_Z (chunkSizeOf o rnd r)
   < maxChunkSize o + minChunkSize o / 2)%Q.
Proof.
  intros Hmin Hmax H0 H1. unfold chunkSizeOf.
  set (x := (minChunkSize o + rnd * (maxChunkSize o - minChunkSize o))%Q).
  assert (Hx : (x <= maxChunkSize o)%Q) by (unfold x; nra).
  pose proof (Qfloor_le x) as Hfloor.
  assert (Hh : (minChunkSize o / 2 == minChunkSize o * (1 # 2))%Q)
    by reflexivity.
  destruct (Qltb _ _) eqn:Hlt.
  - unfold Qltb in Hlt. apply negb_true_iff in Hlt.
    assert (Hn : ~ (minChunkSize o / 2
                    <= inject_Z (Z.of_nat (length r) - Qfloor x))%Q)
      by (intros Hle; apply Qle_bool_iff in Hle; congruence).
    apply Qnot_le_lt in Hn.
    unfold Zminus in Hn. rewrite inject_Z_plus, inject_Z_opp in Hn.
    rewrite Hh in *. nra.
  - rewrite Hh. nra.
Qed.

(** X18.  No chunk is as long as [maxChunkSize + minChunkSize / 2]
    characters (for [1 <= minChunkSize <= maxChunkSize]).  The bound is
    not [maxChunkSize]: a remainder of less than half the minimum is added
    to the last chunk. *)
Theorem chunks_are_shorter_than_max_plus_half_min
    (random : nat -> Q) (o : Options) (fuel : nat) (input : jsstring) :
  (1 <= minChunkSize o)%Q -> (minChunkSize o <= maxChunkSize o)%Q ->
  (forall k, (0 <= random k)%Q /\ (random k < 1)%Q) ->
  (length input <= fuel)%nat ->
  exists chunks,
    splitTextIntoChunks random o fuel input = Some chunks
    /\ Forall (fun c => (inject_Z (Z.of_nat (length (text c)))
                         < maxChunkSize o + minChunkSize o / 2)%Q) chunks.
Proof.
  intros Hmin Hle Hrand Hfuel.
  assert (Hmax : (1 <= maxChunkSize o)%Q) by (eapply Qle_trans; eassumption).
  assert (Hpos : (0 < minChunkSize o)%Q) by nra.
  destruct (splitTextIntoChunks_spec random o fuel input Hmin Hmax Hrand Hfuel)
    as (chunks & Hrun & _ & _ & _ & Hcut & _).
  exists chunks. split; [exact Hrun|].
  eapply Forall_impl; [exact Hcut|]. intros c (r & _ & _ & ->).
  set (size := chunkSizeOf o (random (index c)) r).
  pose proof (length_trim (chunkTextOf o r size)) as Htrim.
  pose proof (chunkTextOf_length o r size (Qlt_le_weak _ _ Hpos)) as Hlen.
  pose proof (chunkSizeOf_below o (random (index c)) r Hpos Hle
                (proj1 (Hrand _)) (proj2 (Hrand _))) as Hsize.
  fold size in Hsize.
  assert (Hh : (minChunkSize o / 2 == minChunkSize o * (1 # 2))%Q)
    by reflexivity.
  eapply Qle_lt_trans; [rewrite <- Zle_Qle; apply Nat2Z.inj_le, Htrim|].
  eapply Qle_lt_trans; [rewrite <- Zle_Qle; exact Hlen|].
  destruct (Z.max_spec 0 size) as [[_ ->]|[_ ->]]; [exact Hsize|].
  change (inject_Z 0) with 0%Q. rewrite Hh. nra.
Qed.

Lemma chunks_are_shorter_than_max_plus_half_min_witness :
  exists chunks,
    splitTextIntoChunks (fun _ => 0%Q)
      {| minChunkSize := inject_Z 10; maxChunkSize := inject_Z 10;
         preferSentenceBoundaries := true |} 14 (lit "abcdefghijklmn")
    = Some chunks
    /\ Forall (fun c => (inject_Z (Z.of_nat (length (text c)))
                         < inject_Z 10 + inject_Z 10 / 2)%Q) chunks
    /\ Exists (fun c => (10 < length (text c))%nat) chunks.
Proof.
  destruct (chunks_are_shorter_than_max_plus_half_min (fun _ => 0%Q)
              {| minChunkSize := inject_Z 10; maxChunkSize := inject_Z 10;
                 preferSentenceBoundaries := true |} 14
              (lit "abcdefghijklmn"))
    as (chunks & Hrun & Hall).
  - discriminate.
  - discriminate.
  - intros _. split; [discriminate | reflexivity].
  - simpl. lia.
  - exists chunks. split; [exact Hrun|]. split; [exact Hall|].
    vm_compute in Hrun. injection Hrun as <-. left. simpl. lia.
Defined.

(** *** Chunk sizes of zero *)

Lemma Qltb_false (a b : Q) : (b <= a)%Q -> Qltb a b = false.
Proof.
  intros H. unfold Qltb. apply negb_false_iff. by apply Qle_bool_iff.
Qed.

Lemma chunkSizeOf_zero o rnd r :
  (minChunkSize o == 0)%Q -> (maxChunkSize o == 0)%Q -> r <> [] ->
  chunkSizeOf o rnd r = 0.
Proof.
  intros Hmin Hmax Hr. unfold chunkSizeOf.
  assert (Hx : Qfloor (minChunkSize o
                       + rnd * (maxChunkSize o - minChunkSize o)) = 0).
  { transitivity (Qfloor (inject_Z 0)); [|apply Qfloor_Z].
    apply Qfloor_comp. rewrite Hmin, Hmax. change (inject_Z 0) with 0%Q.
    ring. }
  rewrite Hx, Qltb_false; [reflexivity|].
  assert (Hh : (minChunkSize o / 2 == 0)%Q) by (rewrite Hmin; reflexivity).
  rewrite Hh. change 0%Q with (inject_Z 0). rewrite <- Zle_Qle. lia.
Qed.

Lemma chunkTextOf_zero o r :
  (minChunkSize o == 0)%Q -> chunkTextOf o r 0 = [].
Proof.
  intros Hmin. unfold chunkTextOf, substringTo.
  change (firstn (Z.to_nat 0) r) with (@nil N).
  assert (Hh : (minChunkSize o / 2 == 0)%Q) by (rewrite Hmin; reflexivity).
  assert (Hno : Qltb (minChunkSize o / 2) (inject_Z (-1)) = false)
    by (apply Qltb_false; rewrite Hh; discriminate).
  assert (Hbreak : wordBreak (minChunkSize o) []
                     (sentenceBreak (minChunkSize o) []) = -1).
  { unfold wordBreak, sentenceBreak, sentenceEndings. simpl.
    by rewrite !Hno. }
  rewrite Hbreak. by destruct (_ && _).
Qed.

(** X19.  With [minChunkSize] and [maxChunkSize] both 0 the call never
    returns for a text that is not blank: every round adds an empty chunk
    and leaves [remainingText] as it was. *)
Theorem zero_chunk_sizes_never_return
    (random : nat -> Q) (o : Options) (fuel : nat) (input : jsstring) :
  (minChunkSize o == 0)%Q -> (maxChunkSize o == 0)%Q ->
  trim input <> [] ->
  splitTextIntoChunks random o fuel input = None.
Proof.
  intros Hmin Hmax Hin. unfold splitTextIntoChunks.
  destruct (trim input) as [|a r'] eqn:Hr; [done|]. cbn [truthy negb].
  rewrite <- Hr.
  assert (Hloop : forall i chunks,
             splitLoop random o fuel (trim input) i chunks = None);
    [|by rewrite Hloop].
  induction fuel as [|fuel IH]; intros i chunks.
  - by rewrite Hr.
  - assert (Hstep : splitLoop random o (S fuel) (trim input) i chunks
                    = splitLoop random o fuel
                        (trim (substringFrom (trim input)
                                 (length (chunkTextOf o (trim input)
                                            (chunkSizeOf o (random i)
                                               (trim input))))))
                        (S i)
                        (chunks
                         ++ [{| text := trim (chunkTextOf o (trim input)
                                                (chunkSizeOf o (random i)
                                                   (trim input)));
                                index := i; isComplete := false |}]))
      by (by rewrite Hr).
    rewrite Hstep, chunkSizeOf_zero, chunkTextOf_zero by (by rewrite ?Hr).
    unfold substringFrom. cbn [length]. rewrite drop_0, trim_idempotent.
    apply IH.
Qed.

Lemma zero_chunk_sizes_never_return_witness :
  splitTextIntoChunks (fun _ => 1 # 2)
    {| minChunkSize := 0; maxChunkSize := 0;
       preferSentenceBoundaries := false |} 1000 (lit "Hello") = None.
Proof.
  apply zero_chunk_sizes_never_return;
    [reflexivity | reflexivity | discriminate].
Defined.

(** *** The chunks and the validator *)

(** X20.  Every chunk that [splitTextIntoChunks] returns can serve as a
    watermark: after [setExpectedText(chunk.text)] the validator is active,
    holds the chunk's text unchanged, and accepts a transcript equal to
    it. *)
Theorem chunk_text_is_accepted_as_expected_text
    (random : nat -> Q) (o : Options) (fuel : nat) (input : jsstring)
    (v : ChunkValidator.t) :
  (1 <= minChunkSize o)%Q -> (1 <= maxChunkSize o)%Q ->
  (forall k, (0 <= random k)%Q /\ (random k < 1)%Q) ->
  (length input <= fuel)%nat ->
  exists chunks,
    splitTextIntoChunks random o fuel input = Some chunks
    /\ Forall
         (fun c =>
            let v' := ChunkValidator.setExpectedText v (text c) in
            ChunkValidator.getExpectedText v' = text c
            /\ ChunkValidator.isActive v' = true
            /\ ChunkValidator.isValid
                 (ChunkValidator.validateChunk v' (text c)) = true)
         chunks.
Proof.
  intros Hmin Hmax Hrand Hfuel.
  destruct (splitTextIntoChunks_spec random o fuel input Hmin Hmax Hrand Hfuel)
    as (chunks & Hrun & _ & _ & _ & Hcut & _).
  exists chunks. split; [exact Hrun|].
  eapply Forall_impl; [exact Hcut|]. intros c Hc.
  destruct (cutFrom_text random o c Hmin Hmax Hrand Hc) as [Hne Htrim].
  unfold ChunkValidator.validateChunk, ChunkValidator.isActive,
    ChunkValidator.getExpectedText, ChunkValidator.setExpectedText.
  cbn [ChunkValidator.expectedText]. rewrite !Htrim.
  destruct (text c) as [|a w] eqn:Hw; [done|].
  cbn [truthy negb]. unfold eqb.
  rewrite (bool_decide_eq_false_2 (a :: w = [])) by discriminate.
  rewrite (bool_decide_eq_true_2 (a :: w = a :: w)) by reflexivity. done.
Qed.

Lemma chunk_text_is_accepted_as_expected_text_witness :
  exists chunks,
    splitTextIntoChunks (fun _ => 1 # 2) exampleOptions 40
      (lit " Hello there. I am fine! What now? ") = Some chunks
    /\ Forall
         (fun c =>
            let v' := ChunkValidator.setExpectedText
                        ChunkValidator.create (text c) in
            ChunkValidator.getExpectedText v' = text c
            /\ ChunkValidator.isActive v' = true
            /\ ChunkValidator.isValid
                 (ChunkValidator.validateChunk v' (text c)) = true)
         chunks.
Proof.
  apply (chunk_text_is_accepted_as_expected_text (fun _ => 1 # 2)
           exampleOptions 40 (lit " Hello there. I am fine! What now? ")
           ChunkValidator.create).
  - discriminate.
  - discriminate.
  - apply half_is_random.
  - simpl. lia.
Defined.

End TextChunkerProofs.
